(** * The backup downloader of titan-storage-backup (backup.go), embedded in Rocq

    The Go program polls a job source, allocates a capacity-bounded
    directory per job, downloads a CAR file from the first source that
    answers, and reports the outcome.  This file embeds the engine of
    [backup.go] (the revision with the worker pool and the in-flight set):

    - sequential code ([createOrGetSize], [getOutPath], [request],
      [download], [create], [jobProcess], [Push], one iteration of [async])
      as programs of a state monad over a world made of the [Downloader]
      struct, the filesystem, the heap of [*model.Asset] objects and a trace
      of the observable operations;
    - the goroutines ([async], [run], the workers spawned by [run]) as a
      labelled transition system whose atomic steps are those programs.

    What the program cannot decide itself (the network, the scheduler's
    answer, permission errors of the filesystem) is read from an [Env]. *)

From Stdlib Require Import ZArith Lia Ascii String.
From stdpp Require Import base option list gmap sets strings pretty.

Local Open Scope Z_scope.

(** ** Constants of backup.go *)

Definition maxSingleDirSize : Z := Z.shiftl 18 30.
Definition ErrorEventID : Z := 99.
Definition BackupOutPath : string := "/carfile/titan".

(** The concurrency that [main] passes to [newDownloader]. *)
Definition main_concurrent : Z := 5.

(** ** Data model *)

(** Go's [error]: a message; [nil] is [None]. *)
Definition error := string.

(** Go's [int64] arithmetic wraps around. *)
Definition wrap64 (z : Z) : Z := (z + 2 ^ 63) `mod` 2 ^ 64 - 2 ^ 63.

(** The calendar date of a [time.Time]: all that the layout
    [dirDateTimeFormat = "20060102"] prints. *)
Record Time := { year : Z; month : Z; day : Z }.

Definition digit (n : Z) : ascii := ascii_of_nat (48 + Z.to_nat (n `mod` 10)).

(** [t.Format(dirDateTimeFormat)]: four digits of year, two of month, two
    of day. *)
Definition Format (t : Time) : string :=
  String (digit (year t / 1000)) (String (digit (year t / 100))
  (String (digit (year t / 10)) (String (digit (year t))
  (String (digit (month t / 10)) (String (digit (month t))
  (String (digit (day t / 10)) (String (digit (day t)) EmptyString))))))).

(** The fields of [model.Asset] that backup.go reads or writes. *)
Record Asset := {
  Cid : string;
  TotalSize : Z;
  EndTime : Time;
  Event : Z;
  Path : string
}.

Definition set_Event (v : Z) (a : Asset) : Asset :=
  {| Cid := Cid a; TotalSize := TotalSize a; EndTime := EndTime a;
     Event := v; Path := Path a |}.

Definition set_Path (v : string) (a : Asset) : Asset :=
  {| Cid := Cid a; TotalSize := TotalSize a; EndTime := EndTime a;
     Event := Event a; Path := v |}.

Global Instance Asset_inhabited : Inhabited Asset :=
  populate {| Cid := ""; TotalSize := 0; EndTime := {| year := 0; month := 0; day := 0 |};
              Event := 0; Path := "" |}.

(** A [*model.Asset]: an address in the heap of assets. *)
Definition ptr := nat.

(** One entry of [SourceList]: where to download from. *)
Record SourceDownloadInfo := { Address : string; Tk : string }.

Record AssetSourceDownloadInfoRsp := { SourceList : list SourceDownloadInfo }.

(** A scheduler; [Api] stands for [Api.GetAssetSourceDownloadInfo(ctx, cid)]. *)
Record Scheduler := {
  Uuid : string;
  AreaId : string;
  Api : string -> AssetSourceDownloadInfoRsp * option error
}.

(** The body of an HTTP response as [io.Copy] sees it: the bytes it
    delivers, and the error that ends the stream, if any. *)
Record Reader := { data : list Byte.byte; read_err : option error }.

(** What [client.Do] gives for an endpoint. *)
Inductive HttpOutcome :=
| ConnError (e : error)
| Response (StatusCode : Z) (Status : string) (Body : Reader).

Record worker := { ID : Z }.

(** The [Downloader] struct.  The channels are the lists of their buffered
    elements (oldest first), the maps of Go are finite maps. *)
Record Downloader := {
  schedulers : list Scheduler;
  JobQueue : list ptr;
  dirSize : gmap string Z;
  token : string;
  areaId : string;
  running : bool;
  concurrent : Z;
  downWorkerQueue : list worker;
  downloading : gset string
}.

Definition set_JobQueue (v : list ptr) (d : Downloader) : Downloader :=
  {| schedulers := schedulers d; JobQueue := v; dirSize := dirSize d;
     token := token d; areaId := areaId d; running := running d;
     concurrent := concurrent d; downWorkerQueue := downWorkerQueue d;
     downloading := downloading d |}.

Definition set_dirSize (v : gmap string Z) (d : Downloader) : Downloader :=
  {| schedulers := schedulers d; JobQueue := JobQueue d; dirSize := v;
     token := token d; areaId := areaId d; running := running d;
     concurrent := concurrent d; downWorkerQueue := downWorkerQueue d;
     downloading := downloading d |}.

Definition set_running (v : bool) (d : Downloader) : Downloader :=
  {| schedulers := schedulers d; JobQueue := JobQueue d; dirSize := dirSize d;
     token := token d; areaId := areaId d; running := v;
     concurrent := concurrent d; downWorkerQueue := downWorkerQueue d;
     downloading := downloading d |}.

Definition set_downWorkerQueue (v : list worker) (d : Downloader) : Downloader :=
  {| schedulers := schedulers d; JobQueue := JobQueue d; dirSize := dirSize d;
     token := token d; areaId := areaId d; running := running d;
     concurrent := concurrent d; downWorkerQueue := v;
     downloading := downloading d |}.

Definition set_downloading (v : gset string) (d : Downloader) : Downloader :=
  {| schedulers := schedulers d; JobQueue := JobQueue d; dirSize := dirSize d;
     token := token d; areaId := areaId d; running := running d;
     concurrent := concurrent d; downWorkerQueue := downWorkerQueue d;
     downloading := v |}.

(** [newDownloader(token, areaId, client, concurrent)], with the schedulers
    that [FetchSchedulersFromEtcd] found. *)
Definition newDownloader (scheds : list Scheduler) (tok area : string)
    (conc : Z) : Downloader :=
  {| schedulers := scheds; JobQueue := []; dirSize := ∅; token := tok;
     areaId := area; running := false; concurrent := conc;
     downWorkerQueue := []; downloading := ∅ |}.

(** ** Observable operations *)

Inductive Mutex := Lk | Dlk.

Inductive Ev :=
| EvLock (m : Mutex)
| EvUnlock (m : Mutex)
| EvExist (dir : string)
| EvMkdir (dir : string)
| EvGetDirSize (dir : string)
| EvInFlightTest (cid : string) (existing : bool)
| EvInFlightInsert (cid : string)
| EvInFlightDelete (cid : string)
| EvSourceLookup (cid : string)
| EvRequest (endpoint : string)
| EvCreate (file : string)
| EvCopy (file : string)
| EvDirSizeAdd (dir : string) (size : Z)
| EvPushResult (jobs : list Asset)
| EvSleep
| EvGetJobs.

(** ** The world and its monad *)

Record World := {
  dl : Downloader;
  dirs : gset string;
  files : gmap string (list Byte.byte);
  heap : gmap ptr Asset;
  trace : list Ev
}.

Definition set_dl (v : Downloader) (w : World) : World :=
  {| dl := v; dirs := dirs w; files := files w; heap := heap w; trace := trace w |}.

Definition set_dirs (v : gset string) (w : World) : World :=
  {| dl := dl w; dirs := v; files := files w; heap := heap w; trace := trace w |}.

Definition set_files (v : gmap string (list Byte.byte)) (w : World) : World :=
  {| dl := dl w; dirs := dirs w; files := v; heap := heap w; trace := trace w |}.

Definition set_heap (v : gmap ptr Asset) (w : World) : World :=
  {| dl := dl w; dirs := dirs w; files := files w; heap := v; trace := trace w |}.

Definition set_trace (v : list Ev) (w : World) : World :=
  {| dl := dl w; dirs := dirs w; files := files w; heap := heap w; trace := v |}.

Definition M (A : Type) : Type := World -> A * World.

Definition ret {A} (a : A) : M A := fun w => (a, w).

Definition bind {A B} (m : M A) (k : A -> M B) : M B :=
  fun w => let (a, w') := m w in k a w'.

Notation "'let*' x ':=' m 'in' k" := (bind m (fun x => k))
  (at level 10, x pattern, m at level 100, k at level 200).
Notation "m >> k" := (bind m (fun _ => k))
  (at level 90, right associativity).

Definition emit (e : Ev) : M unit :=
  fun w => (tt, set_trace (trace w ++ [e]) w).

Definition gets {A} (f : World -> A) : M A := fun w => (f w, w).

Definition modify (f : World -> World) : M unit := fun w => (tt, f w).

Definition modify_dl (f : Downloader -> Downloader) : M unit :=
  modify (fun w => set_dl (f (dl w)) w).

Definition Lock (m : Mutex) : M unit := emit (EvLock m).
Definition Unlock (m : Mutex) : M unit := emit (EvUnlock m).

(** Dereference of a [*model.Asset]. *)
Definition load (p : ptr) : M Asset := gets (fun w => heap w !!! p).

Definition store (p : ptr) (f : Asset -> Asset) : M unit :=
  modify (fun w => set_heap (<[p := f (heap w !!! p)]> (heap w)) w).

(** ** The environment *)

Record Env := {
  (** the error of [os.Mkdir] on a directory that does not exist yet
      (missing parent, permissions), if any *)
  mkdir_err : string -> option error;
  (** what [getDirSize] computes for a directory *)
  walk : string -> Z * option error;
  (** the error of [os.Create] for a file, if any *)
  create_err : string -> option error;
  (** the error of writing to a file, if any *)
  write_err : string -> option error;
  (** [client.Do] on a GET of the endpoint *)
  http_do : string -> HttpOutcome;
  (** what the other goroutines do to the directories while this one is
      between the existence test and the [os.Mkdir] of [createOrGetSize],
      where it holds no lock *)
  preempt : gset string -> gset string;
  (** the error of [pushResult], if any *)
  push_err : list Asset -> option error
}.

(** No other goroutine touches the directories. *)
Definition quiet (env : Env) : Prop := ∀ ds, preempt env ds = ds.

Section Engine.

Variable env : Env.

(** ** Filesystem operations *)

Definition fileutil_Exist (dir : string) : M bool :=
  emit (EvExist dir) >>
  gets (fun w => bool_decide (dir ∈ dirs w)).

Definition os_Mkdir (dir : string) : M (option error) :=
  emit (EvMkdir dir) >>
  let* ex := gets (fun w => bool_decide (dir ∈ dirs w)) in
  if ex : bool then ret (Some ("mkdir " +:+ dir +:+ ": file exists"))
  else match mkdir_err env dir with
       | Some e => ret (Some e)
       | None => modify (fun w => set_dirs ({[dir]} ∪ dirs w) w) >> ret None
       end.

Definition getDirSize (path : string) : M (Z * option error) :=
  emit (EvGetDirSize path) >>
  ret (walk env path).

(** The other goroutines run: [createOrGetSize] holds no lock between its
    existence test and its [os.Mkdir]. *)
Definition yield : M unit :=
  modify (fun w => set_dirs (preempt env (dirs w)) w).

(** ** The directory allocator *)

Definition createOrGetSize (dir : string) : M (Z * option error) :=
  let* ex := fileutil_Exist dir in
  if negb ex then
    yield >>
    let* err := os_Mkdir dir in
    ret (0, err)
  else
    Lock Lk >>
    let* cached := gets (fun w => dirSize (dl w) !! dir) in
    match cached with
    | Some size => Unlock Lk >> ret (size, None)
    | None =>
        let* (size, err) := getDirSize dir in
        match err with
        | Some e => Unlock Lk >> ret (0, Some e)
        | None =>
            modify_dl (fun d => set_dirSize (<[dir := size]> (dirSize d)) d) >>
            Unlock Lk >>
            ret (size, None)
        end
    end.

Definition filepath_Join (a b : string) : string := a +:+ "/" +:+ b.

(** [fmt.Sprintf("%s%c", dir, c)] for a rune [c]. *)
Definition Sprintf_sc (dir : string) (c : nat) : string :=
  dir +:+ String (ascii_of_nat c) EmptyString.

Definition rune_a : nat := 97.
Definition rune_z : nat := 122.

(** The candidate directory of a bucket for the rune [c]. *)
Definition candidate (dir : string) (c : nat) : string :=
  filepath_Join BackupOutPath (Sprintf_sc dir c).

(** The loop [for c := 'a'; c < 'z'; c++] of [getOutPath], from rune [c]
    on, with the current value of [outPath]. *)
Fixpoint getOutPath_loop (fuel : nat) (dir : string) (c : nat)
    (outPath : string) : M (string * option error) :=
  match fuel with
  | O => ret (outPath, None)
  | S fuel' =>
      if (c <? rune_z)%nat then
        let outPath := candidate dir c in
        let* (size, err) := createOrGetSize outPath in
        match err with
        | Some e => ret (EmptyString, Some e)
        | None =>
            if size <? maxSingleDirSize then ret (outPath, None)
            else getOutPath_loop fuel' dir (S c) outPath
        end
      else ret (outPath, None)
  end.

(** The runes are bounded by ['z'], so 26 rounds end the loop. *)
Definition getOutPath (dir : string) : M (string * option error) :=
  getOutPath_loop 26 dir rune_a EmptyString.

(** ** The download client *)

(** The endpoint that [request] builds from the address of a source. *)
Definition endpoint (url cid : string) : string :=
  let scheme := if negb (String.prefix "http" url) then "https://" else "" in
  scheme +:+ url +:+ "/ipfs/" +:+ cid +:+ "?format=car".

(** What [request] returns: the body of the response, or the error of
    building or sending the request, or the error made of a status other
    than 200. *)
Definition request_result (url cid : string) : Reader + error :=
  match http_do env (endpoint url cid) with
  | ConnError e => inr e
  | Response StatusCode Status Body =>
      if negb (StatusCode =? 200) then
        inr ("http request: " +:+ pretty StatusCode +:+ " " +:+ Status)
      else inl Body
  end.

(** [request(url, cid, token)] *)
Definition request (url cid tk : string) : M (Reader + error) :=
  emit (EvRequest (endpoint url cid)) >>
  ret (request_result url cid).

(** [os.Create]: the file is created or truncated. *)
Definition os_Create (name : string) : M (string + error) :=
  emit (EvCreate name) >>
  match create_err env name with
  | Some e => ret (inr e)
  | None => modify (fun w => set_files (<[name := []]> (files w)) w) >> ret (inl name)
  end.

(** [io.Copy(file, reader)]: the bytes written, and the first error of
    writing or reading. *)
Definition io_Copy (file : string) (reader : Reader) : M (Z * option error) :=
  emit (EvCopy file) >>
  match write_err env file with
  | Some e => ret (0, Some e)
  | None =>
      modify (fun w => set_files (<[file := data reader]> (files w)) w) >>
      ret (Z.of_nat (length (data reader)), read_err reader)
  end.

(** [d.dirSize[outPath] += size] *)
Definition dirSize_add (outPath : string) (size : Z) (d : Downloader) : Downloader :=
  set_dirSize (<[outPath := wrap64 (default 0 (dirSize d !! outPath) + size)]> (dirSize d)) d.

(** The loop of [download] over the rest of [downloadInfos.SourceList],
    and the [return nil] that follows it. *)
Fixpoint download_loop (sources : list SourceDownloadInfo)
    (outPath cid : string) (size : Z) : M (option error) :=
  match sources with
  | [] => ret None
  | downloadInfo :: sources' =>
      let* r := request (Address downloadInfo) cid (Tk downloadInfo) in
      match r with
      | inr _ => download_loop sources' outPath cid size
      | inl reader =>
          let* f := os_Create (filepath_Join outPath (cid +:+ ".car")) in
          match f with
          | inr e => ret (Some e)
          | inl file =>
              let* (_, err) := io_Copy file reader in
              match err with
              | Some e => ret (Some e)
              | None =>
                  Lock Lk >>
                  modify_dl (dirSize_add outPath size) >>
                  emit (EvDirSizeAdd outPath size) >>
                  Unlock Lk >>
                  ret None
              end
          end
      end
  end.

Definition download (scheduler : Scheduler) (outPath cid : string) (size : Z)
    : M (option error) :=
  emit (EvSourceLookup cid) >>
  let (downloadInfos, err) := Api scheduler cid in
  match err with
  | Some e => ret (Some e)
  | None =>
      if (length (SourceList downloadInfos) =? 0)%nat then
        ret (Some ("CARFile " +:+ cid +:+ " not found"))
      else download_loop (SourceList downloadInfos) outPath cid size
  end.

(** ** One job *)

(** [create(ctx, job)]: the job it returns ([nil] is [None]) and the error. *)
Definition create (job : ptr) : M (option ptr * option error) :=
  let* a := load job in
  let dir := Format (EndTime a) in
  let* (outPath, err) := getOutPath dir in
  match err with
  | Some e => ret (None, Some e)
  | None =>
      let* d := gets dl in
      match List.find (fun sd => String.eqb (AreaId sd) (areaId d)) (schedulers d) with
      | None => ret (None, Some "no scheduler found")
      | Some s =>
          let* a := load job in
          let* err := download s outPath (Cid a) (TotalSize a) in
          match err with
          | Some e => store job (set_Event ErrorEventID) >> ret (Some job, Some e)
          | None => store job (set_Path outPath) >> ret (Some job, None)
          end
      end
  end.

(** [pushResult(token, jobs)]: the report carries the assets as they are
    when it is sent. *)
Definition pushResult (tok : string) (jobs : list ptr) : M (option error) :=
  let* sent := gets (fun w => map (fun p => heap w !!! p) jobs) in
  emit (EvPushResult sent) >>
  ret (push_err env sent).

(** The first critical section of the closure that [jobProcess] returns:
    [true] when the job goes on. *)
Definition jobProcess_enter (asset : ptr) : M bool :=
  Lock Dlk >>
  let* a := load asset in
  let* existing := gets (fun w => bool_decide (Cid a ∈ downloading (dl w))) in
  emit (EvInFlightTest (Cid a) existing) >>
  if existing : bool then
    Unlock Dlk >> ret false
  else
    modify_dl (fun d => set_downloading ({[Cid a]} ∪ downloading d) d) >>
    emit (EvInFlightInsert (Cid a)) >>
    Unlock Dlk >>
    ret true.

(** From [d.create] to [time.Sleep]. *)
Definition jobProcess_work (asset : ptr) : M unit :=
  let* _ := create asset in
  let* tok := gets (fun w => token (dl w)) in
  let* _ := pushResult tok [asset] in
  emit EvSleep.

(** The last critical section. *)
Definition jobProcess_exit (asset : ptr) : M unit :=
  Lock Dlk >>
  let* a := load asset in
  modify_dl (fun d => set_downloading (downloading d ∖ {[Cid a]}) d) >>
  emit (EvInFlightDelete (Cid a)) >>
  Unlock Dlk.

Definition jobProcess (asset : ptr) : M unit :=
  let* go := jobProcess_enter asset in
  if go : bool then jobProcess_work asset >> jobProcess_exit asset
  else ret tt.

(** ** The poller *)

(** Where the goroutine of [async] stands: at the ticker, or inside [Push]
    with the jobs still to send. *)
Inductive PollerPc :=
| PTicker
| PPush (jobs : list ptr).

(** The assets that [getJobs] decoded are new objects of the heap. *)
Fixpoint alloc (assets : list Asset) : M (list ptr) :=
  match assets with
  | [] => ret []
  | a :: assets' =>
      let* p := gets (fun w => fresh (dom (heap w))) in
      modify (fun w => set_heap (<[p := a]> (heap w)) w) >>
      let* ps := alloc assets' in
      ret (p :: ps)
  end.

(** One tick of [async], up to the call of [Push]; [fetched] is what
    [getJobs] returns when it is called. *)
Definition async_tick (fetched : list Asset * option error) : M PollerPc :=
  let* r := gets (fun w => running (dl w)) in
  if r : bool then ret PTicker
  else
    modify_dl (set_running true) >>
    emit EvGetJobs >>
    let (assets, err) := fetched in
    match err with
    | Some _ => ret PTicker
    | None =>
        let* jobs := alloc assets in
        if (length jobs =? 0)%nat then
          modify_dl (set_running false) >> ret PTicker
        else ret (PPush jobs)
    end.

(** The capacity of [JobQueue]: [make(chan *model.Asset, 1)]. *)
Definition JobQueue_cap : nat := 1.

(** One step of [Push]: the next send on [JobQueue] ([None] while the
    channel is full), or, after the loop, [d.running = false]. *)
Definition Push_step (jobs : list ptr) : M (option PollerPc) :=
  match jobs with
  | [] => modify_dl (set_running false) >> ret (Some PTicker)
  | j :: jobs' =>
      let* q := gets (fun w => JobQueue (dl w)) in
      if (length q <? JobQueue_cap)%nat then
        modify_dl (set_JobQueue (q ++ [j])) >> ret (Some (PPush jobs'))
      else ret None
  end.

(** ** The dispatcher and its workers *)

(** [initDownWorker]: [concurrent] sends on a channel of that capacity. *)
Definition initDownWorker : M unit :=
  modify_dl (fun d =>
    set_downWorkerQueue
      (downWorkerQueue d ++
       map (fun i => {| ID := Z.of_nat i |}) (seq 0 (Z.to_nat (concurrent d)))) d).

(** Where the loop of [run] stands: at the receive on [JobQueue], or at
    the receive on [downWorkerQueue] with the asset it took. *)
Inductive DispatcherPc :=
| DRecv
| DAcquire (asset : ptr).

(** Where a goroutine [go func(a, w)] stands: before [jobFunc()], after
    its first critical section, after the sleep, after [jobFunc()]. *)
Inductive GoPc := GStart | GWorking | GSettled | GDone.

Record Goroutine := { g_asset : ptr; g_wrk : worker; g_pc : GoPc }.

Definition set_pc (pc : GoPc) (g : Goroutine) : Goroutine :=
  {| g_asset := g_asset g; g_wrk := g_wrk g; g_pc := pc |}.

(** The whole program; [enqueued] and [dispatched] are history variables:
    the jobs sent on [JobQueue] and the jobs that got a worker, in order. *)
Record System := {
  world : World;
  poller : PollerPc;
  dispatcher : DispatcherPc;
  workers : list Goroutine;
  enqueued : list ptr;
  dispatched : list ptr
}.

Definition set_world (v : World) (s : System) : System :=
  {| world := v; poller := poller s; dispatcher := dispatcher s;
     workers := workers s; enqueued := enqueued s; dispatched := dispatched s |}.

Definition set_workers (v : list Goroutine) (s : System) : System :=
  {| world := world s; poller := poller s; dispatcher := dispatcher s;
     workers := v; enqueued := enqueued s; dispatched := dispatched s |}.

Inductive Label :=
| LTick (fetched : list Asset * option error)
| LPush
| LRecv
| LSpawn
| LJob (i : nat).

(** The step of the [i]-th goroutine. *)
Definition exec_job (i : nat) (s : System) : option System :=
  match workers s !! i with
  | None => None
  | Some g =>
      match g_pc g with
      | GStart =>
          let (go, w) := jobProcess_enter (g_asset g) (world s) in
          Some (set_world w
                  (set_workers (<[i := set_pc (if go : bool then GWorking else GDone) g]>
                                  (workers s)) s))
      | GWorking =>
          let (_, w) := jobProcess_work (g_asset g) (world s) in
          Some (set_world w (set_workers (<[i := set_pc GSettled g]> (workers s)) s))
      | GSettled =>
          let (_, w) := jobProcess_exit (g_asset g) (world s) in
          Some (set_world w (set_workers (<[i := set_pc GDone g]> (workers s)) s))
      | GDone =>
          let d := dl (world s) in
          if (Z.of_nat (length (downWorkerQueue d)) <? concurrent d) then
            Some (set_world
                    (set_dl (set_downWorkerQueue (downWorkerQueue d ++ [g_wrk g]) d)
                            (world s))
                    (set_workers (delete i (workers s)) s))
          else None
      end
  end.

(** One step of the program, [None] when the goroutine of the label
    cannot move. *)
Definition exec (l : Label) (s : System) : option System :=
  match l with
  | LTick fetched =>
      match poller s with
      | PTicker =>
          let (pc, w) := async_tick fetched (world s) in
          Some {| world := w; poller := pc; dispatcher := dispatcher s;
                  workers := workers s; enqueued := enqueued s;
                  dispatched := dispatched s |}
      | PPush _ => None
      end
  | LPush =>
      match poller s with
      | PTicker => None
      | PPush jobs =>
          match Push_step jobs (world s) with
          | (None, _) => None
          | (Some pc, w) =>
              Some {| world := w; poller := pc; dispatcher := dispatcher s;
                      workers := workers s;
                      enqueued := enqueued s ++ take 1 jobs;
                      dispatched := dispatched s |}
          end
      end
  | LRecv =>
      match dispatcher s, JobQueue (dl (world s)) with
      | DRecv, asset :: q =>
          Some {| world := set_dl (set_JobQueue q (dl (world s))) (world s);
                  poller := poller s; dispatcher := DAcquire asset;
                  workers := workers s; enqueued := enqueued s;
                  dispatched := dispatched s |}
      | _, _ => None
      end
  | LSpawn =>
      match dispatcher s, downWorkerQueue (dl (world s)) with
      | DAcquire asset, wrk :: q =>
          Some {| world := set_dl (set_downWorkerQueue q (dl (world s))) (world s);
                  poller := poller s; dispatcher := DRecv;
                  workers := workers s ++ [{| g_asset := asset; g_wrk := wrk;
                                               g_pc := GStart |}];
                  enqueued := enqueued s;
                  dispatched := dispatched s ++ [asset] |}
      | _, _ => None
      end
  | LJob i => exec_job i s
  end.

Fixpoint execs (ls : list Label) (s : System) : option System :=
  match ls with
  | [] => Some s
  | l :: ls' =>
      match exec l s with
      | Some s' => execs ls' s'
      | None => None
      end
  end.

End Engine.

(** The program when [run] has called [initDownWorker], on a filesystem
    with the directories [ds]. *)
Definition boot (scheds : list Scheduler) (tok area : string) (conc : Z)
    (ds : gset string) : System :=
  {| world := (initDownWorker
                 {| dl := newDownloader scheds tok area conc; dirs := ds;
                    files := ∅; heap := ∅; trace := [] |}).2;
     poller := PTicker; dispatcher := DRecv; workers := [];
     enqueued := []; dispatched := [] |}.

(** * Observations, invariants and scenarios *)

(** ** What a trace shows *)

(** The directories that a trace examines, in order. *)
Definition examined (tr : list Ev) : list string :=
  omap (fun e => match e with EvExist d => Some d | _ => None end) tr.

(** The reports that a trace sends, in order. *)
Definition reports (tr : list Ev) : list (list Asset) :=
  omap (fun e => match e with EvPushResult jobs => Some jobs | _ => None end) tr.

(** The request to a source fails: connection error or status other than
    200. *)
Definition request_fails (env : Env) (cid : string) (x : SourceDownloadInfo) : bool :=
  match request_result env (Address x) cid with
  | inr _ => true
  | inl _ => false
  end.

(** The requests that a list of sources stands for, in order. *)
Definition requests_of (cid : string) (l : list SourceDownloadInfo) : list Ev :=
  map (fun x => EvRequest (endpoint (Address x) cid)) l.

(** ** Relations between worlds and invariants of the program *)

(** The channels, the concurrency and the flag of the poller. *)
Definition same_control (w w' : World) : Prop :=
  JobQueue (dl w') = JobQueue (dl w) ∧
  downWorkerQueue (dl w') = downWorkerQueue (dl w) ∧
  concurrent (dl w') = concurrent (dl w) ∧
  running (dl w') = running (dl w).

(** The same without the flag. *)
Definition same_queues (w w' : World) : Prop :=
  JobQueue (dl w') = JobQueue (dl w) ∧
  downWorkerQueue (dl w') = downWorkerQueue (dl w) ∧
  concurrent (dl w') = concurrent (dl w).

(** The trace only grows. *)
Definition extends (w w' : World) : Prop := ∃ tr, trace w' = trace w ++ tr.

(** Every run of [m] relates the world before to the world after. *)
Definition keeps (R : World -> World -> Prop) {A} (m : M A) : Prop :=
  ∀ w, R w (m w).2.

(** The asset that the dispatcher holds while it waits for a worker. *)
Definition held (s : System) : list ptr :=
  match dispatcher s with
  | DRecv => []
  | DAcquire asset => [asset]
  end.

(** The workers in the pool, then the workers that goroutines hold. *)
Definition slots (s : System) : list worker :=
  downWorkerQueue (dl (world s)) ++ map g_wrk (workers s).

Global Instance GoPc_eq_dec : EqDecision GoPc.
Proof. solve_decision. Defined.

(** The goroutines inside [d.create], [pushResult] or the sleep. *)
Definition executing (s : System) : list Goroutine :=
  filter (fun g => g_pc g = GWorking) (workers s).

(** The workers that [initDownWorker] makes for a concurrency of [N]. *)
Definition all_workers (N : Z) : list worker :=
  map (fun i => {| ID := Z.of_nat i |}) (seq 0 (Z.to_nat N)).

(** Every worker of [initDownWorker] is in the pool or held by one
    goroutine, and the jobs sent on [JobQueue] leave it in the order they
    came. *)
Record pool_inv (N : Z) (s : System) : Prop := {
  inv_concurrent : concurrent (dl (world s)) = N;
  inv_slots : slots s ≡ₚ all_workers N;
  inv_fifo : enqueued s = dispatched s ++ held s ++ JobQueue (dl (world s))
}.

(** The flag is set and the poller is back at its ticker. *)
Definition stuck (s : System) : Prop :=
  running (dl (world s)) = true ∧ poller s = PTicker.

(** ** Scenarios *)

(** An environment without errors, where no source answers and no other
    goroutine interferes. *)
Definition env_ok : Env :=
  {| mkdir_err := fun _ => None; walk := fun _ => (0, None);
     create_err := fun _ => None; write_err := fun _ => None;
     http_do := fun _ => ConnError "connection refused";
     preempt := fun ds => ds; push_err := fun _ => None |}.

(** Another worker creates suffix a of bucket 20240101 while this one is
    between its existence test and its [os.Mkdir]. *)
Definition env_race : Env :=
  {| mkdir_err := fun _ => None; walk := fun _ => (0, None);
     create_err := fun _ => None; write_err := fun _ => None;
     http_do := fun _ => ConnError "connection refused";
     preempt := fun ds => {[ "/carfile/titan/20240101a" ]} ∪ ds;
     push_err := fun _ => None |}.

(** [os.Mkdir] is refused. *)
Definition env_denied : Env :=
  {| mkdir_err := fun _ => Some "permission denied"; walk := fun _ => (0, None);
     create_err := fun _ => None; write_err := fun _ => None;
     http_do := fun _ => ConnError "connection refused";
     preempt := fun ds => ds; push_err := fun _ => None |}.

(** Only the source node3 answers, with three bytes. *)
Definition env_node3 : Env :=
  {| mkdir_err := fun _ => None; walk := fun _ => (0, None);
     create_err := fun _ => None; write_err := fun _ => None;
     http_do := fun ep =>
       if String.eqb ep "https://node3/ipfs/bafy1?format=car"
       then Response 200 "200 OK"
              {| data := [Byte.x01; Byte.x02; Byte.x03]; read_err := None |}
       else ConnError "connection refused";
     preempt := fun ds => ds; push_err := fun _ => None |}.

(** The source at an address. *)
Definition source (addr : string) : SourceDownloadInfo :=
  {| Address := addr; Tk := "tk" |}.

(** A scheduler of area [area] that names the same sources for every
    content id. *)
Definition scheduler_of (sources : list SourceDownloadInfo) : Scheduler :=
  {| Uuid := "http://scheduler"; AreaId := "area";
     Api := fun _ => ({| SourceList := sources |}, None) |}.

(** A job of 20 GiB for the bucket 20240101, as [getJobs] delivers it. *)
Definition asset1 : Asset :=
  {| Cid := "bafy1"; TotalSize := 20 * 2 ^ 30;
     EndTime := {| year := 2024; month := 1; day := 1 |};
     Event := 0; Path := "" |}.

(** A world whose only directory, suffix a of bucket 20240101, is cached at
    [size]. *)
Definition world_a (size : Z) : World :=
  {| dl := set_dirSize {[ "/carfile/titan/20240101a" := size ]}
             (newDownloader [] "token" "area" main_concurrent);
     dirs := {[ "/carfile/titan/20240101a" ]}; files := ∅; heap := ∅;
     trace := [] |}.

(** The bucket 20240101 with all 26 directories, a to z, on disk and each
    cached at the threshold. *)
Definition world_full : World :=
  {| dl := set_dirSize
             (list_to_map (map (fun c => (candidate "20240101" c, maxSingleDirSize))
                               (seq rune_a 26)))
             (newDownloader [] "token" "area" main_concurrent);
     dirs := list_to_set (map (candidate "20240101") (seq rune_a 26));
     files := ∅; heap := ∅; trace := [] |}.

(** A world without directories. *)
Definition world_empty : World :=
  {| dl := newDownloader [] "token" "area" main_concurrent;
     dirs := ∅; files := ∅; heap := ∅; trace := [] |}.

(** A downloader of area [area] with one scheduler, and the job [asset1]
    at address 0. *)
Definition world_job (sources : list SourceDownloadInfo) (ds : gset string)
    (sizes : gmap string Z) : World :=
  {| dl := set_dirSize sizes
             (newDownloader [scheduler_of sources] "token" "area" main_concurrent);
     dirs := ds; files := ∅; heap := {[ 0%nat := asset1 ]}; trace := [] |}.

(** The job [asset1] at address 0 while another worker holds its content
    id. *)
Definition world_busy : World :=
  {| dl := set_downloading {[ "bafy1" ]}
             (newDownloader [scheduler_of [source "node3"]] "token" "area"
                main_concurrent);
     dirs := ∅; files := ∅; heap := {[ 0%nat := asset1 ]}; trace := [] |}.

(** The job [asset1] is fetched, sent, received and given to a worker,
    which runs it up to the sleep. *)
Definition run1 : list Label :=
  [LTick ([asset1], None); LPush; LRecv; LSpawn; LJob 0; LJob 0].

(** The program as [main] starts it, with one scheduler. *)
Definition boot1 : System :=
  boot [scheduler_of [source "node3"]] "token" "area" main_concurrent ∅.

(** The state after [run1]. *)
Definition state1 : System := default boot1 (execs env_node3 run1 boot1).

(** ** The rest of the engine *)

(** The loop of [GetScheduler] over the rest of [d.schedulers], and the
    [return nil] that follows it. *)
Fixpoint GetScheduler_loop (l : list Scheduler) (area : string) : option Scheduler :=
  match l with
  | [] => None
  | s :: l' => if String.eqb (AreaId s) area then Some s else GetScheduler_loop l' area
  end.

(** [d.GetScheduler(areaId)]; [nil] is [None]. *)
Definition GetScheduler (d : Downloader) (area : string) : option Scheduler :=
  GetScheduler_loop (schedulers d) area.

(** The values of an [int64]. *)
Definition int64_range (z : Z) : Prop := - 2 ^ 63 <= z < 2 ^ 63.

(** The suffix runes of the loop of [getOutPath]. *)
Definition suffix_rune (c : nat) : Prop := (rune_a <= c < rune_z)%nat.

(** A copy that breaks after three bytes. *)
Definition env_broken : Env :=
  {| mkdir_err := fun _ => None; walk := fun _ => (0, None);
     create_err := fun _ => None; write_err := fun _ => None;
     http_do := fun _ =>
       Response 200 "200 OK"
         {| data := [Byte.x01; Byte.x02; Byte.x03];
            read_err := Some "unexpected EOF" |};
     preempt := fun ds => ds; push_err := fun _ => None |}.

(** The job [asset1] at address 0 of a downloader whose area no scheduler
    has. *)
Definition world_elsewhere : World :=
  {| dl := newDownloader [scheduler_of [source "node1"]] "token" "elsewhere"
             main_concurrent;
     dirs := ∅; files := ∅; heap := {[ 0%nat := asset1 ]}; trace := [] |}.

(** The jobs that [Push] has still to send. *)
Definition pending (s : System) : list ptr :=
  match poller s with
  | PTicker => []
  | PPush jobs => jobs
  end.

(** A label of the dispatcher, of [Push] or of a worker: not a tick. *)
Definition not_tick (l : Label) : Prop :=
  match l with
  | LTick _ => False
  | _ => True
  end.

(** A goroutine owns the content id of its job from its first critical
    section to its last. *)
Definition owns (g : Goroutine) : bool :=
  match g_pc g with
  | GWorking | GSettled => true
  | GStart | GDone => false
  end.

(** The content ids that goroutines own, in the order of the goroutines. *)
Definition owned (w : World) (gs : list Goroutine) : list string :=
  map (fun g => Cid (heap w !!! g_asset g)) (filter (fun g => Is_true (owns g)) gs).

(** The assets that the program holds somewhere. *)
Definition live_ptrs (s : System) : list ptr :=
  pending s ++ JobQueue (dl (world s)) ++ held s ++ map g_asset (workers s).

(** The content ids in [downloading] are those that goroutines own, each
    owned once, and every asset of the program is in the heap. *)
Record dedup_inv (s : System) : Prop := {
  dd_nodup : NoDup (owned (world s) (workers s));
  dd_set : ∀ cid, cid ∈ downloading (dl (world s)) ↔ cid ∈ owned (world s) (workers s);
  dd_ptrs : Forall (fun p => p ∈ dom (heap (world s))) (live_ptrs s)
}.

(** The state after the first tick, which fetches [asset1]. *)
Definition state_tick : System :=
  default boot1 (exec env_node3 (LTick ([asset1], None)) boot1).

(** ** The scheduler configurations of etcd *)

(** The fields of [types.SchedulerCfg] that the program reads. *)
Record SchedulerCfg := {
  SchedulerURL : string;
  AreaID : string;
  AccessToken : string
}.

(** One entry of [resp.Kvs]. *)
Record KeyValue := { Key : string; Value : list Byte.byte }.

(** The loop of [loadSchedulerConfigs] over the rest of [resp.Kvs], with the
    current [schedulerConfigs] and [ec.configMap]; [SCUnmarshal] stands for
    [etcdcli.SCUnmarshal].  It returns the result of the function and the
    [configMap] it leaves. *)
Fixpoint loadSchedulerConfigs_loop (SCUnmarshal : list Byte.byte -> SchedulerCfg + error)
    (kvs : list KeyValue) (schedulerConfigs : gmap string (list SchedulerCfg))
    (configMap : gmap string SchedulerCfg)
    : (option (gmap string (list SchedulerCfg)) * option error)
      * gmap string SchedulerCfg :=
  match kvs with
  | [] => ((Some schedulerConfigs, None), configMap)
  | kv :: kvs' =>
      match SCUnmarshal (Value kv) with
      | inr err => ((None, Some err), configMap)
      | inl configScheduler =>
          let configs :=
            match schedulerConfigs !! AreaID configScheduler with
            | Some configs => configs
            | None => []
            end in
          let configs := configs ++ [configScheduler] in
          loadSchedulerConfigs_loop SCUnmarshal kvs'
            (<[AreaID configScheduler := configs]> schedulerConfigs)
            (<[Key kv := configScheduler]> configMap)
      end
  end.

(** [ec.loadSchedulerConfigs()], where [GetServers] is what
    [ec.cli.GetServers] returns. *)
Definition loadSchedulerConfigs (GetServers : list KeyValue * option error)
    (SCUnmarshal : list Byte.byte -> SchedulerCfg + error)
    (configMap : gmap string SchedulerCfg)
    : (option (gmap string (list SchedulerCfg)) * option error)
      * gmap string SchedulerCfg :=
  match GetServers with
  | (_, Some err) => ((None, Some err), configMap)
  | (Kvs, None) => loadSchedulerConfigs_loop SCUnmarshal Kvs ∅ configMap
  end.

(** The configurations of an area, in their order. *)
Definition of_area (area : string) (cfgs : list SchedulerCfg) : list SchedulerCfg :=
  filter (fun c => AreaID c = area) cfgs.

(** The entries of [configMap] after the key-value pairs [kvs] with the
    configurations [cfgs]: the last configuration of a key stays. *)
Definition configMap_after (kvs : list KeyValue) (cfgs : list SchedulerCfg)
    (configMap : gmap string SchedulerCfg) : gmap string SchedulerCfg :=
  foldl (fun m kc => <[Key kc.1 := kc.2]> m) configMap (zip kvs cfgs).

(** A decoder that reads the area from the first byte. *)
Definition decode1 (v : list Byte.byte) : SchedulerCfg + error :=
  match v with
  | [Byte.x01] => inl {| SchedulerURL := "https://s1"; AreaID := "asia"; AccessToken := "t" |}
  | [Byte.x02] => inl {| SchedulerURL := "https://s2"; AreaID := "europe"; AccessToken := "t" |}
  | [Byte.x03] => inl {| SchedulerURL := "https://s3"; AreaID := "asia"; AccessToken := "t" |}
  | _ => inr "invalid character"
  end.

(** ** The first revision of [download]

    backup.go also holds the revision before the worker pool, where
    [download] goes through all the schedulers and remembers the last error
    in [outErr]. *)

Module V1.

(** A scheduler of that revision; [Api] stands for
    [Api.GetCandidateDownloadInfos(ctx, cid)]. *)
Record Scheduler := {
  Api : string -> list SourceDownloadInfo * option error
}.

Section V1.

Variable env : Env.

(** The inner loop of [download] over the rest of [downloadInfos]: [inl] is
    what [download] returns from inside the loop, [inr] is [outErr] when the
    loop ends. *)
Fixpoint download_infos (downloadInfos : list SourceDownloadInfo)
    (outPath cid : string) (size : Z) (outErr : option error)
    : M (option error + option error) :=
  match downloadInfos with
  | [] => ret (inr outErr)
  | downloadInfo :: downloadInfos' =>
      let* r := request env (Address downloadInfo) cid (Tk downloadInfo) in
      match r with
      | inr err => download_infos downloadInfos' outPath cid size (Some err)
      | inl reader =>
          let* f := os_Create env (filepath_Join outPath (cid +:+ ".car")) in
          match f with
          | inr err => ret (inl (Some err))
          | inl file =>
              let* (_, err) := io_Copy env file reader in
              match err with
              | Some e => ret (inl (Some e))
              | None =>
                  Lock Lk >>
                  modify_dl (dirSize_add outPath size) >>
                  emit (EvDirSizeAdd outPath size) >>
                  Unlock Lk >>
                  ret (inl None)
              end
          end
      end
  end.

(** The outer loop of [download] over the rest of [d.schedulers], and the
    [return outErr] that follows it. *)
Fixpoint download_schedulers (schedulers : list Scheduler)
    (outPath cid : string) (size : Z) (outErr : option error) : M (option error) :=
  match schedulers with
  | [] => ret outErr
  | scheduler :: schedulers' =>
      emit (EvSourceLookup cid) >>
      let (downloadInfos, err) := Api scheduler cid in
      match err with
      | Some e => download_schedulers schedulers' outPath cid size (Some e)
      | None =>
          if (length downloadInfos =? 0)%nat then
            download_schedulers schedulers' outPath cid size
              (Some ("CARFile " +:+ cid +:+ " not found"))
          else
            let* r := download_infos downloadInfos outPath cid size outErr in
            match r with
            | inl e => ret e
            | inr outErr' => download_schedulers schedulers' outPath cid size outErr'
            end
      end
  end.

(** [d.download(ctx, outPath, cid, size)] with [d.schedulers]. *)
Definition download (schedulers : list Scheduler) (outPath cid : string) (size : Z)
    : M (option error) :=
  download_schedulers schedulers outPath cid size None.

End V1.

End V1.

(** ** Admission *)

(** The last rune of the loop of [getOutPath]: ['y']. *)
Definition rune_last : nat := 121.

(** Suffix a of bucket 20240101 on disk and cached at [size], and the job
    [asset1] at address 0 of a downloader whose scheduler names node3. *)
Definition world_cached (size : Z) : World :=
  world_job [source "node3"] {[ "/carfile/titan/20240101a" ]}
    {[ "/carfile/titan/20240101a" := size ]}.

(** ** The life of a job in a worker *)

(** The events that a goroutine leaves in the trace for its job: the test
    of [downloading], the report, the sleep, and the [delete] of the content
    id. *)
Definition is_life (e : Ev) : bool :=
  match e with
  | EvInFlightTest _ _ | EvInFlightDelete _ | EvPushResult _ | EvSleep => true
  | _ => false
  end.

Definition life (tr : list Ev) : list Ev := List.filter is_life tr.

(** The trace grows, and [l] is what the new part holds of such events. *)
Definition emits (l : list Ev) (w w' : World) : Prop :=
  ∃ tr, trace w' = trace w ++ tr ∧ life tr = l.

(** The job was found in [downloading]: a duplicate. *)
Definition checked_dup (e : Ev) : bool :=
  match e with EvInFlightTest _ true => true | _ => false end.

(** The job was not found there, and goes on. *)
Definition checked_new (e : Ev) : bool :=
  match e with EvInFlightTest _ false => true | _ => false end.

Definition is_report (e : Ev) : bool :=
  match e with EvPushResult _ => true | _ => false end.

Definition is_sleep (e : Ev) : bool :=
  match e with EvSleep => true | _ => false end.

Definition is_release (e : Ev) : bool :=
  match e with EvInFlightDelete _ => true | _ => false end.

Definition count_ev (f : Ev -> bool) (tr : list Ev) : nat :=
  length (List.filter f tr).

(** The goroutines that stand at [pc]. *)
Definition at_pc (pc : GoPc) (gs : list Goroutine) : nat :=
  length (filter (fun g => g_pc g = pc) gs).

(** What the goroutine at [pc] leaves in the trace by its next step, for a
    job of content id [cid]; [existing] is the outcome of the test and
    [rep] the job as reported. *)
Definition step_life (pc : GoPc) (cid : string) (existing : bool) (rep : Asset)
    : list Ev :=
  match pc with
  | GStart => [EvInFlightTest cid existing]
  | GWorking => [EvPushResult [rep]; EvSleep]
  | GSettled => [EvInFlightDelete cid]
  | GDone => []
  end.

(** The books of the pool: every job that got a worker has made its test
    of [downloading] unless its goroutine has not started; every job that
    passed the test has been reported, and slept on, unless its goroutine is
    still at work; every job that passed the test has left [downloading]
    unless its goroutine is before its last critical section. *)
Definition accounts (tr : list Ev) (gs : list Goroutine) (n : nat) : Prop :=
  (count_ev checked_dup tr + count_ev checked_new tr + at_pc GStart gs = n)%nat ∧
  (count_ev is_report tr + at_pc GWorking gs = count_ev checked_new tr)%nat ∧
  count_ev is_sleep tr = count_ev is_report tr ∧
  (count_ev is_release tr + at_pc GWorking gs + at_pc GSettled gs
   = count_ev checked_new tr)%nat.

Definition lifecycle_inv (s : System) : Prop :=
  accounts (trace (world s)) (workers s) (length (dispatched s)).

(** A job of 1 GiB for the bucket 20240101. *)
Definition job_of (cid : string) : Asset :=
  {| Cid := cid; TotalSize := 2 ^ 30;
     EndTime := {| year := 2024; month := 1; day := 1 |};
     Event := 0; Path := "" |}.

(** Six jobs in one answer of [getJobs], one more than [main] has workers. *)
Definition burst : list Asset :=
  map job_of ["bafy1"; "bafy2"; "bafy3"; "bafy4"; "bafy5"; "bafy6"].

(** The six jobs are fetched; five are sent, received and given a worker,
    and each of the five goroutines starts its job; the sixth is sent and
    received. *)
Definition run_burst : list Label :=
  LTick (burst, None) ::
  concat (replicate 5 [LPush; LRecv; LSpawn]) ++
  map LJob (seq 0 5) ++ [LPush; LRecv].

Definition state_burst : System := default boot1 (execs env_node3 run_burst boot1).

(** The first goroutine ends its job and returns its worker, which the
    sixth job gets. *)
Definition run_next : list Label := [LJob 0; LJob 0; LJob 0; LSpawn].

Definition state_next : System :=
  default state_burst (execs env_node3 run_next state_burst).

(** What the trace holds, in this order, of the job of content id [cid]
    whose goroutine stands at [pc]: its test of [downloading]; then the
    report of the job and the sleep; then the [delete] of its content id,
    unless the test found it a duplicate. *)
Definition job_life (pc : GoPc) (cid : string) (tr : list Ev) : Prop :=
  match pc with
  | GStart => True
  | GWorking => [EvInFlightTest cid false] `sublist_of` tr
  | GSettled =>
      ∃ rep, Cid rep = cid ∧
             [EvInFlightTest cid false; EvPushResult [rep]; EvSleep] `sublist_of` tr
  | GDone =>
      [EvInFlightTest cid true] `sublist_of` tr ∨
      ∃ rep, Cid rep = cid ∧
             [EvInFlightTest cid false; EvPushResult [rep]; EvSleep;
              EvInFlightDelete cid] `sublist_of` tr
  end.

(** Every goroutine has behind it the life of its job up to where it
    stands. *)
Definition lived (s : System) : Prop :=
  Forall (fun g => job_life (g_pc g) (Cid (heap (world s) !!! g_asset g))
                     (trace (world s)))
         (workers s).

(** ** The way of a batch *)

(** The state after the tick of [state_tick] and the two steps of [Push]
    that send its job and clear the flag. *)
Definition state_sent : System :=
  default state_tick (execs env_node3 [LPush; LPush] state_tick).

(** The jobs between the dispatcher and [Push], in the order they leave the
    program: those that got a worker, the one in the hand of the dispatcher,
    those in the buffer of [JobQueue], those that [Push] has still to send. *)
Definition in_flight_order (s : System) : list ptr :=
  dispatched s ++ held s ++ JobQueue (dl (world s)) ++ pending s.

(** * Properties *)

(** ** Reasoning about programs of the monad *)

Lemma World_eq (w1 w2 : World) :
  dl w1 = dl w2 -> dirs w1 = dirs w2 -> files w1 = files w2 ->
  heap w1 = heap w2 -> trace w1 = trace w2 -> w1 = w2.
Proof. destruct w1, w2; simpl; intros; subst; reflexivity. Qed.

Lemma bind_eq {A B} (m : M A) (k : A -> M B) w a w' :
  m w = (a, w') -> bind m k w = k a w'.
Proof. unfold bind. intros ->. reflexivity. Qed.

Ltac trace_eq :=
  simpl; repeat (rewrite <- app_assoc || rewrite <- app_comm_cons); reflexivity.

Ltac prim :=
  cbv [bind ret emit gets modify modify_dl Lock Unlock load store yield].

(** ** The directory allocator *)

Section Allocator.

Variable env : Env.

Lemma createOrGetSize_cached dir w S :
  dir ∈ dirs w -> dirSize (dl w) !! dir = Some S ->
  createOrGetSize env dir w =
    ((S, None), set_trace (trace w ++ [EvExist dir; EvLock Lk; EvUnlock Lk]) w).
Proof.
  intros Hin Hc. unfold createOrGetSize, fileutil_Exist. prim. simpl.
  rewrite bool_decide_eq_true_2 by exact Hin. simpl. rewrite Hc.
  f_equal. apply World_eq; simpl; try reflexivity.
  rewrite <- !app_assoc. reflexivity.
Qed.

Lemma createOrGetSize_absent dir w :
  quiet env -> dir ∉ dirs w -> mkdir_err env dir = None ->
  createOrGetSize env dir w =
    ((0, None),
     set_dirs ({[dir]} ∪ dirs w)
       (set_trace (trace w ++ [EvExist dir; EvMkdir dir]) w)).
Proof.
  intros Hq Hin Hm. unfold createOrGetSize, fileutil_Exist, os_Mkdir. prim. simpl.
  rewrite bool_decide_eq_false_2 by exact Hin. simpl. rewrite Hq.
  rewrite bool_decide_eq_false_2 by exact Hin. rewrite Hm.
  f_equal. apply World_eq; simpl; try reflexivity.
  rewrite <- !app_assoc. reflexivity.
Qed.

Lemma getOutPath_loop_select fuel dir c o w size w' :
  (c < rune_z)%nat ->
  createOrGetSize env (candidate dir c) w = ((size, None), w') ->
  size < maxSingleDirSize ->
  getOutPath_loop env (S fuel) dir c o w = ((candidate dir c, None), w').
Proof.
  intros Hc Hs Hlt. simpl. apply Nat.ltb_lt in Hc. rewrite Hc.
  rewrite (bind_eq _ _ _ _ _ Hs). apply Z.ltb_lt in Hlt. rewrite Hlt. reflexivity.
Qed.

Lemma getOutPath_loop_advance fuel dir c o w size w' :
  (c < rune_z)%nat ->
  createOrGetSize env (candidate dir c) w = ((size, None), w') ->
  maxSingleDirSize <= size ->
  getOutPath_loop env (S fuel) dir c o w =
    getOutPath_loop env fuel dir (S c) (candidate dir c) w'.
Proof.
  intros Hc Hs Hge. simpl. apply Nat.ltb_lt in Hc. rewrite Hc.
  rewrite (bind_eq _ _ _ _ _ Hs). apply Z.ltb_ge in Hge. rewrite Hge. reflexivity.
Qed.

Lemma getOutPath_loop_error fuel dir c o w size e w' :
  (c < rune_z)%nat ->
  createOrGetSize env (candidate dir c) w = ((size, Some e), w') ->
  getOutPath_loop env (S fuel) dir c o w = ((EmptyString, Some e), w').
Proof.
  intros Hc Hs. simpl. apply Nat.ltb_lt in Hc. rewrite Hc.
  rewrite (bind_eq _ _ _ _ _ Hs). reflexivity.
Qed.

End Allocator.

Lemma quiet_env_ok : quiet env_ok.
Proof. intros ds. reflexivity. Qed.

(** C6: when the first candidate of a bucket is on disk and cached at [S],
    [getOutPath] returns it if [S] is below the threshold of 18 GiB; if not
    it goes on with the next suffix, and when that directory is not on disk
    it is created, counts as size 0 and is returned at once. *)
Theorem getOutPath_threshold env dir w S :
  quiet env ->
  candidate dir rune_a ∈ dirs w ->
  dirSize (dl w) !! candidate dir rune_a = Some S ->
  let a := candidate dir rune_a in
  let b := candidate dir (Datatypes.S rune_a) in
  let w1 := set_trace (trace w ++ [EvExist a; EvLock Lk; EvUnlock Lk]) w in
  let w2 := set_dirs ({[b]} ∪ dirs w)
              (set_trace (trace w ++ [EvExist a; EvLock Lk; EvUnlock Lk;
                                      EvExist b; EvMkdir b]) w) in
  maxSingleDirSize = 18 * 2 ^ 30 ∧
  (S < maxSingleDirSize -> getOutPath env dir w = ((a, None), w1)) ∧
  (maxSingleDirSize <= S ->
     getOutPath env dir w =
       getOutPath_loop env 25 dir (Datatypes.S rune_a) a w1 ∧
     (b ∉ dirs w -> mkdir_err env b = None ->
        createOrGetSize env b w1 = ((0, None), w2) ∧
        getOutPath env dir w = ((b, None), w2))).
Proof.
  intros Hq Hin Hc a b w1 w2.
  pose proof (createOrGetSize_cached env a w S Hin Hc) as Ha.
  split; [reflexivity|]. split.
  - intros Hlt. unfold getOutPath.
    apply (getOutPath_loop_select env _ _ _ _ _ S);
      [unfold rune_a, rune_z; lia | exact Ha | exact Hlt].
  - intros Hge.
    assert (Hadv : getOutPath env dir w =
                   getOutPath_loop env 25 dir (Datatypes.S rune_a) a w1).
    { unfold getOutPath.
      apply (getOutPath_loop_advance env _ _ _ _ _ S);
        [unfold rune_a, rune_z; lia | exact Ha | exact Hge]. }
    split; [exact Hadv|]. intros Hb Hm.
    assert (Hcb : createOrGetSize env b w1 = ((0, None), w2)).
    { rewrite (createOrGetSize_absent env b w1 Hq); [| exact Hb | exact Hm].
      f_equal. apply World_eq; simpl; try reflexivity.
      rewrite <- app_assoc. reflexivity. }
    split; [exact Hcb|]. rewrite Hadv.
    apply (getOutPath_loop_select env _ _ _ _ _ 0);
      [unfold rune_a, rune_z; lia | exact Hcb | reflexivity].
Qed.

Lemma getOutPath_threshold_witness :
  candidate "20240101" rune_a ∈ dirs (world_a (18 * 2 ^ 30)) ∧
  dirSize (dl (world_a (18 * 2 ^ 30))) !! candidate "20240101" rune_a
    = Some (18 * 2 ^ 30) ∧
  (getOutPath env_ok "20240101" (world_a (18 * 2 ^ 30))).1
    = ("/carfile/titan/20240101b", None) ∧
  (getOutPath env_ok "20240101" (world_a (18 * 2 ^ 30 - 1))).1
    = ("/carfile/titan/20240101a", None).
Proof.
  assert (Hin : ∀ sz, candidate "20240101" rune_a ∈ dirs (world_a sz))
    by (intros sz; vm_compute; set_solver).
  assert (Hc : ∀ sz, dirSize (dl (world_a sz)) !! candidate "20240101" rune_a
                     = Some sz) by (intros sz; apply lookup_singleton_eq).
  split; [apply Hin|]. split; [apply Hc|]. split.
  - destruct (getOutPath_threshold env_ok "20240101" (world_a (18 * 2 ^ 30))
                (18 * 2 ^ 30) quiet_env_ok (Hin _) (Hc _)) as (_ & _ & H).
    destruct (H ltac:(vm_compute; discriminate)) as [_ H2].
    destruct H2 as [_ H3]; [vm_compute; set_solver | reflexivity |].
    rewrite H3. reflexivity.
  - destruct (getOutPath_threshold env_ok "20240101" (world_a (18 * 2 ^ 30 - 1))
                (18 * 2 ^ 30 - 1) quiet_env_ok (Hin _) (Hc _)) as (_ & H & _).
    rewrite (H ltac:(vm_compute; reflexivity)). reflexivity.
Defined.

(** When every candidate from rune [c] up to y is on disk and cached at or
    over the threshold, the loop examines them in order and ends on y. *)
Lemma getOutPath_loop_exhausted env dir n : ∀ c fuel o w,
  (c + n = rune_z)%nat -> (n <= fuel)%nat ->
  (∀ k, (c <= k < rune_z)%nat ->
        candidate dir k ∈ dirs w ∧
        ∃ sz, dirSize (dl w) !! candidate dir k = Some sz ∧ maxSingleDirSize <= sz) ->
  getOutPath_loop env (S fuel) dir c o w =
    ((match n with O => o | _ => candidate dir (rune_z - 1) end, None),
     set_trace (trace w ++
                flat_map (fun k => [EvExist (candidate dir k); EvLock Lk; EvUnlock Lk])
                         (seq c n)) w).
Proof.
  induction n as [|n IH]; intros c fuel o w Hc Hf Hall.
  - simpl. replace (c <? rune_z)%nat with false
      by (symmetry; apply Nat.ltb_ge; lia).
    unfold ret. f_equal. apply World_eq; simpl; try reflexivity.
    rewrite app_nil_r. reflexivity.
  - destruct fuel as [|fuel]; [lia|].
    destruct (Hall c ltac:(lia)) as (Hin & sz & Hsz & Hge).
    assert (Hlt : (c < rune_z)%nat) by lia.
    rewrite (getOutPath_loop_advance env (S fuel) dir c o w sz _ Hlt
               (createOrGetSize_cached env _ _ _ Hin Hsz) Hge).
    rewrite IH; [| lia | lia | intros k Hk; apply (Hall k); lia].
    f_equal.
    + f_equal. destruct n; [|reflexivity].
      f_equal. unfold rune_z in *. lia.
    + apply World_eq; simpl; try reflexivity.
      rewrite <- app_assoc. reflexivity.
Qed.

(** For every bucket whose candidates a to y are all at or over the
    threshold, [getOutPath] returns the path of suffix y after 25
    examinations: the loop condition [c < 'z'] leaves suffix z out. *)
Lemma getOutPath_exhausted env dir w :
  (∀ k, (rune_a <= k < rune_z)%nat ->
        candidate dir k ∈ dirs w ∧
        ∃ sz, dirSize (dl w) !! candidate dir k = Some sz ∧ maxSingleDirSize <= sz) ->
  (getOutPath env dir w).1 = (candidate dir 121, None) ∧
  examined (trace (getOutPath env dir w).2) =
    examined (trace w) ++ map (candidate dir) (seq rune_a 25).
Proof.
  intros Hall. unfold getOutPath.
  rewrite (getOutPath_loop_exhausted env dir 25 rune_a 25 EmptyString w);
    [| reflexivity | lia | exact Hall].
  split; [reflexivity|]. simpl. unfold examined. rewrite omap_app. reflexivity.
Qed.

(** C3, on the code: with all 26 directories of a bucket at the threshold,
    [getOutPath] examines the 25 suffixes a to y, never suffix z, and
    returns the path of suffix y. *)
Theorem getOutPath_full_bucket :
  (getOutPath env_ok "20240101" world_full).1 = ("/carfile/titan/20240101y", None) ∧
  examined (trace (getOutPath env_ok "20240101" world_full).2) =
    map (candidate "20240101") (seq rune_a 25) ∧
  length (examined (trace (getOutPath env_ok "20240101" world_full).2)) = 25%nat ∧
  ("/carfile/titan/20240101z"
     ∉ examined (trace (getOutPath env_ok "20240101" world_full).2)) ∧
  ("/carfile/titan/20240101z" ∈ dirs world_full).
Proof.
  split; [vm_compute; reflexivity|].
  split; [vm_compute; reflexivity|].
  split; [vm_compute; reflexivity|].
  split.
  - refine (bool_decide_unpack _ _). vm_compute. exact I.
  - refine (bool_decide_unpack _ _). vm_compute. exact I.
Qed.

(** C8, on the code: when another worker creates the directory between the
    existence test and [os.Mkdir], [createOrGetSize] returns the error of
    [os.Mkdir] and [getOutPath] fails with it; without the other worker the
    same call selects the directory. *)
Theorem getOutPath_mkdir_race :
  (createOrGetSize env_race "/carfile/titan/20240101a" world_empty).1
    = (0, Some "mkdir /carfile/titan/20240101a: file exists") ∧
  (getOutPath env_race "20240101" world_empty).1
    = (EmptyString, Some "mkdir /carfile/titan/20240101a: file exists") ∧
  (getOutPath env_ok "20240101" world_empty).1
    = ("/carfile/titan/20240101a", None).
Proof. repeat split; vm_compute; reflexivity. Qed.

(** ** The download client *)

Section Download.

Variable env : Env.

Lemma request_fails_iff cid x :
  request_fails env cid x = true ↔
  (∃ e, http_do env (endpoint (Address x) cid) = ConnError e) ∨
  (∃ code status body,
      http_do env (endpoint (Address x) cid) = Response code status body ∧
      code ≠ 200).
Proof.
  unfold request_fails, request_result.
  destruct (http_do env (endpoint (Address x) cid)) as [e|code status body].
  - split; [intros _; left; eauto | reflexivity].
  - destruct (Z.eqb_spec code 200) as [->|Hne]; simpl.
    + split; [discriminate|].
      intros [[e He]|(c & s & b & Heq & Hc)]; [discriminate|].
      injection Heq as <- _ _. contradiction.
    + split; [|reflexivity]. intros _. right. eauto.
Qed.

(** Sources whose requests fail are passed over, one request each. *)
Lemma download_loop_failed pre : ∀ rest outPath cid size w,
  forallb (request_fails env cid) pre = true ->
  download_loop env (pre ++ rest) outPath cid size w =
    download_loop env rest outPath cid size
      (set_trace (trace w ++ requests_of cid pre) w).
Proof.
  induction pre as [|x pre IH]; intros rest outPath cid size w Hf.
  - simpl. f_equal. apply World_eq; simpl; try reflexivity.
    rewrite app_nil_r. reflexivity.
  - simpl in Hf. apply andb_prop in Hf as [Hx Hpre].
    unfold request_fails in Hx. simpl. unfold request at 1. prim.
    destruct (request_result env (Address x) cid) as [r|e]; [discriminate|].
    rewrite (IH rest outPath cid size _ Hpre). f_equal.
    apply World_eq; simpl; try reflexivity.
    rewrite <- app_assoc. reflexivity.
Qed.

(** When no request succeeds, the loop ends and [download_loop] returns
    [nil]. *)
Lemma download_loop_all_failed sources outPath cid size w :
  forallb (request_fails env cid) sources = true ->
  download_loop env sources outPath cid size w =
    (None, set_trace (trace w ++ requests_of cid sources) w).
Proof.
  intros Hf. rewrite <- (app_nil_r sources) at 1.
  rewrite (download_loop_failed sources [] outPath cid size w Hf). reflexivity.
Qed.

(** The first source that answers decides the fetch. *)
Lemma download_loop_answer src post outPath cid size w reader :
  request_result env (Address src) cid = inl reader ->
  let file := filepath_Join outPath (cid +:+ ".car") in
  let w1 := set_trace (trace w ++ [EvRequest (endpoint (Address src) cid);
                                   EvCreate file]) w in
  let w2 := set_files (<[file := []]> (files w))
              (set_trace (trace w ++ [EvRequest (endpoint (Address src) cid);
                                      EvCreate file; EvCopy file]) w) in
  let w3 := set_files (<[file := data reader]> (<[file := []]> (files w)))
              (set_trace (trace w ++ [EvRequest (endpoint (Address src) cid);
                                      EvCreate file; EvCopy file]) w) in
  let w4 := set_dl (dirSize_add outPath size (dl w))
              (set_files (<[file := data reader]> (<[file := []]> (files w)))
                 (set_trace (trace w ++ [EvRequest (endpoint (Address src) cid);
                                         EvCreate file; EvCopy file; EvLock Lk;
                                         EvDirSizeAdd outPath size; EvUnlock Lk]) w)) in
  download_loop env (src :: post) outPath cid size w =
    match create_err env file with
    | Some e => (Some e, w1)
    | None =>
        match write_err env file with
        | Some e => (Some e, w2)
        | None =>
            match read_err reader with
            | Some e => (Some e, w3)
            | None => (None, w4)
            end
        end
    end.
Proof.
  intros Hr file w1 w2 w3 w4. simpl. unfold request, os_Create, io_Copy. prim.
  rewrite Hr. fold file.
  destruct (create_err env file) as [e|].
  { f_equal. apply World_eq; simpl; try reflexivity.
    rewrite <- !app_assoc. reflexivity. }
  destruct (write_err env file) as [e|].
  { f_equal. apply World_eq; simpl; try reflexivity.
    rewrite <- !app_assoc. reflexivity. }
  destruct (read_err reader) as [e|].
  { f_equal. apply World_eq; simpl; try reflexivity.
    rewrite <- !app_assoc. reflexivity. }
  f_equal. apply World_eq; simpl; try reflexivity.
  rewrite <- !app_assoc. reflexivity.
Qed.

(** With a source list that is not empty, [download] is its loop. *)
Lemma download_nonempty s outPath cid size w l :
  Api s cid = ({| SourceList := l |}, None) -> l ≠ [] ->
  download env s outPath cid size w =
    download_loop env l outPath cid size
      (set_trace (trace w ++ [EvSourceLookup cid]) w).
Proof.
  intros Hapi Hl. unfold download. prim. rewrite Hapi.
  destruct l as [|x l]; [contradiction|]. reflexivity.
Qed.

(** With an empty source list, [download] fails at once. *)
Lemma download_empty s outPath cid size w :
  Api s cid = ({| SourceList := [] |}, None) ->
  download env s outPath cid size w =
    (Some ("CARFile " +:+ cid +:+ " not found"),
     set_trace (trace w ++ [EvSourceLookup cid]) w).
Proof. intros Hapi. unfold download. prim. rewrite Hapi. reflexivity. Qed.

End Download.

(** C7: when the sources before [src] fail their request (connection error
    or status other than 200) and [src] answers, [download] requests them
    in the order of the list up to [src] and none after it; it returns the
    error of creating or copying the file if there is one, without a
    further request, and [nil] after a copy without error.  When every
    request fails, all the sources are requested in the order of the
    list. *)
Theorem download_failover env s outPath cid size w pre src post reader :
  Api s cid = ({| SourceList := pre ++ src :: post |}, None) ->
  forallb (request_fails env cid) pre = true ->
  request_result env (Address src) cid = inl reader ->
  let file := filepath_Join outPath (cid +:+ ".car") in
  let r := download env s outPath cid size w in
  let tried := trace w ++ [EvSourceLookup cid] ++ requests_of cid (pre ++ [src]) in
  (∀ x, request_fails env cid x = true ↔
        (∃ e, http_do env (endpoint (Address x) cid) = ConnError e) ∨
        (∃ code status body,
            http_do env (endpoint (Address x) cid) = Response code status body ∧
            code ≠ 200)) ∧
  (∀ s' l w', Api s' cid = ({| SourceList := l |}, None) -> l ≠ [] ->
     forallb (request_fails env cid) l = true ->
     trace (download env s' outPath cid size w').2 =
       trace w' ++ [EvSourceLookup cid] ++ requests_of cid l) ∧
  match create_err env file, write_err env file, read_err reader with
  | Some e, _, _ =>
      r.1 = Some e ∧ trace r.2 = tried ++ [EvCreate file]
  | None, Some e, _ =>
      r.1 = Some e ∧ trace r.2 = tried ++ [EvCreate file; EvCopy file]
  | None, None, Some e =>
      r.1 = Some e ∧ trace r.2 = tried ++ [EvCreate file; EvCopy file]
  | None, None, None =>
      r.1 = None ∧
      trace r.2 = tried ++ [EvCreate file; EvCopy file; EvLock Lk;
                            EvDirSizeAdd outPath size; EvUnlock Lk] ∧
      files r.2 !! file = Some (data reader)
  end.
Proof.
  intros Hapi Hpre Hsrc file r tried.
  split; [intros x; apply request_fails_iff|].
  split.
  { intros s' l w' Hapi' Hl Hall.
    rewrite (download_nonempty env s' outPath cid size w' l Hapi' Hl).
    rewrite (download_loop_all_failed env l outPath cid size _ Hall).
    trace_eq. }
  subst r.
  rewrite (download_nonempty env s outPath cid size w _ Hapi)
    by (destruct pre; discriminate).
  rewrite (download_loop_failed env pre (src :: post) outPath cid size _ Hpre).
  rewrite (download_loop_answer env src post outPath cid size _ reader Hsrc).
  fold file. subst tried. unfold requests_of. rewrite map_app.
  destruct (create_err env file) as [e|]; [split; [reflexivity|trace_eq]|].
  destruct (write_err env file) as [e|]; [split; [reflexivity|trace_eq]|].
  destruct (read_err reader) as [e|]; [split; [reflexivity|trace_eq]|].
  split; [reflexivity|]. split; [trace_eq|].
  simpl. apply lookup_insert_eq.
Qed.

Lemma download_failover_witness :
  forallb (request_fails env_node3 "bafy1") [source "node1"; source "node2"] = true ∧
  (download env_node3 (scheduler_of [source "node1"; source "node2"; source "node3"])
     "/carfile/titan/20240101a" "bafy1" 3 world_empty).1 = None ∧
  trace (download env_node3 (scheduler_of [source "node1"; source "node2"; source "node3"])
     "/carfile/titan/20240101a" "bafy1" 3 world_empty).2 =
    [EvSourceLookup "bafy1";
     EvRequest "https://node1/ipfs/bafy1?format=car";
     EvRequest "https://node2/ipfs/bafy1?format=car";
     EvRequest "https://node3/ipfs/bafy1?format=car";
     EvCreate "/carfile/titan/20240101a/bafy1.car";
     EvCopy "/carfile/titan/20240101a/bafy1.car";
     EvLock Lk; EvDirSizeAdd "/carfile/titan/20240101a" 3; EvUnlock Lk].
Proof.
  split; [reflexivity|].
  pose proof (download_failover env_node3
                (scheduler_of [source "node1"; source "node2"; source "node3"])
                "/carfile/titan/20240101a" "bafy1" 3 world_empty
                [source "node1"; source "node2"] (source "node3") []
                {| data := [Byte.x01; Byte.x02; Byte.x03]; read_err := None |}
                eq_refl eq_refl eq_refl) as (_ & _ & H).
  simpl in H. destruct H as (H1 & H2 & _). split; [exact H1 | exact H2].
Defined.

(** C1, on the code: [download] fails with "CARFile ... not found" when the
    source list is empty, but when the list has sources and every request
    fails, the loop ends and [download] returns [nil]: no file is written and
    no error is returned. *)
Theorem download_exhausted_returns_nil :
  (download env_ok (scheduler_of []) "/carfile/titan/20240101a" "bafy1" 3
     world_empty).1 = Some "CARFile bafy1 not found" ∧
  (download env_ok (scheduler_of [source "node1"; source "node2"])
     "/carfile/titan/20240101a" "bafy1" 3 world_empty).1 = None ∧
  trace (download env_ok (scheduler_of [source "node1"; source "node2"])
     "/carfile/titan/20240101a" "bafy1" 3 world_empty).2 =
    [EvSourceLookup "bafy1";
     EvRequest "https://node1/ipfs/bafy1?format=car";
     EvRequest "https://node2/ipfs/bafy1?format=car"] ∧
  files (download env_ok (scheduler_of [source "node1"; source "node2"])
     "/carfile/titan/20240101a" "bafy1" 3 world_empty).2 = ∅.
Proof. repeat split; vm_compute; reflexivity. Qed.

(** ** One job *)

(** C4, on the code: when the directory cannot be created, [create] returns
    without touching the job, and the report that [jobProcess] sends carries
    the event the job came with, not [ErrorEventID]; when the download
    fails, the report carries [ErrorEventID]. *)
Theorem jobProcess_allocation_failure_unmarked :
  (create env_denied 0%nat (world_job [source "node1"] ∅ ∅)).1
    = (None, Some "permission denied") ∧
  reports (trace (jobProcess env_denied 0%nat (world_job [source "node1"] ∅ ∅)).2)
    = [[asset1]] ∧
  Event asset1 ≠ ErrorEventID ∧
  reports (trace (jobProcess env_ok 0%nat (world_job [] ∅ ∅)).2)
    = [[set_Event ErrorEventID asset1]].
Proof.
  split; [vm_compute; reflexivity|].
  split; [vm_compute; reflexivity|].
  split; [discriminate|].
  vm_compute; reflexivity.
Qed.

Lemma getOutPath_first env dir w S :
  candidate dir rune_a ∈ dirs w ->
  dirSize (dl w) !! candidate dir rune_a = Some S ->
  S < maxSingleDirSize ->
  getOutPath env dir w =
    ((candidate dir rune_a, None),
     set_trace (trace w ++ [EvExist (candidate dir rune_a); EvLock Lk; EvUnlock Lk]) w).
Proof.
  intros Hin Hc Hlt. unfold getOutPath.
  apply (getOutPath_loop_select env _ _ _ _ _ S);
    [unfold rune_a, rune_z; lia | apply createOrGetSize_cached; assumption | exact Hlt].
Qed.


(** C2: a job whose content id is in [downloading] ends in its first
    critical section: the world is as before (no directory, no file, no
    report, the entry still in the set) but for the trace of that section;
    a job whose content id is not there inserts it between the same
    [Lock] and [Unlock] as the test, and goes on from that world. *)
Theorem jobProcess_dedup env asset w :
  let cid := Cid (heap w !!! asset) in
  (cid ∈ downloading (dl w) ->
     jobProcess env asset w =
       (tt, set_trace (trace w ++ [EvLock Dlk; EvInFlightTest cid true;
                                   EvUnlock Dlk]) w) ∧
     cid ∈ downloading (dl (jobProcess env asset w).2) ∧
     dirs (jobProcess env asset w).2 = dirs w ∧
     files (jobProcess env asset w).2 = files w ∧
     reports (trace (jobProcess env asset w).2) = reports (trace w)) ∧
  (cid ∉ downloading (dl w) ->
     let w1 := set_dl (set_downloading ({[cid]} ∪ downloading (dl w)) (dl w))
                 (set_trace (trace w ++ [EvLock Dlk; EvInFlightTest cid false;
                                         EvInFlightInsert cid; EvUnlock Dlk]) w) in
     jobProcess_enter asset w = (true, w1) ∧
     cid ∈ downloading (dl w1) ∧
     jobProcess env asset w =
       (jobProcess_work env asset >> jobProcess_exit asset) w1).
Proof.
  intros cid. split.
  - intros Hin.
    assert (He : jobProcess env asset w =
                 (tt, set_trace (trace w ++ [EvLock Dlk; EvInFlightTest cid true;
                                             EvUnlock Dlk]) w)).
    { unfold jobProcess, jobProcess_enter. prim. simpl. fold cid.
      rewrite bool_decide_eq_true_2 by exact Hin.
      f_equal. apply World_eq; simpl; try reflexivity. trace_eq. }
    rewrite He. split; [reflexivity|]. split; [exact Hin|].
    split; [reflexivity|]. split; [reflexivity|].
    simpl. unfold reports. rewrite omap_app. simpl. apply app_nil_r.
  - intros Hnin w1.
    assert (He : jobProcess_enter asset w = (true, w1)).
    { unfold jobProcess_enter. prim. simpl. fold cid.
      rewrite bool_decide_eq_false_2 by exact Hnin.
      f_equal. apply World_eq; simpl; try reflexivity. trace_eq. }
    split; [exact He|]. split; [simpl; set_solver|].
    unfold jobProcess. rewrite (bind_eq _ _ _ _ _ He). reflexivity.
Qed.

Lemma jobProcess_dedup_witness :
  "bafy1" ∈ downloading (dl world_busy) ∧
  jobProcess env_node3 0%nat world_busy =
    (tt, set_trace [EvLock Dlk; EvInFlightTest "bafy1" true; EvUnlock Dlk] world_busy) ∧
  ("bafy1" ∉ downloading (dl (world_job [source "node3"] ∅ ∅))) ∧
  (jobProcess_enter 0%nat (world_job [source "node3"] ∅ ∅)).1 = true.
Proof.
  assert (H1 : "bafy1" ∈ downloading (dl world_busy)) by (vm_compute; set_solver).
  assert (H2 : "bafy1" ∉ downloading (dl (world_job [source "node3"] ∅ ∅)))
    by (vm_compute; set_solver).
  split; [exact H1|]. split.
  - destruct (jobProcess_dedup env_node3 0%nat world_busy) as [H _].
    destruct (H H1) as [He _]. exact He.
  - split; [exact H2|].
    destruct (jobProcess_dedup env_node3 0%nat (world_job [source "node3"] ∅ ∅))
      as [_ H].
    destruct (H H2) as [He _]. rewrite He. reflexivity.
Defined.

(** ** What the programs leave alone *)

Section Keeps.

Variable R : World -> World -> Prop.
Hypothesis R_refl : ∀ w, R w w.
Hypothesis R_trans : ∀ w1 w2 w3, R w1 w2 -> R w2 w3 -> R w1 w3.

Lemma keeps_ret {A} (a : A) : keeps R (ret a).
Proof. intros w. apply R_refl. Qed.

Lemma keeps_bind {A B} (m : M A) (k : A -> M B) :
  keeps R m -> (∀ a, keeps R (k a)) -> keeps R (bind m k).
Proof.
  intros Hm Hk w. unfold bind. specialize (Hm w).
  destruct (m w) as [a w']. simpl in Hm.
  apply (R_trans _ _ _ Hm). apply Hk.
Qed.

Lemma keeps_gets {A} (f : World -> A) : keeps R (gets f).
Proof. intros w. apply R_refl. Qed.

Lemma keeps_modify (f : World -> World) :
  (∀ w, R w (f w)) -> keeps R (modify f).
Proof. intros Hf w. apply Hf. Qed.

Lemma keeps_emit (e : Ev) :
  (∀ w, R w (set_trace (trace w ++ [e]) w)) -> keeps R (emit e).
Proof. intros He w. apply He. Qed.

End Keeps.

Lemma same_control_refl w : same_control w w.
Proof. repeat split. Qed.

Lemma same_control_trans w1 w2 w3 :
  same_control w1 w2 -> same_control w2 w3 -> same_control w1 w3.
Proof.
  intros (A1 & A2 & A3 & A4) (B1 & B2 & B3 & B4).
  repeat split; etransitivity; eassumption.
Qed.

Lemma same_queues_refl w : same_queues w w.
Proof. repeat split. Qed.

Lemma same_queues_trans w1 w2 w3 :
  same_queues w1 w2 -> same_queues w2 w3 -> same_queues w1 w3.
Proof.
  intros (A1 & A2 & A3) (B1 & B2 & B3).
  repeat split; etransitivity; eassumption.
Qed.

Lemma same_control_queues w w' : same_control w w' -> same_queues w w'.
Proof. intros (A1 & A2 & A3 & _). repeat split; assumption. Qed.

(** One step of a proof that a program keeps [same_control]. *)
Ltac keeps_step :=
  match goal with
  | |- keeps _ (ret _) => apply (keeps_ret _ same_control_refl)
  | |- keeps _ (gets _) => apply (keeps_gets _ same_control_refl)
  | |- keeps _ (modify _) =>
      apply (keeps_modify same_control); intros ?; repeat split
  | |- keeps _ (emit _) =>
      apply (keeps_emit same_control); intros ?; repeat split
  | |- keeps _ (bind _ _) =>
      apply (keeps_bind _ same_control_trans); [|intros ?]
  | |- keeps _ (match ?x with _ => _ end) => destruct x
  end.

Ltac keeps_control :=
  cbv [modify_dl Lock Unlock load store yield]; repeat keeps_step.

Section Frames.

Variable env : Env.

Lemma createOrGetSize_keeps dir : keeps same_control (createOrGetSize env dir).
Proof. unfold createOrGetSize, fileutil_Exist, os_Mkdir, getDirSize. keeps_control. Qed.

Lemma getOutPath_loop_keeps fuel : ∀ dir c o,
  keeps same_control (getOutPath_loop env fuel dir c o).
Proof.
  induction fuel as [|fuel IH]; intros dir c o; simpl.
  - keeps_control.
  - destruct (c <? rune_z)%nat; [|keeps_control].
    apply (keeps_bind _ same_control_trans); [apply createOrGetSize_keeps|].
    intros [size [e|]]; [keeps_control|].
    destruct (size <? maxSingleDirSize); [keeps_control|apply IH].
Qed.

Lemma download_loop_keeps sources : ∀ outPath cid size,
  keeps same_control (download_loop env sources outPath cid size).
Proof.
  induction sources as [|x sources IH]; intros outPath cid size; simpl.
  - keeps_control.
  - unfold request, os_Create, io_Copy.
    apply (keeps_bind _ same_control_trans); [keeps_control|].
    intros [reader|e]; [|apply IH]. keeps_control.
Qed.

Lemma download_keeps s outPath cid size :
  keeps same_control (download env s outPath cid size).
Proof.
  unfold download.
  apply (keeps_bind _ same_control_trans); [keeps_control|]. intros _.
  destruct (Api s cid) as [infos [e|]]; [keeps_control|].
  destruct (length (SourceList infos) =? 0)%nat; [keeps_control|].
  apply download_loop_keeps.
Qed.

Lemma create_keeps job : keeps same_control (create env job).
Proof.
  unfold create.
  apply (keeps_bind _ same_control_trans); [keeps_control|]. intros a.
  apply (keeps_bind _ same_control_trans); [apply getOutPath_loop_keeps|].
  intros [outPath [e|]]; [keeps_control|].
  apply (keeps_bind _ same_control_trans); [keeps_control|]. intros d.
  destruct (find _ _) as [s|]; [|keeps_control].
  apply (keeps_bind _ same_control_trans); [keeps_control|]. intros a'.
  apply (keeps_bind _ same_control_trans); [apply download_keeps|].
  intros [e|]; keeps_control.
Qed.

Lemma jobProcess_enter_keeps asset : keeps same_control (jobProcess_enter asset).
Proof. unfold jobProcess_enter. keeps_control. Qed.

Lemma jobProcess_work_keeps asset : keeps same_control (jobProcess_work env asset).
Proof.
  unfold jobProcess_work, pushResult.
  apply (keeps_bind _ same_control_trans); [apply create_keeps|]. intros _.
  keeps_control.
Qed.

Lemma jobProcess_exit_keeps asset : keeps same_control (jobProcess_exit asset).
Proof. unfold jobProcess_exit. keeps_control. Qed.

End Frames.

(** ** The pool of workers *)

Lemma pool_inv_boot scheds tok area N ds : pool_inv N (boot scheds tok area N ds).
Proof.
  split; [reflexivity | | reflexivity].
  unfold slots, boot, all_workers. simpl. rewrite app_nil_r. reflexivity.
Qed.

Lemma pool_inv_world N s w :
  same_queues (world s) w -> pool_inv N s -> pool_inv N (set_world w s).
Proof.
  intros (H1 & H2 & H3) [I1 I2 I3]. split.
  - simpl. rewrite H3. exact I1.
  - unfold slots in *. simpl. rewrite H2. exact I2.
  - simpl. rewrite H1. exact I3.
Qed.

Lemma pool_inv_pc N s i g pc :
  workers s !! i = Some g -> pool_inv N s ->
  pool_inv N (set_workers (<[i := set_pc pc g]> (workers s)) s).
Proof.
  intros Hi [I1 I2 I3]. split; [exact I1 | | exact I3].
  unfold slots in *. simpl. rewrite list_fmap_insert. simpl.
  rewrite list_insert_id; [exact I2|].
  rewrite list_lookup_fmap, Hi. reflexivity.
Qed.

Section Pool.

Variable env : Env.

Lemma alloc_keeps_control assets : keeps same_control (alloc assets).
Proof.
  induction assets as [|a assets IH]; simpl; [keeps_control|].
  apply (keeps_bind _ same_control_trans); [keeps_control|]. intros p.
  apply (keeps_bind _ same_control_trans); [keeps_control|]. intros _.
  apply (keeps_bind _ same_control_trans); [exact IH|]. intros ps.
  keeps_control.
Qed.

Lemma alloc_keeps assets : keeps same_queues (alloc assets).
Proof. intros w. apply same_control_queues, alloc_keeps_control. Qed.

Lemma alloc_length assets : ∀ w, length (alloc assets w).1 = length assets.
Proof.
  induction assets as [|x assets IH]; intros w; [reflexivity|].
  simpl. prim.
  specialize (IH (set_heap (<[fresh (dom (heap w)) := x]> (heap w)) w)).
  destruct (alloc assets _) as [ps w']. simpl in *. f_equal. exact IH.
Qed.

Lemma async_tick_keeps fetched : keeps same_queues (async_tick fetched).
Proof.
  unfold async_tick.
  apply (keeps_bind _ same_queues_trans);
    [apply (keeps_gets _ same_queues_refl)|]. intros r.
  destruct r; [apply (keeps_ret _ same_queues_refl)|].
  apply (keeps_bind _ same_queues_trans);
    [apply (keeps_modify same_queues); intros ?; repeat split|]. intros _.
  apply (keeps_bind _ same_queues_trans);
    [apply (keeps_emit same_queues); intros ?; repeat split|]. intros _.
  destruct fetched as [assets [e|]]; [apply (keeps_ret _ same_queues_refl)|].
  apply (keeps_bind _ same_queues_trans); [apply alloc_keeps|]. intros jobs.
  destruct (length jobs =? 0)%nat; [|apply (keeps_ret _ same_queues_refl)].
  apply (keeps_bind _ same_queues_trans);
    [apply (keeps_modify same_queues); intros ?; repeat split|]. intros _.
  apply (keeps_ret _ same_queues_refl).
Qed.

Lemma pool_inv_job N i s s' :
  pool_inv N s -> exec_job env i s = Some s' -> pool_inv N s'.
Proof.
  intros Hinv. unfold exec_job.
  destruct (workers s !! i) as [g|] eqn:Hi; [|discriminate].
  destruct (g_pc g) eqn:Hpc.
  - pose proof (jobProcess_enter_keeps (g_asset g) (world s)) as Hk.
    destruct (jobProcess_enter (g_asset g) (world s)) as [go w].
    intros [= <-]. apply pool_inv_world.
    + apply same_control_queues. exact Hk.
    + apply pool_inv_pc; assumption.
  - pose proof (jobProcess_work_keeps env (g_asset g) (world s)) as Hk.
    destruct (jobProcess_work env (g_asset g) (world s)) as [u w].
    intros [= <-]. apply pool_inv_world.
    + apply same_control_queues. exact Hk.
    + apply pool_inv_pc; assumption.
  - pose proof (jobProcess_exit_keeps (g_asset g) (world s)) as Hk.
    destruct (jobProcess_exit (g_asset g) (world s)) as [u w].
    intros [= <-]. apply pool_inv_world.
    + apply same_control_queues. exact Hk.
    + apply pool_inv_pc; assumption.
  - destruct (_ <? _); [|discriminate]. intros [= <-].
    destruct Hinv as [I1 I2 I3]. split; [exact I1 | | exact I3].
    unfold slots in *. simpl. rewrite <- I2.
    rewrite <- (take_drop_middle (workers s) i g Hi) at 2.
    rewrite delete_take_drop, !fmap_app. simpl.
    rewrite <- !app_assoc. apply Permutation_app_head.
    rewrite (Permutation_app_comm [g_wrk g]), <- app_assoc.
    apply Permutation_app_head, Permutation_app_comm.
Qed.

Lemma pool_inv_step N l s s' :
  pool_inv N s -> exec env l s = Some s' -> pool_inv N s'.
Proof.
  intros Hinv. destruct l as [fetched| | | |i]; simpl.
  - destruct (poller s); [|discriminate].
    pose proof (async_tick_keeps fetched (world s)) as (H1 & H2 & H3).
    destruct (async_tick fetched (world s)) as [pc w]. simpl in *.
    intros [= <-]. destruct Hinv as [I1 I2 I3]. split; simpl.
    + rewrite H3. exact I1.
    + unfold slots in *. simpl. rewrite H2. exact I2.
    + unfold held in *. simpl. rewrite H1. exact I3.
  - destruct (poller s) as [|jobs]; [discriminate|].
    destruct Hinv as [I1 I2 I3]. destruct jobs as [|j jobs]; simpl.
    + intros [= <-]. split; simpl; [exact I1 | exact I2 |].
      unfold held in *. simpl. rewrite app_nil_r. exact I3.
    + unfold bind, gets. destruct (_ <? _)%nat; [|discriminate].
      simpl. intros [= <-]. split; simpl; [exact I1 | exact I2 |].
      unfold held in *. simpl. rewrite I3, <- !app_assoc. reflexivity.
  - destruct (dispatcher s) eqn:Hd; [|discriminate].
    destruct (JobQueue (dl (world s))) as [|asset q] eqn:Hq; [discriminate|].
    intros [= <-]. destruct Hinv as [I1 I2 I3]. split; simpl; [exact I1 | exact I2 |].
    unfold held in *. rewrite Hd, Hq in I3. simpl. exact I3.
  - destruct (dispatcher s) as [|asset] eqn:Hd; [discriminate|].
    destruct (downWorkerQueue (dl (world s))) as [|wrk q] eqn:Hq; [discriminate|].
    intros [= <-]. destruct Hinv as [I1 I2 I3]. split; simpl; [exact I1 | |].
    + unfold slots in *. simpl. rewrite Hq in I2. rewrite <- I2.
      rewrite fmap_app. simpl.
      rewrite (Permutation_app_comm (g_wrk <$> workers s)). simpl.
      symmetry. apply Permutation_middle.
    + unfold held in *. rewrite Hd in I3. simpl in *.
      rewrite I3, <- app_assoc. reflexivity.
  - apply pool_inv_job. exact Hinv.
Qed.

Lemma pool_inv_execs N ls : ∀ s s',
  pool_inv N s -> execs env ls s = Some s' -> pool_inv N s'.
Proof.
  induction ls as [|l ls IH]; intros s s' Hinv; simpl.
  - intros [= <-]. exact Hinv.
  - destruct (exec env l s) as [s1|] eqn:Hs; [|discriminate].
    apply IH. apply (pool_inv_step N l s); assumption.
Qed.

End Pool.

Lemma extends_refl w : extends w w.
Proof. exists []. symmetry. apply app_nil_r. Qed.

Lemma extends_trans w1 w2 w3 : extends w1 w2 -> extends w2 w3 -> extends w1 w3.
Proof.
  intros [t1 H1] [t2 H2]. exists (t1 ++ t2). rewrite H2, H1. apply eq_sym, app_assoc.
Qed.

Ltac extends_step :=
  match goal with
  | |- keeps _ (ret _) => apply (keeps_ret _ extends_refl)
  | |- keeps _ (gets _) => apply (keeps_gets _ extends_refl)
  | |- keeps _ (modify _) =>
      apply (keeps_modify extends); intros ?; exists [];
      symmetry; apply app_nil_r
  | |- keeps _ (emit ?e) =>
      apply (keeps_emit extends); intros ?; exists [e]; reflexivity
  | |- keeps _ (bind _ _) =>
      apply (keeps_bind _ extends_trans); [|intros ?]
  | |- keeps _ (match ?x with _ => _ end) => destruct x
  end.

Ltac keeps_trace :=
  cbv [modify_dl Lock Unlock load store yield]; repeat extends_step.

Section Traces.

Variable env : Env.

Lemma getOutPath_loop_extends fuel : ∀ dir c o,
  keeps extends (getOutPath_loop env fuel dir c o).
Proof.
  induction fuel as [|fuel IH]; intros dir c o; simpl.
  - keeps_trace.
  - destruct (c <? rune_z)%nat; [|keeps_trace].
    apply (keeps_bind _ extends_trans).
    + unfold createOrGetSize, fileutil_Exist, os_Mkdir, getDirSize. keeps_trace.
    + intros [size [e|]]; [keeps_trace|].
      destruct (size <? maxSingleDirSize); [keeps_trace|apply IH].
Qed.

Lemma download_loop_extends sources : ∀ outPath cid size,
  keeps extends (download_loop env sources outPath cid size).
Proof.
  induction sources as [|x sources IH]; intros outPath cid size; simpl.
  - keeps_trace.
  - unfold request, os_Create, io_Copy.
    apply (keeps_bind _ extends_trans); [keeps_trace|].
    intros [reader|e]; [|apply IH]. keeps_trace.
Qed.

Lemma create_extends job : keeps extends (create env job).
Proof.
  unfold create.
  apply (keeps_bind _ extends_trans); [keeps_trace|]. intros a.
  apply (keeps_bind _ extends_trans); [apply getOutPath_loop_extends|].
  intros [outPath [e|]]; [keeps_trace|].
  apply (keeps_bind _ extends_trans); [keeps_trace|]. intros d.
  destruct (find _ _) as [s|]; [|keeps_trace].
  apply (keeps_bind _ extends_trans); [keeps_trace|]. intros a'.
  apply (keeps_bind _ extends_trans).
  - unfold download.
    apply (keeps_bind _ extends_trans); [keeps_trace|]. intros _.
    destruct (Api s _) as [infos [e|]]; [keeps_trace|].
    destruct (length (SourceList infos) =? 0)%nat; [keeps_trace|].
    apply download_loop_extends.
  - intros [e|]; keeps_trace.
Qed.

(** Whatever [d.create] does, [jobProcess_work] ends with the report of the
    job and the sleep. *)
Lemma jobProcess_work_reports asset w :
  ∃ tr, trace (jobProcess_work env asset w).2 =
        trace w ++ tr ++
        [EvPushResult [heap (create env asset w).2 !!! asset]; EvSleep].
Proof.
  unfold jobProcess_work, pushResult. unfold bind at 1.
  destruct (create_extends asset w) as [tr Htr].
  destruct (create env asset w) as [r w1]. simpl in Htr.
  exists tr. prim. simpl. rewrite Htr. trace_eq.
Qed.

End Traces.

Section Lifecycle.

Variable env : Env.

Lemma jobProcess_enter_skips asset w :
  (jobProcess_enter asset w).1 = false ->
  Cid (heap w !!! asset) ∈ downloading (dl w).
Proof.
  unfold jobProcess_enter. prim. simpl.
  destruct (bool_decide_reflect (Cid (heap w !!! asset) ∈ downloading (dl w)))
    as [Hin|Hnin]; [intros _; exact Hin | discriminate].
Qed.

(** The steps of a goroutine: the worker goes back to the pool in the last
    one only, when [jobFunc()] has returned. *)
Lemma exec_job_lifecycle i g s s' :
  workers s !! i = Some g -> exec_job env i s = Some s' ->
  match g_pc g with
  | GStart =>
      downWorkerQueue (dl (world s')) = downWorkerQueue (dl (world s)) ∧
      (workers s' !! i = Some (set_pc GWorking g) ∨
       workers s' !! i = Some (set_pc GDone g) ∧
       Cid (heap (world s) !!! g_asset g) ∈ downloading (dl (world s)))
  | GWorking =>
      downWorkerQueue (dl (world s')) = downWorkerQueue (dl (world s)) ∧
      workers s' !! i = Some (set_pc GSettled g) ∧
      ∃ tr rep, trace (world s') =
                trace (world s) ++ tr ++ [EvPushResult [rep]; EvSleep]
  | GSettled =>
      downWorkerQueue (dl (world s')) = downWorkerQueue (dl (world s)) ∧
      workers s' !! i = Some (set_pc GDone g)
  | GDone =>
      downWorkerQueue (dl (world s')) = downWorkerQueue (dl (world s)) ++ [g_wrk g] ∧
      workers s' = delete i (workers s)
  end.
Proof.
  intros Hi. pose proof (lookup_lt_Some _ _ _ Hi) as Hlt.
  unfold exec_job. rewrite Hi. destruct (g_pc g) eqn:Hpc.
  - pose proof (jobProcess_enter_keeps (g_asset g) (world s)) as (_ & Hk & _).
    pose proof (jobProcess_enter_skips (g_asset g) (world s)) as Hskip.
    destruct (jobProcess_enter (g_asset g) (world s)) as [go w]. simpl in *.
    intros [= <-]. simpl. split; [exact Hk|].
    rewrite list_lookup_insert_eq by exact Hlt.
    destruct go; [left; reflexivity | right; split; [reflexivity | auto]].
  - pose proof (jobProcess_work_keeps env (g_asset g) (world s)) as (_ & Hk & _).
    destruct (jobProcess_work_reports env (g_asset g) (world s)) as [tr Htr].
    destruct (jobProcess_work env (g_asset g) (world s)) as [u w]. simpl in *.
    intros [= <-]. simpl. split; [exact Hk|].
    rewrite list_lookup_insert_eq by exact Hlt. split; [reflexivity|].
    eauto.
  - pose proof (jobProcess_exit_keeps (g_asset g) (world s)) as (_ & Hk & _).
    destruct (jobProcess_exit (g_asset g) (world s)) as [u w]. simpl in *.
    intros [= <-]. simpl. split; [exact Hk|].
    rewrite list_lookup_insert_eq by exact Hlt. reflexivity.
  - destruct (_ <? _); [|discriminate]. intros [= <-]. simpl. split; reflexivity.
Qed.

(** The poller and the dispatcher never put a worker into the pool. *)
Lemma exec_other_no_return l s s' :
  exec env l s = Some s' -> (∀ i, l ≠ LJob i) ->
  (length (downWorkerQueue (dl (world s'))) <=
   length (downWorkerQueue (dl (world s))))%nat.
Proof.
  destruct l as [fetched| | | |i]; simpl; intros Hex Hl.
  - destruct (poller s); [|discriminate].
    pose proof (async_tick_keeps fetched (world s)) as (_ & H2 & _).
    destruct (async_tick fetched (world s)) as [pc w]. simpl in *.
    injection Hex as <-. simpl. rewrite H2. lia.
  - destruct (poller s) as [|jobs]; [discriminate|].
    destruct jobs as [|j jobs]; simpl in Hex.
    + injection Hex as <-. simpl. lia.
    + unfold bind, gets in Hex. destruct (_ <? _)%nat; [|discriminate].
      simpl in Hex. injection Hex as <-. simpl. lia.
  - destruct (dispatcher s); [|discriminate].
    destruct (JobQueue (dl (world s))); [discriminate|].
    injection Hex as <-. simpl. lia.
  - destruct (dispatcher s); [discriminate|].
    destruct (downWorkerQueue (dl (world s))) as [|wrk q]; [discriminate|].
    injection Hex as <-. simpl. lia.
  - exfalso. apply (Hl i). reflexivity.
Qed.

End Lifecycle.

Lemma all_workers_NoDup N : NoDup (all_workers N).
Proof.
  unfold all_workers. apply NoDup_fmap_2; [|apply NoDup_seq].
  intros i j [= H]. lia.
Qed.

Lemma all_workers_length N : length (all_workers N) = Z.to_nat N.
Proof. unfold all_workers. rewrite length_map, length_seq. reflexivity. Qed.


(** ** The poller *)

Section Poller.

Variable env : Env.

Lemma exec_job_control i s s' :
  exec_job env i s = Some s' ->
  running (dl (world s')) = running (dl (world s)) ∧
  poller s' = poller s ∧ enqueued s' = enqueued s.
Proof.
  unfold exec_job. destruct (workers s !! i) as [g|]; [|discriminate].
  destruct (g_pc g).
  - pose proof (jobProcess_enter_keeps (g_asset g) (world s)) as (_ & _ & _ & Hk).
    destruct (jobProcess_enter (g_asset g) (world s)) as [go w]. simpl in *.
    intros [= <-]. simpl. auto.
  - pose proof (jobProcess_work_keeps env (g_asset g) (world s)) as (_ & _ & _ & Hk).
    destruct (jobProcess_work env (g_asset g) (world s)) as [u w]. simpl in *.
    intros [= <-]. simpl. auto.
  - pose proof (jobProcess_exit_keeps (g_asset g) (world s)) as (_ & _ & _ & Hk).
    destruct (jobProcess_exit (g_asset g) (world s)) as [u w]. simpl in *.
    intros [= <-]. simpl. auto.
  - destruct (_ <? _); [|discriminate]. intros [= <-]. simpl. auto.
Qed.

(** A tick while the flag is set changes nothing. *)
Lemma exec_tick_skipped fetched s :
  stuck s -> exec env (LTick fetched) s = Some s.
Proof.
  intros [Hr Hp]. simpl. rewrite Hp. unfold async_tick, bind, gets. rewrite Hr.
  unfold ret. f_equal. destruct s; simpl in *. subst. reflexivity.
Qed.

Lemma stuck_step l s s' :
  stuck s -> exec env l s = Some s' -> stuck s' ∧ enqueued s' = enqueued s.
Proof.
  intros Hst. pose proof Hst as [Hr Hp].
  destruct l as [fetched| | | |i]; simpl.
  - pose proof (exec_tick_skipped fetched s Hst) as Ht. simpl in Ht.
    rewrite Ht. intros [= <-]. auto.
  - rewrite Hp. discriminate.
  - destruct (dispatcher s); [|discriminate].
    destruct (JobQueue (dl (world s))); [discriminate|].
    intros [= <-]. split; [split; assumption | reflexivity].
  - destruct (dispatcher s); [discriminate|].
    destruct (downWorkerQueue (dl (world s))); [discriminate|].
    intros [= <-]. split; [split; assumption | reflexivity].
  - intros Hj. destruct (exec_job_control i s s' Hj) as (H1 & H2 & H3).
    split; [split; congruence | exact H3].
Qed.

Lemma stuck_execs ls : ∀ s s',
  stuck s -> execs env ls s = Some s' -> stuck s' ∧ enqueued s' = enqueued s.
Proof.
  induction ls as [|l ls IH]; intros s s' Hst; simpl.
  - intros [= <-]. auto.
  - destruct (exec env l s) as [s1|] eqn:Hs; [|discriminate]. intros Hrest.
    destruct (stuck_step l s s1 Hst Hs) as [Hst1 He1].
    destruct (IH s1 s' Hst1 Hrest) as [Hst' He']. split; [exact Hst' | congruence].
Qed.

(** The flag goes from set to clear only at the end of [Push]. *)
Lemma running_cleared l s s' :
  exec env l s = Some s' ->
  running (dl (world s)) = true -> running (dl (world s')) = false ->
  l = LPush ∧ poller s = PPush [].
Proof.
  destruct l as [fetched| | | |i]; simpl; intros Hex Hr Hr'.
  - destruct (poller s); [|discriminate].
    unfold async_tick, bind, gets in Hex. rewrite Hr in Hex.
    injection Hex as <-. simpl in Hr'. congruence.
  - destruct (poller s) as [|jobs]; [discriminate|].
    destruct jobs as [|j jobs]; [auto|]. simpl in Hex.
    unfold bind, gets in Hex. destruct (_ <? _)%nat; [|discriminate].
    simpl in Hex. injection Hex as <-. simpl in Hr'. congruence.
  - destruct (dispatcher s); [|discriminate].
    destruct (JobQueue (dl (world s))); [discriminate|].
    injection Hex as <-. simpl in Hr'. congruence.
  - destruct (dispatcher s); [discriminate|].
    destruct (downWorkerQueue (dl (world s))); [discriminate|].
    injection Hex as <-. simpl in Hr'. congruence.
  - destruct (exec_job_control i s s' Hex) as (H1 & _). congruence.
Qed.

End Poller.

(** C10: a tick whose [getJobs] fails leaves [running] set.  From then on,
    whatever the goroutines do, the flag stays set, every tick is skipped
    without a call of [getJobs] or any other change, [Push] never runs, and
    no job is sent on [JobQueue] any more.  A tick that finds [running]
    clear clears it again only when the fetch succeeds with no job; after a
    fetch with jobs it is [Push] that clears it, after its last send; and
    no other step takes the flag from set to clear. *)
Theorem poller_stuck_after_error env s assets e :
  poller s = PTicker -> running (dl (world s)) = false ->
  ∃ s1, exec env (LTick (assets, Some e)) s = Some s1 ∧
    running (dl (world s1)) = true ∧
    trace (world s1) = trace (world s) ++ [EvGetJobs] ∧
    (∀ ls s2, execs env ls s1 = Some s2 ->
       running (dl (world s2)) = true ∧ poller s2 = PTicker ∧
       enqueued s2 = enqueued s1 ∧
       (∀ fetched, exec env (LTick fetched) s2 = Some s2) ∧
       exec env LPush s2 = None) ∧
    (∃ s0, exec env (LTick ([], None)) s = Some s0 ∧
           running (dl (world s0)) = false ∧ poller s0 = PTicker) ∧
    (∀ a l, ∃ s0 jobs, exec env (LTick (a :: l, None)) s = Some s0 ∧
           running (dl (world s0)) = true ∧ poller s0 = PPush jobs ∧
           length jobs = length (a :: l)) ∧
    (∀ l t t', exec env l t = Some t' ->
       running (dl (world t)) = true -> running (dl (world t')) = false ->
       l = LPush ∧ poller t = PPush []).
Proof.
  intros Hp Hr. simpl. rewrite Hp.
  unfold async_tick at 1. unfold bind at 1. unfold gets at 1. rewrite Hr.
  cbv [bind modify_dl modify emit ret]. eexists. split; [reflexivity|]. simpl.
  split; [reflexivity|]. split; [reflexivity|]. split; [|split; [|split]].
  - intros ls s2 Hex.
    match type of Hex with
    | execs _ _ ?s1 = _ => assert (Hst1 : stuck s1) by (split; reflexivity)
    end.
    destruct (stuck_execs env ls _ s2 Hst1 Hex) as [Hst He].
    pose proof Hst as [H1 H2].
    split; [exact H1|]. split; [exact H2|]. split; [exact He|].
    split; [intros fetched; apply (exec_tick_skipped env); exact Hst|].
    simpl. rewrite H2. reflexivity.
  - unfold async_tick, bind, gets. rewrite Hr. simpl.
    eexists. split; [reflexivity|]. split; reflexivity.
  - intros a l. unfold async_tick, bind, gets. rewrite Hr.
    cbv [modify_dl modify emit ret].
    match goal with
    | |- context [alloc (a :: l) ?w] =>
        pose proof (alloc_keeps_control (a :: l) w) as (_ & _ & _ & Hk);
        pose proof (alloc_length (a :: l) w) as Hlen;
        destruct (alloc (a :: l) w) as [jobs w']
    end.
    simpl in Hlen, Hk.
    destruct jobs as [|j jobs]; [simpl in Hlen; discriminate|].
    simpl. eexists. eexists. split; [reflexivity|]. simpl.
    split; [exact Hk | split; [reflexivity | exact Hlen]].
  - intros l t t'. apply (running_cleared env).
Qed.

Lemma poller_stuck_after_error_witness :
  poller boot1 = PTicker ∧ running (dl (world boot1)) = false ∧
  ∃ s1, exec env_node3 (LTick ([asset1], Some "status: 500 Internal Server Error"))
          boot1 = Some s1 ∧
        running (dl (world s1)) = true ∧
        exec env_node3 (LTick ([asset1], None)) s1 = Some s1.
Proof.
  assert (Hp : poller boot1 = PTicker) by reflexivity.
  assert (Hr : running (dl (world boot1)) = false) by (vm_compute; reflexivity).
  split; [exact Hp|]. split; [exact Hr|].
  destruct (poller_stuck_after_error env_node3 boot1 [asset1]
              "status: 500 Internal Server Error" Hp Hr)
    as (s1 & H1 & H2 & _ & H4 & _).
  exists s1. split; [exact H1|]. split; [exact H2|].
  destruct (H4 [] s1 eq_refl) as (_ & _ & _ & H5 & _). apply H5.
Defined.

(** * More properties of the engine *)

(** ** Schedulers *)

Lemma GetScheduler_loop_find l area :
  GetScheduler_loop l area = List.find (fun sd => String.eqb (AreaId sd) area) l.
Proof.
  induction l as [|s l IH]; simpl; [reflexivity|].
  destruct (String.eqb (AreaId s) area); [reflexivity | exact IH].
Qed.

Lemma GetScheduler_loop_Some l area s :
  GetScheduler_loop l area = Some s ↔
  ∃ pre post, l = pre ++ s :: post ∧ AreaId s = area ∧
              Forall (fun x => AreaId x ≠ area) pre.
Proof.
  induction l as [|x l IH]; simpl.
  - split; [discriminate|]. intros (pre & post & H & _). destruct pre; discriminate.
  - destruct (String.eqb_spec (AreaId x) area) as [Heq|Hne].
    + split.
      * intros [= <-]. exists [], l. split; [reflexivity|]. split; [exact Heq|constructor].
      * intros (pre & post & H & Ha & Hpre). destruct pre as [|y pre].
        -- simpl in H. injection H as -> _. reflexivity.
        -- simpl in H. injection H as <- _. inversion Hpre; subst. contradiction.
    + rewrite IH. split.
      * intros (pre & post & -> & Ha & Hpre). exists (x :: pre), post.
        split; [reflexivity|]. split; [exact Ha|]. constructor; assumption.
      * intros (pre & post & H & Ha & Hpre). destruct pre as [|y pre].
        -- simpl in H. injection H as -> _. contradiction.
        -- simpl in H. injection H as <- ->. inversion Hpre; subst.
           exists pre, post. auto.
Qed.

Lemma GetScheduler_loop_None l area :
  GetScheduler_loop l area = None ↔ Forall (fun x => AreaId x ≠ area) l.
Proof.
  induction l as [|x l IH]; simpl.
  - split; [constructor | reflexivity].
  - destruct (String.eqb_spec (AreaId x) area) as [Heq|Hne].
    + split; [discriminate|]. intros H. inversion H; subst. contradiction.
    + rewrite IH. split; [intros H; constructor; assumption|].
      intros H. inversion H; assumption.
Qed.

(** X1: [GetScheduler] returns the first scheduler of [d.schedulers] whose
    area is the one asked for, and [nil] exactly when no scheduler has that
    area; for the downloader's own area it is the scheduler that [create]
    selects. *)
Theorem GetScheduler_first d area :
  (∀ s, GetScheduler d area = Some s ↔
        ∃ pre post, schedulers d = pre ++ s :: post ∧ AreaId s = area ∧
                    Forall (fun x => AreaId x ≠ area) pre) ∧
  (GetScheduler d area = None ↔ Forall (fun x => AreaId x ≠ area) (schedulers d)) ∧
  GetScheduler d (areaId d) =
    List.find (fun sd => String.eqb (AreaId sd) (areaId d)) (schedulers d).
Proof.
  unfold GetScheduler. split; [intros s; apply GetScheduler_loop_Some|].
  split; [apply GetScheduler_loop_None | apply GetScheduler_loop_find].
Qed.

(** ** The size cache *)

Ltac pow64 :=
  change (2 ^ 63) with 9223372036854775808 in *;
  change (2 ^ 64) with 18446744073709551616 in *.

Lemma wrap64_range z : int64_range (wrap64 z).
Proof.
  unfold int64_range, wrap64. pow64.
  pose proof (Z.mod_pos_bound (z + 9223372036854775808) 18446744073709551616
                eq_refl). lia.
Qed.

Lemma wrap64_exact z : int64_range z -> wrap64 z = z.
Proof.
  unfold int64_range, wrap64. pow64. intros H.
  rewrite Z.mod_small by lia. lia.
Qed.

Lemma wrap64_over z : 2 ^ 63 <= z < 2 ^ 64 -> wrap64 z = z - 2 ^ 64.
Proof.
  unfold wrap64. pow64. intros H.
  replace (z + 9223372036854775808)
    with ((z - 9223372036854775808) + 1 * 18446744073709551616) by lia.
  rewrite Z.mod_add by lia. rewrite Z.mod_small by lia. lia.
Qed.

(** X2: [d.dirSize[outPath] += size] touches the entry of [outPath] only;
    a missing entry counts as 0; the new value is an [int64], equal to the
    sum when the sum is one, and negative -- so below the threshold -- when
    the sum of two [int64] values passes the largest [int64]. *)
Theorem dirSize_add_int64 outPath size d :
  let old := default 0 (dirSize d !! outPath) in
  dirSize (dirSize_add outPath size d) !! outPath = Some (wrap64 (old + size)) ∧
  (∀ dir, dir ≠ outPath ->
     dirSize (dirSize_add outPath size d) !! dir = dirSize d !! dir) ∧
  int64_range (wrap64 (old + size)) ∧
  (int64_range (old + size) -> wrap64 (old + size) = old + size) ∧
  (int64_range old -> int64_range size -> 2 ^ 63 <= old + size ->
     wrap64 (old + size) < 0 ∧ wrap64 (old + size) < maxSingleDirSize).
Proof.
  intros old. unfold dirSize_add. simpl.
  split; [apply lookup_insert_eq|].
  split; [intros dir Hne; apply lookup_insert_ne; congruence|].
  split; [apply wrap64_range|].
  split; [apply wrap64_exact|].
  unfold int64_range. intros Ho Hs Hsum.
  rewrite wrap64_over by (pow64; lia).
  change maxSingleDirSize with 19327352832. pow64. lia.
Qed.
Lemma dirSize_add_int64_witness :
  dirSize (dirSize_add "/carfile/titan/20240101a" 1 (dl (world_a (2 ^ 63 - 1))))
    !! "/carfile/titan/20240101a" = Some (- 2 ^ 63) ∧
  - 2 ^ 63 < maxSingleDirSize.
Proof.
  destruct (dirSize_add_int64 "/carfile/titan/20240101a" 1 (dl (world_a (2 ^ 63 - 1))))
    as (H1 & _ & _ & _ & H5).
  split; [rewrite H1; reflexivity|].
  destruct H5 as [_ H];
    [split; [intros E; discriminate E | reflexivity]
    |split; [intros E; discriminate E | reflexivity]
    |intros E; discriminate E|].
  exact H.
Defined.

(** ** More on the directory allocator *)

Section AllocatorMore.

Variable env : Env.

Lemma createOrGetSize_scanned dir w sz :
  dir ∈ dirs w -> dirSize (dl w) !! dir = None -> walk env dir = (sz, None) ->
  createOrGetSize env dir w =
    ((sz, None),
     set_dl (set_dirSize (<[dir := sz]> (dirSize (dl w))) (dl w))
       (set_trace (trace w ++ [EvExist dir; EvLock Lk; EvGetDirSize dir;
                               EvUnlock Lk]) w)).
Proof.
  intros Hin Hc Hw. unfold createOrGetSize, fileutil_Exist, getDirSize. prim. simpl.
  rewrite bool_decide_eq_true_2 by exact Hin. simpl. rewrite Hc, Hw. simpl.
  f_equal. apply World_eq; simpl; try reflexivity. trace_eq.
Qed.

Lemma createOrGetSize_scan_failed dir w sz e :
  dir ∈ dirs w -> dirSize (dl w) !! dir = None -> walk env dir = (sz, Some e) ->
  createOrGetSize env dir w =
    ((0, Some e),
     set_trace (trace w ++ [EvExist dir; EvLock Lk; EvGetDirSize dir;
                            EvUnlock Lk]) w).
Proof.
  intros Hin Hc Hw. unfold createOrGetSize, fileutil_Exist, getDirSize. prim. simpl.
  rewrite bool_decide_eq_true_2 by exact Hin. simpl. rewrite Hc, Hw. simpl.
  f_equal. apply World_eq; simpl; try reflexivity. trace_eq.
Qed.

(** What one call of [createOrGetSize] does to the directories and to the
    cache, whatever the other goroutines do. *)
Lemma createOrGetSize_effect dir w :
  let r := createOrGetSize env dir w in
  (∀ d sz, dirSize (dl w) !! d = Some sz -> dirSize (dl r.2) !! d = Some sz) ∧
  (∀ d, dirSize (dl w) !! d = None -> d ≠ dir -> dirSize (dl r.2) !! d = None) ∧
  (∀ sz, r.1 = (sz, None) -> dir ∈ dirs r.2) ∧
  (quiet env -> dirs w ⊆ dirs r.2 ∧ dirs r.2 ⊆ {[dir]} ∪ dirs w) ∧
  heap r.2 = heap w ∧ files r.2 = files w ∧
  set_dirSize ∅ (dl r.2) = set_dirSize ∅ (dl w) ∧
  reports (trace r.2) = reports (trace w).
Proof.
  assert (Hrep : ∀ (tr : list Ev) e,
            (∀ jobs, e ≠ EvPushResult jobs) -> reports (tr ++ [e]) = reports tr).
  { intros tr e He. unfold reports. rewrite omap_app. simpl.
    destruct e; try apply app_nil_r. exfalso. eapply He. reflexivity. }
  unfold createOrGetSize, fileutil_Exist, os_Mkdir, getDirSize. prim. simpl.
  destruct (bool_decide_reflect (dir ∈ dirs w)) as [Hin|Hnin]; simpl.
  - destruct (dirSize (dl w) !! dir) as [c|] eqn:Hc; simpl.
    + repeat split; auto; try set_solver. rewrite !Hrep by discriminate. reflexivity.
    + destruct (walk env dir) as [sz [e|]]; simpl.
      * repeat split; auto; try set_solver. rewrite !Hrep by discriminate. reflexivity.
      * split; [|split; [|split; [|split]]].
        -- intros d c Hd. rewrite lookup_insert_ne; [exact Hd|]. congruence.
        -- intros d Hd Hne. rewrite lookup_insert_ne; [exact Hd|]. congruence.
        -- intros _ _. exact Hin.
        -- intros _. set_solver.
        -- repeat split. rewrite !Hrep by discriminate. reflexivity.
  - destruct (bool_decide_reflect (dir ∈ preempt env (dirs w))) as [Hp|Hp]; simpl.
    + split; [auto|]. split; [auto|]. split; [discriminate|].
      split; [intros Hq; rewrite Hq; set_solver|]. repeat split.
      rewrite !Hrep by discriminate. reflexivity.
    + destruct (mkdir_err env dir) as [e|]; simpl.
      * split; [auto|]. split; [auto|]. split; [discriminate|].
        split; [intros Hq; rewrite Hq; set_solver|]. repeat split.
        rewrite !Hrep by discriminate. reflexivity.
      * split; [auto|]. split; [auto|]. split; [intros _ _; set_solver|].
        split; [intros Hq; rewrite Hq; set_solver|]. repeat split.
        rewrite !Hrep by discriminate. reflexivity.
Qed.

(** The same for the loop of [getOutPath] from rune [c] on. *)
Lemma getOutPath_loop_effect fuel : ∀ dir c o w,
  let r := getOutPath_loop env fuel dir c o w in
  (∀ d sz, dirSize (dl w) !! d = Some sz -> dirSize (dl r.2) !! d = Some sz) ∧
  (∀ d, dirSize (dl w) !! d = None ->
        (∀ k, (c <= k < rune_z)%nat -> d ≠ candidate dir k) ->
        dirSize (dl r.2) !! d = None) ∧
  (quiet env ->
     dirs w ⊆ dirs r.2 ∧
     ∀ d, d ∈ dirs r.2 ->
          d ∈ dirs w ∨ ∃ k, (c <= k < rune_z)%nat ∧ d = candidate dir k) ∧
  heap r.2 = heap w ∧ files r.2 = files w ∧
  set_dirSize ∅ (dl r.2) = set_dirSize ∅ (dl w) ∧
  reports (trace r.2) = reports (trace w) ∧
  match r.1 with
  | (p, None) =>
      (p = o ∧ r.2 = w ∧ (fuel = O ∨ rune_z <= c)%nat) ∨
      (∃ k, (c <= k < rune_z)%nat ∧ p = candidate dir k ∧ p ∈ dirs r.2)
  | (p, Some _) => p = EmptyString
  end.
Proof.
  induction fuel as [|fuel IH]; intros dir c o w; simpl.
  { split; [auto|]. split; [auto|].
    split; [intros _; split; [set_solver | intros d Hd; left; exact Hd]|].
    split; [reflexivity|]. split; [reflexivity|]. split; [reflexivity|].
    split; [reflexivity|].
    left. split; [reflexivity|]. split; [reflexivity|]. left. reflexivity. }
  destruct (Nat.ltb_spec c rune_z) as [Hc|Hc].
  2:{ split; [auto|]. split; [auto|].
      split; [intros _; split; [set_solver | intros d Hd; left; exact Hd]|].
      split; [reflexivity|]. split; [reflexivity|]. split; [reflexivity|].
      split; [reflexivity|].
      left. split; [reflexivity|]. split; [reflexivity|]. right. exact Hc. }
  unfold bind.
  pose proof (createOrGetSize_effect (candidate dir c) w)
    as (E1 & E2 & E3 & E4 & E5 & E6 & E7 & E8).
  destruct (createOrGetSize env (candidate dir c) w) as [[size err] w1].
  simpl in E1, E2, E3, E4, E5, E6, E7, E8.
  destruct err as [e|]; simpl.
  { split; [exact E1|]. split; [intros d Hd Hk; apply E2; [exact Hd | apply Hk; lia]|].
    split; [|repeat split; assumption].
    intros Hq. destruct (E4 Hq) as [Ha Hb]. split; [exact Ha|].
    intros d Hd. apply Hb in Hd. apply elem_of_union in Hd as [Hd|Hd]; [|left; exact Hd].
    apply elem_of_singleton in Hd. right. exists c. split; [lia | exact Hd]. }
  destruct (size <? maxSingleDirSize); simpl.
  { split; [exact E1|]. split; [intros d Hd Hk; apply E2; [exact Hd | apply Hk; lia]|].
    split.
    { intros Hq. destruct (E4 Hq) as [Ha Hb]. split; [exact Ha|].
      intros d Hd. apply Hb in Hd. apply elem_of_union in Hd as [Hd|Hd]; [|left; exact Hd].
      apply elem_of_singleton in Hd. right. exists c. split; [lia | exact Hd]. }
    split; [exact E5|]. split; [exact E6|]. split; [exact E7|]. split; [exact E8|].
    right. exists c. split; [lia|]. split; [reflexivity|]. apply (E3 size). reflexivity. }
  specialize (IH dir (S c) (candidate dir c) w1). simpl in IH.
  destruct IH as (I1 & I2 & I4 & I5 & I6 & I7 & I9 & I8).
  split; [intros d sz Hd; apply I1, E1, Hd|].
  split.
  { intros d Hd Hk. apply I2; [apply E2; [exact Hd | apply Hk; lia]|].
    intros k Hk'. apply Hk. lia. }
  split.
  { intros Hq. destruct (E4 Hq) as [Ha Hb]. destruct (I4 Hq) as [Ia Ib].
    split; [transitivity (dirs w1); assumption|].
    intros d Hd. apply Ib in Hd as [Hd|(k & Hk & Hd)].
    - apply Hb in Hd. apply elem_of_union in Hd as [Hd|Hd]; [|left; exact Hd].
      apply elem_of_singleton in Hd. right. exists c. split; [lia | exact Hd].
    - right. exists k. split; [lia | exact Hd]. }
  split; [congruence|]. split; [congruence|]. split; [congruence|].
  split; [congruence|].
  destruct (getOutPath_loop env fuel dir (S c) (candidate dir c) w1) as [[p [e|]] w2];
    simpl in *; [exact I8|].
  destruct I8 as [(-> & -> & _)|(k & Hk & -> & Hin)].
  - right. exists c. split; [lia|]. split; [reflexivity|]. apply (E3 size). reflexivity.
  - right. exists k. split; [lia|]. split; [reflexivity | exact Hin].
Qed.

End AllocatorMore.

(** X3: a directory on disk without a cache entry is scanned once: the
    result of [getDirSize] is cached and returned, and every later call
    returns the cached size without a scan, whatever the disk holds by then.
    When the scan fails, the call returns size 0 with the error of the scan
    and caches nothing. *)
Theorem createOrGetSize_scans_once env dir w :
  dir ∈ dirs w -> dirSize (dl w) !! dir = None ->
  let r := createOrGetSize env dir w in
  (∀ sz, walk env dir = (sz, None) ->
     r.1 = (sz, None) ∧ dirSize (dl r.2) !! dir = Some sz ∧
     ∀ env', createOrGetSize env' dir r.2 =
               ((sz, None),
                set_trace (trace r.2 ++ [EvExist dir; EvLock Lk; EvUnlock Lk]) r.2)) ∧
  (∀ sz e, walk env dir = (sz, Some e) ->
     r.1 = (0, Some e) ∧ dl r.2 = dl w).
Proof.
  intros Hin Hc r. split.
  - intros sz Hw. subst r. rewrite (createOrGetSize_scanned env dir w sz Hin Hc Hw).
    split; [reflexivity|]. split; [apply lookup_insert_eq|].
    intros env'. apply createOrGetSize_cached; [exact Hin | apply lookup_insert_eq].
  - intros sz e Hw. subst r.
    rewrite (createOrGetSize_scan_failed env dir w sz e Hin Hc Hw).
    split; reflexivity.
Qed.

(** The directory a of bucket 20240101 on disk, not cached. *)
Lemma createOrGetSize_scans_once_witness :
  (createOrGetSize env_ok "/carfile/titan/20240101a"
     (world_job [] {[ "/carfile/titan/20240101a" ]} ∅)).1 = (0, None) ∧
  (createOrGetSize env_denied "/carfile/titan/20240101a"
     (createOrGetSize env_ok "/carfile/titan/20240101a"
        (world_job [] {[ "/carfile/titan/20240101a" ]} ∅)).2).1 = (0, None).
Proof.
  assert (Hin : "/carfile/titan/20240101a"
                  ∈ dirs (world_job [] {[ "/carfile/titan/20240101a" ]} ∅))
    by (vm_compute; set_solver).
  destruct (createOrGetSize_scans_once env_ok "/carfile/titan/20240101a"
              (world_job [] {[ "/carfile/titan/20240101a" ]} ∅) Hin eq_refl)
    as [H _].
  destruct (H 0 eq_refl) as (H1 & _ & H3). split; [exact H1|].
  rewrite (H3 env_denied). reflexivity.
Defined.

Lemma getOutPath_shape env dir w :
  match (getOutPath env dir w).1 with
  | (p, None) =>
      ∃ c, suffix_rune c ∧ p = candidate dir c ∧ p ∈ dirs (getOutPath env dir w).2
  | (p, Some _) => p = EmptyString
  end.
Proof.
  unfold getOutPath.
  pose proof (getOutPath_loop_effect env 26 dir rune_a EmptyString w)
    as (_ & _ & _ & _ & _ & _ & _ & H).
  cbv zeta in H.
  destruct (getOutPath_loop env 26 dir rune_a EmptyString w) as [[p [e|]] w'];
    simpl in *; [exact H|].
  destruct H as [(_ & _ & [H|H])|(k & Hk & -> & Hin)].
  - discriminate H.
  - unfold rune_a, rune_z in H. lia.
  - exists k. split; [exact Hk|]. split; [reflexivity | exact Hin].
Qed.

(** X4: when [getOutPath] succeeds, the path it returns is the candidate of
    the bucket for one of the 25 suffixes a to y, and that directory is on
    disk when the call returns, whatever other goroutines did meanwhile;
    when it fails, the path is empty. *)
Theorem getOutPath_result env dir w :
  match (getOutPath env dir w).1 with
  | (p, None) =>
      ∃ c, suffix_rune c ∧ p = candidate dir c ∧ p ∈ dirs (getOutPath env dir w).2
  | (p, Some _) => p = EmptyString
  end.
Proof. exact (getOutPath_shape env dir w). Qed.

(** X5: [getOutPath] never changes a size that is cached, and caches sizes
    for candidates of its own bucket only; it leaves the files, the assets
    and the rest of the [Downloader] alone; and when no other goroutine
    touches the directories, it removes none and adds candidates of its
    bucket only. *)
Theorem getOutPath_cache_kept env dir w :
  let w' := (getOutPath env dir w).2 in
  (∀ d sz, dirSize (dl w) !! d = Some sz -> dirSize (dl w') !! d = Some sz) ∧
  (∀ d, dirSize (dl w) !! d = None ->
        (∀ c, suffix_rune c -> d ≠ candidate dir c) ->
        dirSize (dl w') !! d = None) ∧
  (quiet env ->
     dirs w ⊆ dirs w' ∧
     ∀ d, d ∈ dirs w' -> d ∈ dirs w ∨ ∃ c, suffix_rune c ∧ d = candidate dir c) ∧
  heap w' = heap w ∧ files w' = files w ∧
  set_dirSize ∅ (dl w') = set_dirSize ∅ (dl w).
Proof.
  pose proof (getOutPath_loop_effect env 26 dir rune_a EmptyString w)
    as (H1 & H2 & H3 & H4 & H5 & H6 & _).
  unfold getOutPath. repeat split; try assumption; apply H3; assumption.
Qed.

Lemma getOutPath_cache_kept_witness :
  dirSize (dl (getOutPath env_ok "20240102" (world_a (18 * 2 ^ 30))).2)
    !! "/carfile/titan/20240101a" = Some (18 * 2 ^ 30) ∧
  dirs (world_a (18 * 2 ^ 30))
    ⊆ dirs (getOutPath env_ok "20240102" (world_a (18 * 2 ^ 30))).2.
Proof.
  destruct (getOutPath_cache_kept env_ok "20240102" (world_a (18 * 2 ^ 30)))
    as (H1 & _ & H3 & _).
  split.
  - apply H1. apply lookup_singleton_eq.
  - apply (H3 quiet_env_ok).
Defined.


(** ** More on the download client *)

Lemma reports_emit (tr : list Ev) e :
  (∀ jobs, e ≠ EvPushResult jobs) -> reports (tr ++ [e]) = reports tr.
Proof.
  intros He. unfold reports. rewrite omap_app. simpl.
  destruct e; try apply app_nil_r. exfalso. eapply He. reflexivity.
Qed.

Section DownloadMore.

Variable env : Env.

(** What the loop of [download] does to the world. *)
Lemma download_loop_effect sources : ∀ outPath cid size w,
  let file := filepath_Join outPath (cid +:+ ".car") in
  let r := download_loop env sources outPath cid size w in
  dirs r.2 = dirs w ∧ heap r.2 = heap w ∧
  (∀ f, f ≠ file -> files r.2 !! f = files w !! f) ∧
  reports (trace r.2) = reports (trace w) ∧
  match r.1 with
  | Some _ => dl r.2 = dl w
  | None =>
      (dl r.2 = dl w ∧ files r.2 = files w ∧
       forallb (request_fails env cid) sources = true) ∨
      (dl r.2 = dirSize_add outPath size (dl w) ∧ is_Some (files r.2 !! file) ∧
       forallb (request_fails env cid) sources = false)
  end.
Proof.
  induction sources as [|x sources IH]; intros outPath cid size w file; simpl.
  { split; [reflexivity|]. split; [reflexivity|]. split; [reflexivity|].
    split; [reflexivity|]. left. repeat split. }
  unfold request, os_Create, io_Copy. prim.
  destruct (request_result env (Address x) cid) as [reader|e] eqn:Hreq; simpl.
  2:{ assert (Hx : request_fails env cid x = true)
        by (unfold request_fails; rewrite Hreq; reflexivity).
      rewrite Hx. simpl.
      specialize (IH outPath cid size
                    (set_trace (trace w ++ [EvRequest (endpoint (Address x) cid)]) w)).
      simpl in IH. destruct IH as (I1 & I2 & I3 & I4 & I5).
      split; [exact I1|]. split; [exact I2|]. split; [exact I3|].
      split; [rewrite I4; apply reports_emit; discriminate | exact I5]. }
  assert (Hx : request_fails env cid x = false)
    by (unfold request_fails; rewrite Hreq; reflexivity).
  rewrite Hx. simpl. fold file.
  destruct (create_err env file) as [e|]; simpl.
  { repeat split; auto. rewrite !reports_emit by discriminate. reflexivity. }
  destruct (write_err env file) as [e|]; simpl.
  { split; [reflexivity|]. split; [reflexivity|].
    split; [intros f Hf; apply lookup_insert_ne; congruence|].
    split; [|reflexivity]. rewrite !reports_emit by discriminate. reflexivity. }
  destruct (read_err reader) as [e|]; simpl.
  { split; [reflexivity|]. split; [reflexivity|].
    split; [intros f Hf; rewrite !lookup_insert_ne by congruence; reflexivity|].
    split; [|reflexivity]. rewrite !reports_emit by discriminate. reflexivity. }
  split; [reflexivity|]. split; [reflexivity|].
  split; [intros f Hf; rewrite !lookup_insert_ne by congruence; reflexivity|].
  split; [rewrite !reports_emit by discriminate; reflexivity|].
  right. split; [reflexivity|]. split; [|reflexivity].
  rewrite lookup_insert_eq. eauto.
Qed.

(** The same for [download]. *)
Lemma download_effect s outPath cid size w :
  let file := filepath_Join outPath (cid +:+ ".car") in
  let r := download env s outPath cid size w in
  dirs r.2 = dirs w ∧ heap r.2 = heap w ∧
  (∀ f, f ≠ file -> files r.2 !! f = files w !! f) ∧
  reports (trace r.2) = reports (trace w) ∧
  match r.1 with
  | Some _ => dl r.2 = dl w
  | None =>
      (dl r.2 = dl w ∧ files r.2 = files w) ∨
      (dl r.2 = dirSize_add outPath size (dl w) ∧ is_Some (files r.2 !! file))
  end.
Proof.
  intros file. unfold download. prim.
  destruct (Api s cid) as [infos [e|]]; simpl.
  { repeat split; auto. apply reports_emit. discriminate. }
  destruct (length (SourceList infos) =? 0)%nat; simpl.
  { repeat split; auto. apply reports_emit. discriminate. }
  pose proof (download_loop_effect (SourceList infos) outPath cid size
                (set_trace (trace w ++ [EvSourceLookup cid]) w))
    as (I1 & I2 & I3 & I4 & I5).
  simpl in *. split; [exact I1|]. split; [exact I2|]. split; [exact I3|].
  split; [rewrite I4; apply reports_emit; discriminate|].
  destruct (download_loop env (SourceList infos) outPath cid size _) as [[e|] w'];
    simpl in *; [exact I5|].
  destruct I5 as [(A & B & _)|(A & B & _)]; [left | right]; split; assumption.
Qed.

End DownloadMore.

(** X6: [download] never touches the directories or the assets and writes
    no file but [outPath/cid.car]; when it returns an error, the
    [Downloader], and so the size cache, is as before; when it returns
    [nil], either nothing was written at all, or the file is there and
    the cache entry of [outPath] has grown by the declared size. *)
Theorem download_effects env s outPath cid size w :
  let file := filepath_Join outPath (cid +:+ ".car") in
  let r := download env s outPath cid size w in
  dirs r.2 = dirs w ∧ heap r.2 = heap w ∧
  (∀ f, f ≠ file -> files r.2 !! f = files w !! f) ∧
  (∀ e, r.1 = Some e -> dl r.2 = dl w) ∧
  (r.1 = None ->
     (dl r.2 = dl w ∧ files r.2 = files w) ∨
     (dl r.2 = dirSize_add outPath size (dl w) ∧ is_Some (files r.2 !! file))).
Proof.
  intros file r.
  pose proof (download_effect env s outPath cid size w) as (H1 & H2 & H3 & _ & H5).
  fold file r in H1, H2, H3, H5.
  split; [exact H1|]. split; [exact H2|]. split; [exact H3|].
  destruct (r.1) as [e|]; split; intros; try discriminate; assumption.
Qed.

Lemma download_effects_witness :
  (download env_broken (scheduler_of [source "node1"])
     "/carfile/titan/20240101a" "bafy1" 3 (world_a 7)).1 = Some "unexpected EOF" ∧
  dl (download env_broken (scheduler_of [source "node1"])
        "/carfile/titan/20240101a" "bafy1" 3 (world_a 7)).2 = dl (world_a 7).
Proof.
  assert (H : (download env_broken (scheduler_of [source "node1"])
                 "/carfile/titan/20240101a" "bafy1" 3 (world_a 7)).1
              = Some "unexpected EOF") by (vm_compute; reflexivity).
  split; [exact H|].
  destruct (download_effects env_broken (scheduler_of [source "node1"])
              "/carfile/titan/20240101a" "bafy1" 3 (world_a 7))
    as (_ & _ & _ & H4 & _).
  apply (H4 _ H).
Defined.

(** ** More on one job *)

Lemma same_struct_fields d d' :
  set_dirSize ∅ d' = set_dirSize ∅ d ->
  schedulers d' = schedulers d ∧ areaId d' = areaId d ∧ token d' = token d ∧
  downloading d' = downloading d ∧ running d' = running d ∧
  JobQueue d' = JobQueue d ∧ downWorkerQueue d' = downWorkerQueue d ∧
  concurrent d' = concurrent d.
Proof.
  intros H.
  pose proof (f_equal schedulers H). pose proof (f_equal areaId H).
  pose proof (f_equal token H). pose proof (f_equal downloading H).
  pose proof (f_equal running H). pose proof (f_equal JobQueue H).
  pose proof (f_equal downWorkerQueue H). pose proof (f_equal concurrent H).
  simpl in *. repeat split; assumption.
Qed.

Section JobMore.

Variable env : Env.

Lemma getOutPath_cache_effect job w :
  let g := getOutPath env (Format (EndTime (heap w !!! job))) w in
  heap g.2 = heap w ∧ set_dirSize ∅ (dl g.2) = set_dirSize ∅ (dl w) ∧
  reports (trace g.2) = reports (trace w).
Proof.
  pose proof (getOutPath_loop_effect env 26 (Format (EndTime (heap w !!! job)))
                rune_a EmptyString w) as (_ & _ & _ & H4 & _ & H6 & H7 & _).
  unfold getOutPath. repeat split; assumption.
Qed.

(** What [create] does, by its result. *)
Lemma create_effect job w :
  let a := heap w !!! job in
  let g := getOutPath env (Format (EndTime a)) w in
  let r := create env job w in
  reports (trace r.2) = reports (trace w) ∧
  set_dirSize ∅ (dl r.2) = set_dirSize ∅ (dl w) ∧
  match r.1 with
  | (None, Some _) => heap r.2 = heap w
  | (Some j, Some _) => j = job ∧ heap r.2 = <[job := set_Event ErrorEventID a]> (heap w)
  | (Some j, None) =>
      j = job ∧ g.1.2 = None ∧ heap r.2 = <[job := set_Path g.1.1 a]> (heap w)
  | (None, None) => False
  end.
Proof.
  intros a g. unfold create. cbv [bind load gets]. fold a. fold g.
  pose proof (getOutPath_cache_effect job w) as (G1 & G2 & G3).
  fold a in G1, G2, G3. fold g in G1, G2, G3.
  destruct g as [[outPath [e|]] w1]; simpl in *.
  { repeat split; assumption. }
  destruct (find _ _) as [s|]; simpl; [|repeat split; assumption].
  rewrite G1. fold a.
  pose proof (download_effect env s outPath (Cid a) (TotalSize a) w1)
    as (D1 & D2 & _ & D4 & D5).
  destruct (download env s outPath (Cid a) (TotalSize a) w1) as [[e|] w2];
    simpl in *; cbv [store modify ret]; simpl.
  - rewrite D2, G1, D5. fold a. repeat split; try assumption. congruence.
  - rewrite D2, G1. fold a. split; [congruence|]. split; [|repeat split].
    destruct D5 as [[-> _]|[-> _]]; [exact G2|]. exact G2.
Qed.

End JobMore.


(** X7: [create] changes no asset but its job, and of the job nothing but
    one field: when it returns [nil] as the job, no asset has changed; when
    it returns the job with an error, only [Event] has changed, to
    [ErrorEventID]; when it returns the job without error, only [Path] has
    changed, to a candidate directory of the job's bucket.  It never returns
    neither a job nor an error. *)
Theorem create_touches_one_field env job w :
  let a := heap w !!! job in
  let r := create env job w in
  match r.1 with
  | (None, Some _) => heap r.2 = heap w
  | (Some j, Some _) =>
      j = job ∧ heap r.2 = <[job := set_Event ErrorEventID a]> (heap w)
  | (Some j, None) =>
      j = job ∧
      ∃ c, suffix_rune c ∧
           heap r.2 = <[job := set_Path (candidate (Format (EndTime a)) c) a]> (heap w)
  | (None, None) => False
  end.
Proof.
  intros a r.
  pose proof (create_effect env job w) as (_ & _ & H). fold a r in H.
  pose proof (getOutPath_shape env (Format (EndTime a)) w) as Hs.
  destruct (r.1) as [[j|] [e|]]; try exact H.
  destruct H as (Hj & Hg & Hh). split; [exact Hj|].
  destruct (getOutPath env (Format (EndTime a)) w) as [[p err] w1]. simpl in *.
  subst err. destruct Hs as (c & Hc & -> & _). exists c. split; assumption.
Qed.

(** X8: when no scheduler has the area of the downloader, [create] returns
    no job and the error "no scheduler found" (or the error of
    [getOutPath]): it asks no scheduler and requests no source, but it has
    gone through [getOutPath] first, so the directory of the bucket may have
    been created for nothing. *)
Theorem create_no_scheduler env job w :
  Forall (fun x => AreaId x ≠ areaId (dl w)) (schedulers (dl w)) ->
  create env job w =
    ((None,
      Some (default "no scheduler found"
              (getOutPath env (Format (EndTime (heap w !!! job))) w).1.2)),
     (getOutPath env (Format (EndTime (heap w !!! job))) w).2).
Proof.
  intros Hall. unfold create. cbv [bind load gets].
  pose proof (getOutPath_cache_effect env job w) as (_ & G2 & _).
  destruct (getOutPath env (Format (EndTime (heap w !!! job))) w)
    as [[outPath [e|]] w1]; simpl in *; [reflexivity|].
  apply same_struct_fields in G2 as (Hs & Ha & _). rewrite Hs, Ha.
  rewrite <- GetScheduler_loop_find.
  apply GetScheduler_loop_None in Hall. rewrite Hall. reflexivity.
Qed.

Lemma create_no_scheduler_witness :
  Forall (fun x => AreaId x ≠ areaId (dl world_elsewhere))
    (schedulers (dl world_elsewhere)) ∧
  (create env_ok 0%nat world_elsewhere).1 = (None, Some "no scheduler found") ∧
  ("/carfile/titan/20240101a" ∈ dirs (create env_ok 0%nat world_elsewhere).2).
Proof.
  assert (H : Forall (fun x => AreaId x ≠ areaId (dl world_elsewhere))
                (schedulers (dl world_elsewhere)))
    by (repeat constructor; simpl; discriminate).
  split; [exact H|].
  rewrite (create_no_scheduler env_ok 0%nat world_elsewhere H).
  split; [vm_compute; reflexivity|].
  refine (bool_decide_unpack _ _). vm_compute. exact I.
Defined.

(** X9: the first job of a bucket that has no directory yet: [create]
    makes the directory with suffix a and downloads into it; as the new
    directory has no cache entry, the [+=] starts from 0 and the cache holds
    the declared size of the job afterwards. *)
Theorem create_new_bucket env w job a s pre src post reader :
  quiet env ->
  heap w !! job = Some a ->
  candidate (Format (EndTime a)) rune_a ∉ dirs w ->
  dirSize (dl w) !! candidate (Format (EndTime a)) rune_a = None ->
  mkdir_err env (candidate (Format (EndTime a)) rune_a) = None ->
  List.find (fun sd => String.eqb (AreaId sd) (areaId (dl w))) (schedulers (dl w))
    = Some s ->
  Api s (Cid a) = ({| SourceList := pre ++ src :: post |}, None) ->
  forallb (request_fails env (Cid a)) pre = true ->
  request_result env (Address src) (Cid a) = inl reader ->
  create_err env
    (filepath_Join (candidate (Format (EndTime a)) rune_a) (Cid a +:+ ".car")) = None ->
  write_err env
    (filepath_Join (candidate (Format (EndTime a)) rune_a) (Cid a +:+ ".car")) = None ->
  read_err reader = None ->
  let dirA := candidate (Format (EndTime a)) rune_a in
  let r := create env job w in
  r.1 = (Some job, None) ∧
  heap r.2 !! job = Some (set_Path dirA a) ∧
  dirs r.2 = {[dirA]} ∪ dirs w ∧
  files r.2 !! filepath_Join dirA (Cid a +:+ ".car") = Some (data reader) ∧
  dirSize (dl r.2) !! dirA = Some (wrap64 (TotalSize a)).
Proof.
  intros Hq Hjob Hnin Hc Hm Hfind Hapi Hpre Hsrc Hcreate Hwrite Hread dirA r.
  assert (Hload : heap w !!! job = a) by (apply lookup_total_correct; exact Hjob).
  assert (Hg : getOutPath env (Format (EndTime a)) w =
               ((dirA, None),
                set_dirs ({[dirA]} ∪ dirs w)
                  (set_trace (trace w ++ [EvExist dirA; EvMkdir dirA]) w))).
  { unfold getOutPath.
    apply (getOutPath_loop_select env _ _ _ _ _ 0);
      [unfold rune_a, rune_z; lia
      | apply createOrGetSize_absent; assumption
      | reflexivity]. }
  assert (Hr : r =
    ((Some job, None),
     set_heap (<[job := set_Path dirA a]> (heap w))
       (set_dl (dirSize_add dirA (TotalSize a) (dl w))
          (set_files (<[filepath_Join dirA (Cid a +:+ ".car") := data reader]>
                        (<[filepath_Join dirA (Cid a +:+ ".car") := []]> (files w)))
             (set_dirs ({[dirA]} ∪ dirs w)
                (set_trace
                   (trace w ++ [EvExist dirA; EvMkdir dirA;
                                EvSourceLookup (Cid a)] ++
                    requests_of (Cid a) (pre ++ [src]) ++
                    [EvCreate (filepath_Join dirA (Cid a +:+ ".car"));
                     EvCopy (filepath_Join dirA (Cid a +:+ ".car")); EvLock Lk;
                     EvDirSizeAdd dirA (TotalSize a); EvUnlock Lk]) w)))))).
  { subst r. unfold create. cbv [bind load gets]. rewrite Hload, Hg.
    simpl. rewrite Hfind. simpl. rewrite Hload.
    rewrite (download_nonempty env s dirA (Cid a) (TotalSize a) _ _ Hapi)
      by (destruct pre; discriminate).
    rewrite (download_loop_failed env pre (src :: post) dirA _ _ _ Hpre).
    rewrite (download_loop_answer env src post dirA _ _ _ reader Hsrc).
    fold dirA in Hcreate, Hwrite. rewrite Hcreate, Hwrite, Hread.
    cbv [store modify ret]. simpl. rewrite Hload. f_equal.
    apply World_eq; simpl; try reflexivity.
    unfold requests_of. rewrite map_app. trace_eq. }
  rewrite Hr.
  split; [reflexivity|]. split; [apply lookup_insert_eq|].
  split; [reflexivity|]. split; [apply lookup_insert_eq|].
  simpl. unfold dirSize_add, dirA. simpl. rewrite Hc. simpl. apply lookup_insert_eq.
Qed.

Lemma create_new_bucket_witness :
  ("/carfile/titan/20240101a" ∉ dirs (world_job [source "node3"] ∅ ∅)) ∧
  (create env_node3 0%nat (world_job [source "node3"] ∅ ∅)).1 = (Some 0%nat, None) ∧
  dirSize (dl (create env_node3 0%nat (world_job [source "node3"] ∅ ∅)).2)
    !! "/carfile/titan/20240101a" = Some (20 * 2 ^ 30).
Proof.
  assert (Hnin : candidate (Format (EndTime asset1)) rune_a
                   ∉ dirs (world_job [source "node3"] ∅ ∅))
    by (vm_compute; set_solver).
  split; [exact Hnin|].
  destruct (create_new_bucket env_node3 (world_job [source "node3"] ∅ ∅) 0%nat
              asset1 (scheduler_of [source "node3"]) [] (source "node3") []
              {| data := [Byte.x01; Byte.x02; Byte.x03]; read_err := None |}
              (fun ds => eq_refl) ltac:(vm_compute; reflexivity) Hnin
              ltac:(vm_compute; reflexivity) ltac:(vm_compute; reflexivity)
              ltac:(vm_compute; reflexivity) ltac:(vm_compute; reflexivity)
              ltac:(vm_compute; reflexivity) ltac:(vm_compute; reflexivity)
              ltac:(vm_compute; reflexivity) ltac:(vm_compute; reflexivity)
              ltac:(vm_compute; reflexivity))
    as (H1 & _ & _ & _ & H5).
  split; [exact H1 | exact H5].
Defined.

Section JobProcessMore.

Variable env : Env.

Lemma jobProcess_enter_fresh asset w :
  Cid (heap w !!! asset) ∉ downloading (dl w) ->
  jobProcess_enter asset w =
    (true,
     set_dl (set_downloading ({[Cid (heap w !!! asset)]} ∪ downloading (dl w)) (dl w))
       (set_trace (trace w ++ [EvLock Dlk; EvInFlightTest (Cid (heap w !!! asset)) false;
                               EvInFlightInsert (Cid (heap w !!! asset));
                               EvUnlock Dlk]) w)).
Proof.
  intros Hnin. unfold jobProcess_enter. prim. simpl.
  rewrite bool_decide_eq_false_2 by exact Hnin.
  f_equal. apply World_eq; simpl; try reflexivity. trace_eq.
Qed.

Lemma jobProcess_enter_duplicate asset w :
  Cid (heap w !!! asset) ∈ downloading (dl w) ->
  jobProcess_enter asset w =
    (false,
     set_trace (trace w ++ [EvLock Dlk; EvInFlightTest (Cid (heap w !!! asset)) true;
                            EvUnlock Dlk]) w).
Proof.
  intros Hin. unfold jobProcess_enter. prim. simpl.
  rewrite bool_decide_eq_true_2 by exact Hin.
  f_equal. apply World_eq; simpl; try reflexivity. trace_eq.
Qed.

(** [create] leaves the identity of its job alone. *)
Lemma create_job_fields job w :
  let a := heap w !!! job in
  let a' := heap (create env job w).2 !!! job in
  Cid a' = Cid a ∧ TotalSize a' = TotalSize a ∧ EndTime a' = EndTime a.
Proof.
  intros a a'. subst a'.
  pose proof (create_effect env job w) as (_ & _ & H). fold a in H.
  destruct ((create env job w).1) as [[j|] [e|]].
  - destruct H as [_ ->]. rewrite lookup_total_insert_eq. repeat split.
  - destruct H as (_ & _ & ->). rewrite lookup_total_insert_eq. repeat split.
  - rewrite H. repeat split.
  - contradiction.
Qed.

(** [jobProcess_work] is [create], then the report of the job as [create]
    left it, then the sleep. *)
Lemma jobProcess_work_effect asset w :
  let c := create env asset w in
  let r := jobProcess_work env asset w in
  heap r.2 = heap c.2 ∧ dl r.2 = dl c.2 ∧ dirs r.2 = dirs c.2 ∧
  files r.2 = files c.2 ∧
  trace r.2 = trace c.2 ++ [EvPushResult [heap c.2 !!! asset]; EvSleep].
Proof.
  intros c r. subst c r. unfold jobProcess_work, pushResult. prim.
  destruct (create env asset w) as [res w1]. simpl.
  repeat split. trace_eq.
Qed.

Lemma jobProcess_exit_effect asset w :
  jobProcess_exit asset w =
    (tt,
     set_dl (set_downloading (downloading (dl w) ∖ {[Cid (heap w !!! asset)]}) (dl w))
       (set_trace (trace w ++ [EvLock Dlk; EvInFlightDelete (Cid (heap w !!! asset));
                               EvUnlock Dlk]) w)).
Proof.
  unfold jobProcess_exit. prim. simpl.
  f_equal. apply World_eq; simpl; try reflexivity. trace_eq.
Qed.

(** The whole of [jobProcess] for a job that is not a duplicate. *)
Lemma jobProcess_fresh asset w :
  Cid (heap w !!! asset) ∉ downloading (dl w) ->
  let w' := (jobProcess env asset w).2 in
  reports (trace w') = reports (trace w) ++ [[heap w' !!! asset]] ∧
  Cid (heap w' !!! asset) = Cid (heap w !!! asset) ∧
  TotalSize (heap w' !!! asset) = TotalSize (heap w !!! asset) ∧
  EndTime (heap w' !!! asset) = EndTime (heap w !!! asset) ∧
  downloading (dl w') = downloading (dl w).
Proof.
  intros Hnin. unfold jobProcess.
  rewrite (bind_eq _ _ _ _ _ (jobProcess_enter_fresh asset w Hnin)).
  set (w1 := set_dl _ _).
  unfold bind.
  pose proof (jobProcess_work_effect asset w1) as (W1 & W2 & _ & _ & W5).
  pose proof (create_job_fields asset w1) as (F1 & F2 & F3).
  pose proof (create_effect env asset w1) as (C1 & C2 & _).
  destruct (jobProcess_work env asset w1) as [u w2]. simpl in W1, W2, W5.
  rewrite jobProcess_exit_effect. simpl.
  rewrite W1. split; [|split; [exact F1|split; [exact F2|split; [exact F3|]]]].
  - unfold reports in *. rewrite !omap_app, W5, !omap_app, C1. simpl.
    rewrite !omap_app. simpl. rewrite !app_nil_r. reflexivity.
  - rewrite W2. apply same_struct_fields in C2 as (_ & _ & _ & -> & _).
    rewrite F1. simpl. apply set_eq. intros x.
    rewrite elem_of_difference, elem_of_union, !elem_of_singleton. split.
    + intros [[Hx|Hx] Hn]; [contradiction | exact Hx].
    + intros Hx. split; [right; exact Hx|]. intros ->. contradiction.
Qed.

End JobProcessMore.

(** X10: a job that is not a duplicate is reported exactly once, whether
    [create] fails or not, and the report carries the job as [create] left
    it: same content id, declared size and end time as it came with. *)
Theorem jobProcess_reports_once env asset w :
  Cid (heap w !!! asset) ∉ downloading (dl w) ->
  let w' := (jobProcess env asset w).2 in
  reports (trace w') = reports (trace w) ++ [[heap w' !!! asset]] ∧
  Cid (heap w' !!! asset) = Cid (heap w !!! asset) ∧
  TotalSize (heap w' !!! asset) = TotalSize (heap w !!! asset) ∧
  EndTime (heap w' !!! asset) = EndTime (heap w !!! asset).
Proof.
  intros Hnin.
  destruct (jobProcess_fresh env asset w Hnin) as (H1 & H2 & H3 & H4 & _).
  repeat split; assumption.
Qed.

Lemma jobProcess_reports_once_witness :
  ("bafy1" ∉ downloading (dl (world_job [source "node3"] ∅ ∅))) ∧
  length (reports (trace (jobProcess env_denied 0%nat
                            (world_job [source "node3"] ∅ ∅)).2)) = 1%nat.
Proof.
  assert (H : Cid (heap (world_job [source "node3"] ∅ ∅) !!! 0%nat)
                ∉ downloading (dl (world_job [source "node3"] ∅ ∅)))
    by (vm_compute; set_solver).
  split; [vm_compute; set_solver|].
  destruct (jobProcess_reports_once env_denied 0%nat
              (world_job [source "node3"] ∅ ∅) H) as (H1 & _).
  rewrite H1. reflexivity.
Defined.

(** X11: [jobProcess] leaves the in-flight set as it found it: the entry it
    inserts is deleted again whether [create] and [pushResult] fail or not,
    and a duplicate changes nothing. *)
Theorem jobProcess_restores_downloading env asset w :
  downloading (dl (jobProcess env asset w).2) = downloading (dl w).
Proof.
  destruct (decide (Cid (heap w !!! asset) ∈ downloading (dl w))) as [Hin|Hnin].
  - unfold jobProcess.
    rewrite (bind_eq _ _ _ _ _ (jobProcess_enter_duplicate asset w Hin)).
    reflexivity.
  - destruct (jobProcess_fresh env asset w Hnin) as (_ & _ & _ & _ & H). exact H.
Qed.


(** ** More on the queue *)

Section QueueMore.

Variable env : Env.

Lemma exec_job_queue i s s' :
  exec_job env i s = Some s' ->
  JobQueue (dl (world s')) = JobQueue (dl (world s)) ∧
  poller s' = poller s ∧ enqueued s' = enqueued s ∧
  dispatcher s' = dispatcher s ∧ dispatched s' = dispatched s.
Proof.
  unfold exec_job. destruct (workers s !! i) as [g|]; [|discriminate].
  destruct (g_pc g).
  - pose proof (jobProcess_enter_keeps (g_asset g) (world s)) as (Hk & _).
    destruct (jobProcess_enter (g_asset g) (world s)) as [go w]. simpl in *.
    intros [= <-]. simpl. auto.
  - pose proof (jobProcess_work_keeps env (g_asset g) (world s)) as (Hk & _).
    destruct (jobProcess_work env (g_asset g) (world s)) as [u w]. simpl in *.
    intros [= <-]. simpl. auto.
  - pose proof (jobProcess_exit_keeps (g_asset g) (world s)) as (Hk & _).
    destruct (jobProcess_exit (g_asset g) (world s)) as [u w]. simpl in *.
    intros [= <-]. simpl. auto.
  - destruct (_ <? _); [|discriminate]. intros [= <-]. simpl. auto.
Qed.

(** The buffer of [JobQueue] holds one job at most. *)
Lemma JobQueue_cap_step l s s' :
  (length (JobQueue (dl (world s))) <= JobQueue_cap)%nat ->
  exec env l s = Some s' ->
  (length (JobQueue (dl (world s'))) <= JobQueue_cap)%nat.
Proof.
  intros Hcap. destruct l as [fetched| | | |i]; simpl.
  - destruct (poller s); [|discriminate].
    pose proof (async_tick_keeps fetched (world s)) as (H1 & _).
    destruct (async_tick fetched (world s)) as [pc w]. simpl in *.
    intros [= <-]. simpl. rewrite H1. exact Hcap.
  - destruct (poller s) as [|jobs]; [discriminate|].
    destruct jobs as [|j jobs]; simpl.
    + intros [= <-]. exact Hcap.
    + unfold bind, gets.
      destruct (Nat.ltb_spec (length (JobQueue (dl (world s)))) JobQueue_cap)
        as [Hlt|Hge]; [|discriminate].
      simpl. intros [= <-]. simpl. rewrite length_app. simpl. lia.
  - destruct (dispatcher s); [|discriminate].
    destruct (JobQueue (dl (world s))) as [|a q]; [discriminate|].
    intros [= <-]. simpl in *. lia.
  - destruct (dispatcher s); [discriminate|].
    destruct (downWorkerQueue (dl (world s))); [discriminate|].
    intros [= <-]. exact Hcap.
  - intros Hj. destruct (exec_job_queue i s s' Hj) as (-> & _). exact Hcap.
Qed.

Lemma JobQueue_cap_execs ls : ∀ s s',
  (length (JobQueue (dl (world s))) <= JobQueue_cap)%nat ->
  execs env ls s = Some s' ->
  (length (JobQueue (dl (world s'))) <= JobQueue_cap)%nat.
Proof.
  induction ls as [|l ls IH]; intros s s' Hcap; simpl.
  - intros [= <-]. exact Hcap.
  - destruct (exec env l s) as [s1|] eqn:Hs; [|discriminate].
    apply IH. apply (JobQueue_cap_step l s); assumption.
Qed.

(** The jobs of a batch go to [JobQueue] in their order. *)
Lemma batch_step l s s' :
  not_tick l -> exec env l s = Some s' ->
  enqueued s' ++ pending s' = enqueued s ++ pending s.
Proof.
  destruct l as [fetched| | | |i]; simpl; intros Hl; [contradiction| | | |].
  - unfold pending. destruct (poller s) as [|jobs]; [discriminate|].
    destruct jobs as [|j jobs]; simpl.
    + intros [= <-]. simpl. rewrite !app_nil_r. reflexivity.
    + unfold bind, gets. destruct (_ <? _)%nat; [|discriminate].
      simpl. intros [= <-]. simpl. rewrite <- app_assoc. reflexivity.
  - destruct (dispatcher s); [|discriminate].
    destruct (JobQueue (dl (world s))); [discriminate|].
    intros [= <-]. reflexivity.
  - destruct (dispatcher s); [discriminate|].
    destruct (downWorkerQueue (dl (world s))); [discriminate|].
    intros [= <-]. reflexivity.
  - intros Hj. destruct (exec_job_queue i s s' Hj) as (_ & Hp & -> & _).
    unfold pending. rewrite Hp. reflexivity.
Qed.

Lemma batch_execs ls : ∀ s s',
  Forall not_tick ls -> execs env ls s = Some s' ->
  enqueued s' ++ pending s' = enqueued s ++ pending s.
Proof.
  induction ls as [|l ls IH]; intros s s' Hall; simpl.
  - intros [= <-]. reflexivity.
  - inversion Hall as [|? ? Hl Hls]; subst.
    destruct (exec env l s) as [s1|] eqn:Hs; [|discriminate]. intros Hrest.
    rewrite (IH s1 s' Hls Hrest). apply (batch_step l s s1 Hl Hs).
Qed.

(** What [alloc] does to the heap. *)
Lemma alloc_effect assets : ∀ w,
  let r := alloc assets w in
  dl r.2 = dl w ∧ dirs r.2 = dirs w ∧ files r.2 = files w ∧ trace r.2 = trace w ∧
  (∀ p, p ∈ dom (heap w) -> heap r.2 !! p = heap w !! p) ∧
  dom (heap w) ⊆ dom (heap r.2) ∧
  Forall (fun p => p ∈ dom (heap r.2) ∧ p ∉ dom (heap w)) r.1 ∧
  map (fun p => heap r.2 !!! p) r.1 = assets.
Proof.
  induction assets as [|a assets IH]; intros w; simpl.
  { repeat split; auto. }
  prim.
  specialize (IH (set_heap (<[fresh (dom (heap w)) := a]> (heap w)) w)).
  pose proof (is_fresh (dom (heap w))) as Hfresh.
  remember (fresh (dom (heap w))) as p eqn:Hpdef. clear Hpdef.
  destruct (alloc assets _) as [ps w2]. simpl in *.
  destruct IH as (I1 & I2 & I3 & I4 & I5 & I6 & I7 & I8).
  assert (Hp1 : p ∈ dom (<[p := a]> (heap w)))
    by (rewrite dom_insert_L; apply elem_of_union; left; apply elem_of_singleton;
        reflexivity).
  assert (Hmono : ∀ q, q ∈ dom (heap w) -> q ∈ dom (<[p := a]> (heap w)))
    by (intros q Hq; rewrite dom_insert_L; apply elem_of_union; right; exact Hq).
  split; [exact I1|]. split; [exact I2|]. split; [exact I3|]. split; [exact I4|].
  split; [|split; [|split; [|]]].
  - intros q Hq. rewrite I5 by (apply Hmono; exact Hq).
    apply lookup_insert_ne. intros ->. contradiction.
  - intros q Hq. apply I6, Hmono, Hq.
  - constructor.
    + split; [apply I6; exact Hp1 | exact Hfresh].
    + eapply Forall_impl; [exact I7|]. intros q [Hq1 Hq2]. split; [exact Hq1|].
      intros Hq. apply Hq2, Hmono, Hq.
  - f_equal; [|exact I8].
    apply lookup_total_correct. rewrite I5 by exact Hp1. apply lookup_insert_eq.
Qed.

End QueueMore.

(** X12: in every state that the program reaches, the buffer of [JobQueue]
    holds one job at most, and the jobs sent on it are at most two more than
    the jobs that got a worker: the poller cannot run further ahead of the
    dispatcher than one job in the buffer and one in the dispatcher's hand. *)
Theorem JobQueue_backpressure env scheds tok area N ds ls s :
  execs env ls (boot scheds tok area N ds) = Some s ->
  (length (JobQueue (dl (world s))) <= 1)%nat ∧
  (length (enqueued s) <= length (dispatched s) + 2)%nat ∧
  (∀ s', exec env LPush s = Some s' -> pending s ≠ [] ->
         JobQueue (dl (world s)) = []).
Proof.
  intros Hex.
  assert (Hcap : (length (JobQueue (dl (world s))) <= 1)%nat).
  { apply (JobQueue_cap_execs env ls (boot scheds tok area N ds) s);
      [simpl; unfold JobQueue_cap; lia | exact Hex]. }
  pose proof (pool_inv_execs env N ls _ _ (pool_inv_boot scheds tok area N ds) Hex)
    as [_ _ I3].
  split; [exact Hcap|]. split.
  - rewrite I3, !length_app. unfold held. destruct (dispatcher s); simpl; lia.
  - intros s'. simpl. unfold pending. destruct (poller s) as [|jobs]; [discriminate|].
    destruct jobs as [|j jobs]; [intros _ H; contradiction H; reflexivity|].
    simpl. unfold bind, gets.
    destruct (JobQueue (dl (world s))) as [|a q]; [reflexivity|]. discriminate.
Qed.

Lemma JobQueue_backpressure_witness :
  (length (JobQueue (dl (world state1))) <= 1)%nat ∧
  (length (enqueued state1) <= length (dispatched state1) + 2)%nat.
Proof.
  assert (H : execs env_node3 run1 boot1 = Some state1) by (vm_compute; reflexivity).
  destruct (JobQueue_backpressure env_node3 [scheduler_of [source "node3"]] "token"
              "area" main_concurrent ∅ run1 state1 H) as (H1 & H2 & _).
  split; [exact H1 | exact H2].
Defined.


(** ** The in-flight set and the goroutines *)

Lemma owned_app w l1 l2 : owned w (l1 ++ l2) = owned w l1 ++ owned w l2.
Proof. unfold owned. rewrite filter_app, map_app. reflexivity. Qed.

Lemma owned_cons w g l :
  owned w (g :: l) =
    (if owns g then [Cid (heap w !!! g_asset g)] else []) ++ owned w l.
Proof.
  unfold owned. rewrite filter_cons.
  destruct (decide (Is_true (owns g))) as [H|H]; destruct (owns g); simpl in *;
    try reflexivity; try contradiction; exfalso; apply H; exact I.
Qed.

(** The owned content ids depend on the content ids of the goroutines'
    assets only. *)
Lemma owned_stable w w' gs :
  (∀ p, p ∈ dom (heap w) -> Cid (heap w' !!! p) = Cid (heap w !!! p)) ->
  Forall (fun p => p ∈ dom (heap w)) (map g_asset gs) ->
  owned w' gs = owned w gs.
Proof.
  intros Hc. induction gs as [|g gs IH]; simpl; intros Hall; [reflexivity|].
  inversion Hall as [|? ? Hg Hgs]; subst.
  rewrite !owned_cons, (IH Hgs), (Hc _ Hg). reflexivity.
Qed.

Lemma owned_middle w gs i g :
  gs !! i = Some g ->
  owned w gs =
    owned w (take i gs) ++
    (if owns g then [Cid (heap w !!! g_asset g)] else []) ++
    owned w (drop (S i) gs).
Proof.
  intros Hi. rewrite <- (take_drop_middle gs i g Hi) at 1.
  rewrite owned_app, owned_cons. reflexivity.
Qed.

Lemma owned_insert w gs i g g' :
  gs !! i = Some g ->
  owned w (<[i := g']> gs) =
    owned w (take i gs) ++
    (if owns g' then [Cid (heap w !!! g_asset g')] else []) ++
    owned w (drop (S i) gs).
Proof.
  intros Hi. rewrite insert_take_drop by (eapply lookup_lt_Some; exact Hi).
  rewrite owned_app, owned_cons. reflexivity.
Qed.

Lemma owned_delete w gs i :
  owned w (delete i gs) = owned w (take i gs) ++ owned w (drop (S i) gs).
Proof. rewrite delete_take_drop, owned_app. reflexivity. Qed.

Lemma assets_insert gs i g pc :
  gs !! i = Some g -> map g_asset (<[i := set_pc pc g]> gs) = map g_asset gs.
Proof.
  intros Hi. change (map g_asset) with (fmap (M := list) g_asset).
  rewrite list_fmap_insert. simpl. apply list_insert_id.
  rewrite list_lookup_fmap, Hi. reflexivity.
Qed.

Lemma assets_delete (P : ptr -> Prop) gs i :
  Forall P (map g_asset gs) -> Forall P (map g_asset (delete i gs)).
Proof.
  intros H. rewrite delete_take_drop, map_app. apply Forall_app. split.
  - rewrite <- (take_drop i gs), map_app in H. apply Forall_app in H as [H _]. exact H.
  - rewrite <- (take_drop (S i) gs), map_app in H. apply Forall_app in H as [_ H].
    exact H.
Qed.

Section Dedup.

Variable env : Env.

(** [jobProcess_work] keeps the content id of every asset, the domain of
    the heap and the in-flight set. *)
Lemma jobProcess_work_cids asset w :
  let w' := (jobProcess_work env asset w).2 in
  (∀ p, Cid (heap w' !!! p) = Cid (heap w !!! p)) ∧
  dom (heap w) ⊆ dom (heap w') ∧
  downloading (dl w') = downloading (dl w).
Proof.
  pose proof (jobProcess_work_effect env asset w) as (W1 & W2 & _).
  pose proof (create_effect env asset w) as (_ & C2 & C3).
  simpl. rewrite W1, W2.
  apply same_struct_fields in C2 as (_ & _ & _ & C2 & _).
  split; [|split; [|exact C2]].
  - intros p. destruct ((create env asset w).1) as [[j|] [e|]].
    + destruct C3 as [_ ->]. destruct (decide (p = asset)) as [->|Hne].
      * rewrite lookup_total_insert_eq. reflexivity.
      * rewrite lookup_total_insert_ne by congruence. reflexivity.
    + destruct C3 as (_ & _ & ->). destruct (decide (p = asset)) as [->|Hne].
      * rewrite lookup_total_insert_eq. reflexivity.
      * rewrite lookup_total_insert_ne by congruence. reflexivity.
    + rewrite C3. reflexivity.
    + contradiction.
  - destruct ((create env asset w).1) as [[j|] [e|]].
    + destruct C3 as [_ ->]. rewrite dom_insert_L. apply union_subseteq_r.
    + destruct C3 as (_ & _ & ->). rewrite dom_insert_L. apply union_subseteq_r.
    + rewrite C3. reflexivity.
    + contradiction.
Qed.

(** What a tick does to the heap and to the in-flight set. *)
Lemma async_tick_effect fetched w :
  let r := async_tick fetched w in
  downloading (dl r.2) = downloading (dl w) ∧
  (∀ p, p ∈ dom (heap w) -> heap r.2 !! p = heap w !! p) ∧
  dom (heap w) ⊆ dom (heap r.2) ∧
  match r.1 with
  | PPush jobs => Forall (fun p => p ∈ dom (heap r.2)) jobs
  | PTicker => True
  end.
Proof.
  unfold async_tick, bind, gets. destruct (running (dl w)); simpl.
  { repeat split; auto. }
  cbv [modify_dl modify emit ret]. destruct fetched as [assets [e|]]; simpl.
  { repeat split; auto. }
  match goal with
  | |- context [alloc assets ?w0] =>
      pose proof (alloc_effect assets w0) as (A1 & _ & _ & _ & A5 & A6 & A7 & _);
      destruct (alloc assets w0) as [jobs w'] eqn:Ha
  end.
  simpl in *. destruct jobs as [|j jobs]; simpl.
  - rewrite A1. repeat split; auto.
  - rewrite A1. split; [reflexivity|]. split; [exact A5|]. split; [exact A6|].
    eapply Forall_impl; [exact A7|]. intros p [Hp _]. exact Hp.
Qed.

End Dedup.

Lemma owned_heap w w' gs : heap w' = heap w -> owned w' gs = owned w gs.
Proof. intros H. unfold owned. rewrite H. reflexivity. Qed.

Lemma live_ptrs_split (P : ptr -> Prop) s :
  Forall P (live_ptrs s) ↔
  Forall P (pending s) ∧ Forall P (JobQueue (dl (world s))) ∧
  Forall P (held s) ∧ Forall P (map g_asset (workers s)).
Proof. unfold live_ptrs. rewrite !Forall_app. reflexivity. Qed.

(** A step of a goroutine that gives the world [w'] and the goroutines
    [gs'] keeps the invariant when the owned content ids fit [w'] again. *)
Lemma dedup_inv_update s w' gs' :
  dedup_inv s ->
  NoDup (owned w' gs') ->
  (∀ cid, cid ∈ downloading (dl w') ↔ cid ∈ owned w' gs') ->
  JobQueue (dl w') = JobQueue (dl (world s)) ->
  dom (heap (world s)) ⊆ dom (heap w') ->
  Forall (fun p => p ∈ dom (heap (world s))) (map g_asset gs') ->
  dedup_inv (set_world w' (set_workers gs' s)).
Proof.
  intros [N1 N2 N3] H1 H2 H3 H4 H5. split; simpl; [exact H1 | exact H2 |].
  apply live_ptrs_split in N3 as (P1 & P2 & P3 & P4).
  apply live_ptrs_split. unfold pending, held. simpl. rewrite H3.
  repeat split; (eapply Forall_impl; [eassumption|]); intros p Hp; apply H4, Hp.
Qed.

Section DedupSteps.

Variable env : Env.

Lemma dedup_inv_job i s s' :
  dedup_inv s -> exec_job env i s = Some s' -> dedup_inv s'.
Proof.
  intros Hinv. pose proof Hinv as [N1 N2 N3]. unfold exec_job.
  destruct (workers s !! i) as [g|] eqn:Hi; [|discriminate].
  apply live_ptrs_split in N3 as (_ & _ & _ & P4).
  pose proof (owned_middle (world s) _ i g Hi) as Hmid.
  set (c := Cid (heap (world s) !!! g_asset g)) in *.
  set (O1 := owned (world s) (take i (workers s))) in *.
  set (O2 := owned (world s) (drop (S i) (workers s))) in *.
  destruct (g_pc g) eqn:Hpc.
  - (* the first critical section *)
    assert (Hown : owns g = false) by (unfold owns; rewrite Hpc; reflexivity).
    rewrite Hown in Hmid. simpl in Hmid.
    destruct (decide (c ∈ downloading (dl (world s)))) as [Hin|Hnin].
    + rewrite (jobProcess_enter_duplicate (g_asset g) (world s) Hin).
      intros [= <-]. apply dedup_inv_update; try assumption; try reflexivity.
      * rewrite (owned_heap (world s)) by reflexivity.
        rewrite (owned_insert _ _ i g _ Hi). simpl. fold O1 O2.
        rewrite <- Hmid. exact N1.
      * intros cid. rewrite (owned_heap (world s)) by reflexivity.
        rewrite (owned_insert _ _ i g _ Hi). simpl. fold O1 O2.
        rewrite <- Hmid. apply N2.
      * rewrite (assets_insert _ i g _ Hi). exact P4.
    + rewrite (jobProcess_enter_fresh (g_asset g) (world s) Hnin).
      intros [= <-].
      assert (Hperm : O1 ++ [c] ++ O2 ≡ₚ c :: owned (world s) (workers s))
        by (rewrite Hmid; symmetry; apply Permutation_middle).
      apply dedup_inv_update; try assumption; try reflexivity.
      * rewrite (owned_heap (world s)) by reflexivity.
        rewrite (owned_insert _ _ i g _ Hi). simpl. fold O1 O2 c.
        change (c :: O2) with ([c] ++ O2). rewrite Hperm.
        apply NoDup_cons. split; [|exact N1]. intros Hc. apply Hnin, N2, Hc.
      * intros cid. rewrite (owned_heap (world s)) by reflexivity.
        rewrite (owned_insert _ _ i g _ Hi). simpl. fold O1 O2 c.
        change (c :: O2) with ([c] ++ O2). rewrite Hperm.
        rewrite elem_of_union, elem_of_singleton, elem_of_cons, N2. reflexivity.
      * rewrite (assets_insert _ i g _ Hi). exact P4.
  - (* the work *)
    assert (Hown : owns g = true) by (unfold owns; rewrite Hpc; reflexivity).
    pose proof (jobProcess_work_cids env (g_asset g) (world s)) as (W1 & W2 & W3).
    pose proof (jobProcess_work_keeps env (g_asset g) (world s)) as (Hq & _).
    destruct (jobProcess_work env (g_asset g) (world s)) as [u w']. simpl in *.
    intros [= <-].
    assert (Ho : owned w' (<[i := set_pc GSettled g]> (workers s))
                 = owned (world s) (workers s)).
    { rewrite (owned_insert _ _ i g _ Hi). simpl.
      rewrite <- (owned_stable (world s) w' (workers s)) by (intros; auto).
      rewrite (owned_middle w' _ i g Hi), Hown. reflexivity. }
    apply dedup_inv_update; try assumption.
    + rewrite Ho. exact N1.
    + intros cid. rewrite Ho, W3. apply N2.
    + rewrite (assets_insert _ i g _ Hi). exact P4.
  - (* the last critical section *)
    assert (Hown : owns g = true) by (unfold owns; rewrite Hpc; reflexivity).
    rewrite Hown in Hmid.
    rewrite (jobProcess_exit_effect (g_asset g) (world s)). intros [= <-].
    assert (Hperm : owned (world s) (workers s) ≡ₚ c :: (O1 ++ O2))
      by (rewrite Hmid; symmetry; apply Permutation_middle).
    assert (N1' := N1). rewrite Hperm in N1'. apply NoDup_cons in N1' as [Hc N1'].
    apply dedup_inv_update; try assumption; try reflexivity.
    + rewrite (owned_heap (world s)) by reflexivity.
      rewrite (owned_insert _ _ i g _ Hi). simpl. exact N1'.
    + intros cid. rewrite (owned_heap (world s)) by reflexivity.
      rewrite (owned_insert _ _ i g _ Hi). simpl. fold O1 O2 c.
      rewrite elem_of_difference, elem_of_singleton, N2, Hperm, elem_of_cons.
      split; [intros [[Hx|Hx] Hn]; [contradiction | exact Hx]|].
      intros Hx. split; [right; exact Hx|]. intros ->. contradiction.
    + rewrite (assets_insert _ i g _ Hi). exact P4.
  - (* the worker goes back to the pool *)
    assert (Hown : owns g = false) by (unfold owns; rewrite Hpc; reflexivity).
    rewrite Hown in Hmid. simpl in Hmid.
    destruct (_ <? _); [|discriminate]. intros [= <-].
    apply dedup_inv_update; try assumption; try reflexivity.
    + rewrite (owned_heap (world s)) by reflexivity.
      rewrite owned_delete. fold O1 O2. rewrite <- Hmid. exact N1.
    + intros cid. rewrite (owned_heap (world s)) by reflexivity.
      rewrite owned_delete. fold O1 O2. rewrite <- Hmid. apply N2.
    + apply assets_delete. exact P4.
Qed.

Lemma dedup_inv_step l s s' :
  dedup_inv s -> exec env l s = Some s' -> dedup_inv s'.
Proof.
  intros Hinv. pose proof Hinv as [N1 N2 N3].
  apply live_ptrs_split in N3 as (P1 & P2 & P3 & P4).
  destruct l as [fetched| | | |i]; simpl.
  - destruct (poller s) eqn:Hp; [|discriminate].
    pose proof (async_tick_effect fetched (world s)) as (A1 & A2 & A3 & A4).
    pose proof (async_tick_keeps fetched (world s)) as (Hq & _).
    destruct (async_tick fetched (world s)) as [pc w']. simpl in *.
    intros [= <-].
    assert (Ho : owned w' (workers s) = owned (world s) (workers s)).
    { apply owned_stable; [|exact P4]. intros p Hin.
      rewrite !lookup_total_alt, (A2 p Hin). reflexivity. }
    split; simpl.
    + rewrite Ho. exact N1.
    + intros cid. rewrite Ho, A1. apply N2.
    + apply live_ptrs_split. unfold pending, held. simpl. rewrite Hq.
      split; [destruct pc; [constructor | exact A4]|].
      repeat split; (eapply Forall_impl; [eassumption|]); intros p Hin; apply A3, Hin.
  - unfold pending in P1. destruct (poller s) as [|jobs]; [discriminate|].
    destruct jobs as [|j jobs]; simpl.
    + intros [= <-]. split; simpl; [exact N1 | exact N2 |].
      apply live_ptrs_split. repeat split; assumption || constructor.
    + unfold bind, gets. destruct (_ <? _)%nat; [|discriminate].
      simpl. intros [= <-]. inversion P1; subst. split; simpl; [exact N1 | exact N2 |].
      apply live_ptrs_split. unfold pending, held. simpl.
      repeat split; try assumption. apply Forall_app. split; [exact P2|].
      constructor; [assumption | constructor].
  - unfold held in P3. destruct (dispatcher s); [|discriminate].
    destruct (JobQueue (dl (world s))) as [|a q]; [discriminate|].
    intros [= <-]. inversion P2; subst. split; simpl; [exact N1 | exact N2 |].
    apply live_ptrs_split. unfold pending, held. simpl.
    repeat split; try assumption. constructor; [assumption | constructor].
  - unfold held in P3. destruct (dispatcher s) as [|a]; [discriminate|].
    destruct (downWorkerQueue (dl (world s))) as [|wrk q]; [discriminate|].
    intros [= <-]. inversion P3; subst. split; simpl.
    + rewrite (owned_heap (world s)) by reflexivity.
      rewrite owned_app, owned_cons. simpl. rewrite app_nil_r. exact N1.
    + intros cid. rewrite (owned_heap (world s)) by reflexivity.
      rewrite owned_app, owned_cons. simpl. rewrite app_nil_r. apply N2.
    + apply live_ptrs_split. unfold pending, held. simpl.
      split; [exact P1|]. split; [exact P2|]. split; [constructor|].
      rewrite map_app. apply Forall_app. split; [exact P4|].
      constructor; [assumption | constructor].
  - apply dedup_inv_job. exact Hinv.
Qed.

Lemma dedup_inv_execs ls : ∀ s s',
  dedup_inv s -> execs env ls s = Some s' -> dedup_inv s'.
Proof.
  induction ls as [|l ls IH]; intros s s' Hinv; simpl.
  - intros [= <-]. exact Hinv.
  - destruct (exec env l s) as [s1|] eqn:Hs; [|discriminate].
    apply IH. apply (dedup_inv_step l s); assumption.
Qed.

End DedupSteps.

Lemma dedup_inv_boot scheds tok area N ds : dedup_inv (boot scheds tok area N ds).
Proof.
  split; simpl.
  - constructor.
  - intros cid. split; intros H; [|inversion H].
    exfalso. revert H. apply not_elem_of_empty.
  - constructor.
Qed.

(** X14: in every state that the program reaches, the goroutines between
    their first and their last critical section have pairwise different
    content ids, and [downloading] holds these ids and no other: no content
    id is in the hands of two workers at once, and none stays in the set
    without a worker. *)
Theorem downloading_owned_once env scheds tok area N ds ls s :
  execs env ls (boot scheds tok area N ds) = Some s ->
  NoDup (owned (world s) (workers s)) ∧
  (∀ cid, cid ∈ downloading (dl (world s)) ↔ cid ∈ owned (world s) (workers s)) ∧
  (workers s = [] -> downloading (dl (world s)) = ∅).
Proof.
  intros Hex.
  pose proof (dedup_inv_execs env ls _ s (dedup_inv_boot scheds tok area N ds) Hex)
    as [N1 N2 _].
  split; [exact N1|]. split; [exact N2|].
  intros Hw. apply set_eq. intros cid. rewrite N2, Hw. simpl.
  split; intros H; [inversion H|]. exfalso. revert H. apply not_elem_of_empty.
Qed.

Lemma downloading_owned_once_witness :
  owned (world state1) (workers state1) = ["bafy1"] ∧
  ("bafy1" ∈ downloading (dl (world state1))).
Proof.
  assert (H : execs env_node3 run1 boot1 = Some state1) by (vm_compute; reflexivity).
  destruct (downloading_owned_once env_node3 [scheduler_of [source "node3"]] "token"
              "area" main_concurrent ∅ run1 state1 H) as (_ & H2 & _).
  assert (Ho : owned (world state1) (workers state1) = ["bafy1"])
    by (vm_compute; reflexivity).
  split; [exact Ho|]. apply H2. rewrite Ho. apply list_elem_of_here.
Defined.

(** ** First fit *)

(** The loop passes over [n] candidates that are on disk and cached at or
    over the threshold, one examination each. *)
Lemma getOutPath_loop_skip env dir n : ∀ c fuel o w,
  (c + n <= rune_z)%nat ->
  (∀ j, (c <= j < c + n)%nat ->
        candidate dir j ∈ dirs w ∧
        ∃ sz, dirSize (dl w) !! candidate dir j = Some sz ∧ maxSingleDirSize <= sz) ->
  getOutPath_loop env (n + fuel) dir c o w =
    getOutPath_loop env fuel dir (c + n)
      (match n with O => o | S _ => candidate dir (c + n - 1) end)
      (set_trace (trace w ++
                  flat_map (fun j => [EvExist (candidate dir j); EvLock Lk; EvUnlock Lk])
                           (seq c n)) w).
Proof.
  induction n as [|n IH]; intros c fuel o w Hc Hall.
  - simpl. rewrite Nat.add_0_r. f_equal. apply World_eq; simpl; try reflexivity.
    rewrite app_nil_r. reflexivity.
  - destruct (Hall c ltac:(lia)) as (Hin & sz & Hsz & Hge).
    assert (Hlt : (c < rune_z)%nat) by lia.
    change (S n + fuel)%nat with (S (n + fuel)).
    rewrite (getOutPath_loop_advance env (n + fuel) dir c o w sz _ Hlt
               (createOrGetSize_cached env _ _ _ Hin Hsz) Hge).
    rewrite IH; [| lia | intros j Hj; apply (Hall j); lia].
    replace (S c + n)%nat with (c + S n)%nat by lia.
    f_equal.
    + destruct n; f_equal; try lia.
    + apply World_eq; simpl; try reflexivity.
      rewrite <- app_assoc. reflexivity.
Qed.

(** X15: first fit.  When the candidates of a bucket before suffix [k]
    are all on disk and cached at or over the threshold, [getOutPath]
    returns the candidate of [k] if it is on disk and cached below the
    threshold, and also if it is not on disk and [os.Mkdir] can create it
    (no other goroutine interfering), which it then does. *)
Theorem getOutPath_first_fit env dir w k :
  suffix_rune k ->
  (∀ j, (rune_a <= j < k)%nat ->
        candidate dir j ∈ dirs w ∧
        ∃ sz, dirSize (dl w) !! candidate dir j = Some sz ∧ maxSingleDirSize <= sz) ->
  (∀ sz, candidate dir k ∈ dirs w -> dirSize (dl w) !! candidate dir k = Some sz ->
         sz < maxSingleDirSize ->
         (getOutPath env dir w).1 = (candidate dir k, None) ∧
         dirs (getOutPath env dir w).2 = dirs w ∧
         dl (getOutPath env dir w).2 = dl w) ∧
  (quiet env -> candidate dir k ∉ dirs w -> mkdir_err env (candidate dir k) = None ->
     (getOutPath env dir w).1 = (candidate dir k, None) ∧
     dirs (getOutPath env dir w).2 = {[candidate dir k]} ∪ dirs w ∧
     dl (getOutPath env dir w).2 = dl w).
Proof.
  intros [Hk1 Hk2] Hall. unfold rune_a, rune_z in Hk1, Hk2.
  assert (Hloop : getOutPath env dir w =
            getOutPath_loop env (S (25 - (k - rune_a))) dir k
              (match (k - rune_a)%nat with
               | O => EmptyString
               | S _ => candidate dir (rune_a + (k - rune_a) - 1)
               end)
              (set_trace (trace w ++
                 flat_map (fun j => [EvExist (candidate dir j); EvLock Lk; EvUnlock Lk])
                          (seq rune_a (k - rune_a))) w)).
  { unfold getOutPath.
    replace 26%nat with ((k - rune_a) + S (25 - (k - rune_a)))%nat
      by (unfold rune_a; lia).
    rewrite (getOutPath_loop_skip env dir (k - rune_a) rune_a);
      [| unfold rune_a, rune_z; lia
       | intros j Hj; apply Hall; unfold rune_a in *; lia].
    replace (rune_a + (k - rune_a))%nat with k by (unfold rune_a; lia).
    reflexivity. }
  rewrite Hloop. clear Hloop.
  assert (Hk : (k < rune_z)%nat) by (unfold rune_z; lia).
  match goal with
  | |- context [getOutPath_loop env _ dir k ?o ?w0] => set (o1 := o); set (w1 := w0)
  end.
  split.
  - intros sz Hin Hsz Hlt.
    rewrite (getOutPath_loop_select env _ dir k o1 w1 sz _ Hk
               (createOrGetSize_cached env (candidate dir k) w1 sz Hin Hsz) Hlt).
    repeat split.
  - intros Hq Hnin Hm.
    rewrite (getOutPath_loop_select env _ dir k o1 w1 0 _ Hk
               (createOrGetSize_absent env (candidate dir k) w1 Hq Hnin Hm) eq_refl).
    repeat split.
Qed.

Lemma getOutPath_first_fit_witness :
  (getOutPath env_ok "20240101" (world_a (18 * 2 ^ 30))).1
    = ("/carfile/titan/20240101b", None) ∧
  ("/carfile/titan/20240101b"
     ∈ dirs (getOutPath env_ok "20240101" (world_a (18 * 2 ^ 30))).2).
Proof.
  assert (Hk : suffix_rune 98) by (unfold suffix_rune, rune_a, rune_z; lia).
  assert (Hall : ∀ j, (rune_a <= j < 98)%nat ->
            candidate "20240101" j ∈ dirs (world_a (18 * 2 ^ 30)) ∧
            ∃ sz, dirSize (dl (world_a (18 * 2 ^ 30))) !! candidate "20240101" j
                  = Some sz ∧ maxSingleDirSize <= sz).
  { intros j Hj. unfold rune_a in Hj. assert (j = 97%nat) as -> by lia.
    split; [vm_compute; set_solver|].
    exists (18 * 2 ^ 30). split; [apply lookup_singleton_eq | reflexivity]. }
  destruct (getOutPath_first_fit env_ok "20240101" (world_a (18 * 2 ^ 30)) 98 Hk Hall)
    as [_ H].
  destruct H as (H1 & H2 & _);
    [exact quiet_env_ok | vm_compute; set_solver | reflexivity |].
  split; [exact H1|]. rewrite H2. apply elem_of_union. left.
  apply elem_of_singleton. reflexivity.
Defined.


(** ** The scheduler configurations of etcd *)

Lemma loadSchedulerConfigs_loop_ok SCUnmarshal kvs : ∀ cfgs m cm,
  Forall2 (fun kv c => SCUnmarshal (Value kv) = inl c) kvs cfgs ->
  ∃ m', loadSchedulerConfigs_loop SCUnmarshal kvs m cm =
          ((Some m', None), configMap_after kvs cfgs cm) ∧
        ∀ area, default [] (m' !! area) = default [] (m !! area) ++ of_area area cfgs.
Proof.
  induction kvs as [|kv kvs IH]; intros cfgs m cm Hall.
  - inversion Hall; subst. exists m. split; [reflexivity|].
    intros area. unfold of_area. simpl. rewrite app_nil_r. reflexivity.
  - inversion Hall as [|? c ? cfgs' Hkv Hrest]; subst. simpl. rewrite Hkv.
    destruct (IH cfgs'
                (<[AreaID c := match m !! AreaID c with
                               | Some configs => configs
                               | None => []
                               end ++ [c]]> m)
                (<[Key kv := c]> cm) Hrest) as (m' & Hm' & Harea).
    exists m'. split; [exact Hm'|].
    intros area. rewrite Harea. unfold of_area. rewrite filter_cons.
    destruct (decide (AreaID c = area)) as [<-|Hne].
    + rewrite lookup_insert_eq. simpl.
      destruct (m !! AreaID c); simpl; rewrite <- ?app_assoc; reflexivity.
    + rewrite lookup_insert_ne by exact Hne. reflexivity.
Qed.

Lemma loadSchedulerConfigs_loop_groups SCUnmarshal kvs : ∀ m cm m' cm',
  loadSchedulerConfigs_loop SCUnmarshal kvs m cm = ((Some m', None), cm') ->
  (∀ area l, m !! area = Some l -> l ≠ []) ->
  ∀ area l, m' !! area = Some l -> l ≠ [].
Proof.
  induction kvs as [|kv kvs IH]; intros m cm m' cm'; simpl.
  - intros [= <- _] H. exact H.
  - destruct (SCUnmarshal (Value kv)) as [c|e]; [|discriminate].
    intros Hloop Hm. apply (IH _ _ _ _ Hloop).
    intros area l. destruct (decide (AreaID c = area)) as [<-|Hne].
    + rewrite lookup_insert_eq. intros [= <-]. destruct (m !! AreaID c); simpl.
      * intros H. apply app_eq_nil in H as [_ H]. discriminate.
      * discriminate.
    + rewrite lookup_insert_ne by exact Hne. apply Hm.
Qed.

(** X16: when every value decodes, [loadSchedulerConfigs] returns a map that
    holds, for each area, the configurations of that area in the order of
    the key-value pairs, and no entry for an area without configuration;
    [configMap] holds the configuration of every key afterwards. *)
Theorem loadSchedulerConfigs_groups SCUnmarshal Kvs cfgs cm :
  Forall2 (fun kv c => SCUnmarshal (Value kv) = inl c) Kvs cfgs ->
  ∃ m, loadSchedulerConfigs (Kvs, None) SCUnmarshal cm =
         ((Some m, None), configMap_after Kvs cfgs cm) ∧
       (∀ area, default [] (m !! area) = of_area area cfgs) ∧
       (∀ area, m !! area = None ↔ of_area area cfgs = []).
Proof.
  intros Hall. unfold loadSchedulerConfigs.
  destruct (loadSchedulerConfigs_loop_ok SCUnmarshal Kvs cfgs ∅ cm Hall)
    as (m & Hm & Harea).
  exists m. split; [exact Hm|].
  assert (Ha : ∀ area, default [] (m !! area) = of_area area cfgs).
  { intros area. rewrite Harea, lookup_empty. reflexivity. }
  split; [exact Ha|]. intros area. specialize (Ha area). split.
  - intros Hn. rewrite Hn in Ha. simpl in Ha. symmetry. exact Ha.
  - intros Hn. destruct (m !! area) as [l|] eqn:Hl; [|reflexivity].
    exfalso. simpl in Ha.
    apply (loadSchedulerConfigs_loop_groups SCUnmarshal Kvs ∅ cm m _ Hm
             ltac:(intros a l'; rewrite lookup_empty; discriminate) area l Hl).
    congruence.
Qed.

Lemma loadSchedulerConfigs_groups_witness :
  ∃ m, (loadSchedulerConfigs
          ([ {| Key := "k1"; Value := [Byte.x01] |};
             {| Key := "k2"; Value := [Byte.x02] |};
             {| Key := "k3"; Value := [Byte.x03] |} ], None) decode1 ∅).1
       = (Some m, None) ∧
       map SchedulerURL (default [] (m !! "asia")) = ["https://s1"; "https://s3"].
Proof.
  destruct (loadSchedulerConfigs_groups decode1
              [ {| Key := "k1"; Value := [Byte.x01] |};
                {| Key := "k2"; Value := [Byte.x02] |};
                {| Key := "k3"; Value := [Byte.x03] |} ]
              [ {| SchedulerURL := "https://s1"; AreaID := "asia"; AccessToken := "t" |};
                {| SchedulerURL := "https://s2"; AreaID := "europe"; AccessToken := "t" |};
                {| SchedulerURL := "https://s3"; AreaID := "asia"; AccessToken := "t" |} ]
              ∅ ltac:(repeat constructor)) as (m & Hm & Ha & _).
  exists m. split; [rewrite Hm; reflexivity|]. rewrite Ha. reflexivity.
Defined.

(** X17: when a value does not decode, [loadSchedulerConfigs] returns the
    error of the decoder and no map, but [configMap] has taken the
    configurations of the key-value pairs before the bad one. *)
Theorem loadSchedulerConfigs_partial SCUnmarshal pre kv post cfgs err cm :
  Forall2 (fun kv c => SCUnmarshal (Value kv) = inl c) pre cfgs ->
  SCUnmarshal (Value kv) = inr err ->
  loadSchedulerConfigs (pre ++ kv :: post, None) SCUnmarshal cm =
    ((None, Some err), configMap_after pre cfgs cm).
Proof.
  intros Hall Hkv. unfold loadSchedulerConfigs.
  generalize (∅ : gmap string (list SchedulerCfg)). revert cfgs cm Hall.
  induction pre as [|x pre IH]; intros cfgs cm Hall m.
  - inversion Hall; subst. simpl. rewrite Hkv. reflexivity.
  - inversion Hall as [|? c ? cfgs' Hx Hrest]; subst. simpl. rewrite Hx.
    apply IH. exact Hrest.
Qed.

Lemma loadSchedulerConfigs_partial_witness :
  loadSchedulerConfigs
    ([ {| Key := "k1"; Value := [Byte.x01] |}; {| Key := "k2"; Value := [] |};
       {| Key := "k3"; Value := [Byte.x03] |} ], None) decode1 ∅
  = ((None, Some "invalid character"),
     {[ "k1" := {| SchedulerURL := "https://s1"; AreaID := "asia"; AccessToken := "t" |} ]}).
Proof.
  etransitivity; [exact (loadSchedulerConfigs_partial decode1
             [ {| Key := "k1"; Value := [Byte.x01] |} ]
             {| Key := "k2"; Value := [] |}
             [ {| Key := "k3"; Value := [Byte.x03] |} ]
             [ {| SchedulerURL := "https://s1"; AreaID := "asia"; AccessToken := "t" |} ]
             "invalid character" ∅ ltac:(repeat constructor) eq_refl)|].
  reflexivity.
Defined.


(** ** The first revision of [download] *)

Section V1More.

Variable env : Env.

Lemma V1_download_infos_effect infos : ∀ outPath cid size outErr w,
  let file := filepath_Join outPath (cid +:+ ".car") in
  let r := V1.download_infos env infos outPath cid size outErr w in
  match r.1 with
  | inl None => dl r.2 = dirSize_add outPath size (dl w) ∧ is_Some (files r.2 !! file)
  | inl (Some _) => dl r.2 = dl w
  | inr outErr' =>
      dl r.2 = dl w ∧ files r.2 = files w ∧
      (outErr' = outErr ∧ infos = [] ∨
       infos ≠ [] ∧ is_Some outErr' ∧ forallb (request_fails env cid) infos = true)
  end.
Proof.
  induction infos as [|x infos IH]; intros outPath cid size outErr w file; simpl.
  { repeat split. left. split; reflexivity. }
  unfold request, os_Create, io_Copy. prim.
  destruct (request_result env (Address x) cid) as [reader|e] eqn:Hreq; simpl.
  2:{ assert (Hx : request_fails env cid x = true)
        by (unfold request_fails; rewrite Hreq; reflexivity).
      rewrite Hx. simpl.
      specialize (IH outPath cid size (Some e)
                    (set_trace (trace w ++ [EvRequest (endpoint (Address x) cid)]) w)).
      simpl in IH.
      destruct (V1.download_infos env infos outPath cid size (Some e) _)
        as [[[e'|]|o'] w']; simpl in *; try exact IH.
      destruct IH as (I1 & I2 & I3). split; [exact I1|]. split; [exact I2|].
      right. split; [discriminate|].
      destruct I3 as [[-> ->]|(_ & Hs & Hf)]; [split; [eauto | reflexivity]|].
      split; assumption. }
  fold file.
  destruct (create_err env file) as [e|]; simpl; [reflexivity|].
  destruct (write_err env file) as [e|]; simpl; [reflexivity|].
  destruct (read_err reader) as [e|]; simpl; [reflexivity|].
  split; [reflexivity|]. rewrite lookup_insert_eq. eauto.
Qed.

Lemma V1_download_schedulers_effect scheds : ∀ outPath cid size outErr w,
  let file := filepath_Join outPath (cid +:+ ".car") in
  let r := V1.download_schedulers env scheds outPath cid size outErr w in
  match r.1 with
  | None =>
      (dl r.2 = dirSize_add outPath size (dl w) ∧ is_Some (files r.2 !! file)) ∨
      (outErr = None ∧ scheds = [] ∧ dl r.2 = dl w ∧ files r.2 = files w)
  | Some _ => dl r.2 = dl w
  end.
Proof.
  induction scheds as [|s scheds IH]; intros outPath cid size outErr w file; simpl.
  { destruct outErr; [reflexivity|]. right. repeat split. }
  prim.
  assert (Hnext : ∀ e w1, dl w1 = dl w ->
            match (V1.download_schedulers env scheds outPath cid size (Some e) w1).1 with
            | None =>
                (dl (V1.download_schedulers env scheds outPath cid size (Some e) w1).2
                 = dirSize_add outPath size (dl w) ∧
                 is_Some (files (V1.download_schedulers env scheds outPath cid size
                                   (Some e) w1).2 !! file)) ∨
                (outErr = None ∧ s :: scheds = [] ∧
                 dl (V1.download_schedulers env scheds outPath cid size (Some e) w1).2
                 = dl w ∧
                 files (V1.download_schedulers env scheds outPath cid size
                          (Some e) w1).2 = files w)
            | Some _ =>
                dl (V1.download_schedulers env scheds outPath cid size (Some e) w1).2
                = dl w
            end).
  { intros e w1 Hw1. specialize (IH outPath cid size (Some e) w1). simpl in IH.
    destruct (V1.download_schedulers env scheds outPath cid size (Some e) w1)
      as [[e'|] w2]; simpl in *.
    - congruence.
    - destruct IH as [[A B]|(A & _)]; [|discriminate]. left. split; [congruence|exact B]. }
  destruct (V1.Api s cid) as [infos [e|]]; simpl; [apply Hnext; reflexivity|].
  destruct (length infos =? 0)%nat eqn:Hlen; [apply Hnext; reflexivity|].
  pose proof (V1_download_infos_effect infos outPath cid size outErr
                (set_trace (trace w ++ [EvSourceLookup cid]) w)) as Hi.
  simpl in Hi.
  destruct (V1.download_infos env infos outPath cid size outErr _)
    as [[[e|]|o'] w1]; simpl in *.
  - exact Hi.
  - left. exact Hi.
  - destruct Hi as (I1 & I2 & [[_ ->]|(_ & [e He] & _)]); [discriminate|].
    subst o'. apply Hnext. exact I1.
Qed.

End V1More.

(** X18: the first revision of [download], with at least one scheduler,
    returns [nil] only when a source has completed its copy, and then the
    cache entry of [outPath] has grown by the declared size; when every
    lookup or request fails, it returns an error and the [Downloader] is as
    before. *)
Theorem V1_download_nil_after_copy env scheds outPath cid size w :
  scheds ≠ [] ->
  let r := V1.download env scheds outPath cid size w in
  (r.1 = None ->
     dl r.2 = dirSize_add outPath size (dl w) ∧
     is_Some (files r.2 !! filepath_Join outPath (cid +:+ ".car"))) ∧
  (∀ e, r.1 = Some e -> dl r.2 = dl w).
Proof.
  intros Hne r. subst r. unfold V1.download.
  pose proof (V1_download_schedulers_effect env scheds outPath cid size None w) as H.
  simpl in H.
  destruct (V1.download_schedulers env scheds outPath cid size None w) as [[e|] w'];
    simpl in *.
  - split; [discriminate|]. intros _ _. exact H.
  - split; [|discriminate]. intros _.
    destruct H as [H|(_ & Hs & _)]; [exact H | contradiction].
Qed.

Lemma V1_download_nil_after_copy_witness :
  (V1.download env_ok
     [ {| V1.Api := fun _ => ([source "node1"; source "node2"], None) |} ]
     "/carfile/titan/20240101a" "bafy1" 3 world_empty).1
    = Some "connection refused" ∧
  dl (V1.download env_ok
        [ {| V1.Api := fun _ => ([source "node1"; source "node2"], None) |} ]
        "/carfile/titan/20240101a" "bafy1" 3 world_empty).2 = dl world_empty.
Proof.
  assert (H : (V1.download env_ok
                 [ {| V1.Api := fun _ => ([source "node1"; source "node2"], None) |} ]
                 "/carfile/titan/20240101a" "bafy1" 3 world_empty).1
              = Some "connection refused") by (vm_compute; reflexivity).
  split; [exact H|].
  destruct (V1_download_nil_after_copy env_ok
              [ {| V1.Api := fun _ => ([source "node1"; source "node2"], None) |} ]
              "/carfile/titan/20240101a" "bafy1" 3 world_empty
              ltac:(discriminate)) as [_ H2].
  apply (H2 _ H).
Defined.

(** * Admission, the pool and the queue *)

(** ** Admission against the cached size *)

Lemma append_inj_l (a x y : string) : a +:+ x = a +:+ y -> x = y.
Proof. induction a as [|c a IH]; simpl; [auto|]. intros [= H]. auto. Qed.

(** The candidates of a bucket differ by their runes. *)
Lemma candidate_inj dir j k :
  (j < 256)%nat -> (k < 256)%nat -> candidate dir j = candidate dir k -> j = k.
Proof.
  intros Hj Hk. unfold candidate, filepath_Join, Sprintf_sc. intros H.
  repeat apply append_inj_l in H. injection H as H.
  rewrite <- (nat_ascii_embedding j Hj), <- (nat_ascii_embedding k Hk), H.
  reflexivity.
Qed.

Section Admission.

Variable env : Env.

(** The directory that the loop of [getOutPath] chooses, if it was on disk
    and cached before the call, was cached below the threshold, unless it
    is the last one that the loop examines. *)
Lemma getOutPath_loop_admission dir (Hq : quiet env) fuel : ∀ c o w p,
  (rune_z + 1 <= fuel + c)%nat ->
  (getOutPath_loop env fuel dir c o w).1 = (p, None) ->
  (p = o ∧ (rune_z <= c)%nat) ∨
  (∃ k, (c <= k < rune_z)%nat ∧ p = candidate dir k ∧
        ∀ S, p ∈ dirs w -> dirSize (dl w) !! p = Some S ->
             S < maxSingleDirSize ∨ k = rune_last).
Proof.
  induction fuel as [|fuel IH]; intros c o w p Hfuel; simpl.
  { intros [= ->]. left. split; [reflexivity | lia]. }
  destruct (Nat.ltb_spec c rune_z) as [Hc|Hc].
  2:{ intros [= ->]. left. split; [reflexivity | exact Hc]. }
  unfold bind.
  pose proof (createOrGetSize_effect env (candidate dir c) w)
    as (E1 & _ & _ & E4 & _).
  pose proof (createOrGetSize_cached env (candidate dir c) w) as Hcached.
  destruct (createOrGetSize env (candidate dir c) w) as [[size err] w1].
  simpl in E1, E4. destruct err as [e|]; simpl; [discriminate|].
  destruct (Z.ltb_spec size maxSingleDirSize) as [Hlt|Hge]; simpl.
  - intros [= <-]. right. exists c. split; [lia|]. split; [reflexivity|].
    intros S Hin HS. left. specialize (Hcached S Hin HS). congruence.
  - intros Hp. destruct (IH (S c) (candidate dir c) w1 p ltac:(lia) Hp)
      as [[-> Hz]|(k & Hk & -> & Hadm)].
    + right. exists c. split; [lia|]. split; [reflexivity|].
      intros S _ _. right. unfold rune_last, rune_z in *. lia.
    + right. exists k. split; [lia|]. split; [reflexivity|].
      intros S Hin HS. apply Hadm; [|apply E1; exact HS].
      destruct (E4 Hq) as [Hsub _]. apply Hsub. exact Hin.
Qed.

Lemma getOutPath_admission dir w p S :
  quiet env ->
  (getOutPath env dir w).1 = (p, None) ->
  p ∈ dirs w -> dirSize (dl w) !! p = Some S ->
  S < maxSingleDirSize ∨ p = candidate dir rune_last.
Proof.
  intros Hq Hp Hin HS. unfold getOutPath in Hp.
  destruct (getOutPath_loop_admission dir Hq 26 rune_a EmptyString w p
              ltac:(unfold rune_a, rune_z; lia) Hp)
    as [[_ Hz]|(k & Hk & Hpk & Hadm)].
  - unfold rune_a, rune_z in Hz. lia.
  - destruct (Hadm S Hin HS) as [Hlt| ->]; [left; exact Hlt|]. right. exact Hpk.
Qed.

(** The first directory of a bucket, on disk and cached: chosen if and
    only if it is cached below the threshold. *)
Lemma getOutPath_first_admission dir w p S :
  (getOutPath env dir w).1 = (p, None) ->
  candidate dir rune_a ∈ dirs w ->
  dirSize (dl w) !! candidate dir rune_a = Some S ->
  (S < maxSingleDirSize -> p = candidate dir rune_a) ∧
  (maxSingleDirSize <= S -> p ≠ candidate dir rune_a).
Proof.
  intros Hp Hin HS. split.
  - intros Hlt. rewrite (getOutPath_first env dir w S Hin HS Hlt) in Hp.
    simpl in Hp. congruence.
  - intros Hge. unfold getOutPath in Hp.
    rewrite (getOutPath_loop_advance env 25 dir rune_a EmptyString w S _
               ltac:(unfold rune_a, rune_z; lia)
               (createOrGetSize_cached env _ w S Hin HS) Hge) in Hp.
    match type of Hp with
    | (getOutPath_loop env ?f dir ?c ?o ?w').1 = _ =>
        pose proof (getOutPath_loop_effect env f dir c o w')
          as (_ & _ & _ & _ & _ & _ & _ & H);
        cbv zeta in H; rewrite Hp in H
    end.
    destruct H as [(_ & _ & [H|H])|(k & Hk & -> & _)].
    + discriminate H.
    + unfold rune_a, rune_z in H. lia.
    + intros Heq. apply candidate_inj in Heq; unfold rune_a, rune_z in *; lia.
Qed.

End Admission.

(** C5: the directory that [getOutPath] chooses for a job is chosen by the
    cached sizes alone, whatever the declared size of the job: a directory
    on disk and cached at [S] before the call is chosen only if [S] is
    below the threshold (or if it is the last one that the loop examines),
    and the first directory of the bucket, on disk and cached at [S], is
    chosen if and only if [S] is below the threshold.  When the download
    then completes, the cached size of the chosen directory grows by the
    declared [TotalSize], not by the number of bytes copied, between a
    [Lock] and an [Unlock] of the allocator's mutex that follow the copy,
    and no other entry of the cache changes.  Cached at 17 GiB under the threshold of
    18 GiB, the first directory takes a job of 20 GiB and is cached at 37
    GiB afterwards. *)
Theorem create_overshoot env w job a p s pre src post reader :
  heap w !! job = Some a ->
  (getOutPath env (Format (EndTime a)) w).1 = (p, None) ->
  List.find (fun sd => String.eqb (AreaId sd) (areaId (dl w))) (schedulers (dl w))
    = Some s ->
  Api s (Cid a) = ({| SourceList := pre ++ src :: post |}, None) ->
  forallb (request_fails env (Cid a)) pre = true ->
  request_result env (Address src) (Cid a) = inl reader ->
  create_err env (filepath_Join p (Cid a +:+ ".car")) = None ->
  write_err env (filepath_Join p (Cid a +:+ ".car")) = None ->
  read_err reader = None ->
  let dirA := candidate (Format (EndTime a)) rune_a in
  let w1 := (getOutPath env (Format (EndTime a)) w).2 in
  let r := create env job w in
  r.1 = (Some job, None) ∧
  heap r.2 !! job = Some (set_Path p a) ∧
  files r.2 !! filepath_Join p (Cid a +:+ ".car") = Some (data reader) ∧
  trace r.2 =
    trace w1 ++ [EvSourceLookup (Cid a)] ++ requests_of (Cid a) (pre ++ [src]) ++
    [EvCreate (filepath_Join p (Cid a +:+ ".car"));
     EvCopy (filepath_Join p (Cid a +:+ ".car"));
     EvLock Lk; EvDirSizeAdd p (TotalSize a); EvUnlock Lk] ∧
  dirSize (dl r.2) !! p
    = Some (wrap64 (default 0 (dirSize (dl w1) !! p) + TotalSize a)) ∧
  (∀ d, d ≠ p -> dirSize (dl r.2) !! d = dirSize (dl w1) !! d) ∧
  (∀ S, dirSize (dl w) !! p = Some S ->
     dirSize (dl r.2) !! p = Some (wrap64 (S + TotalSize a))) ∧
  (quiet env -> ∀ S, p ∈ dirs w -> dirSize (dl w) !! p = Some S ->
     S < maxSingleDirSize ∨ p = candidate (Format (EndTime a)) rune_last) ∧
  (∀ S, dirA ∈ dirs w -> dirSize (dl w) !! dirA = Some S ->
     (S < maxSingleDirSize -> p = dirA) ∧ (maxSingleDirSize <= S -> p ≠ dirA)) ∧
  (dirA ∈ dirs w -> dirSize (dl w) !! dirA = Some (17 * 2 ^ 30) ->
   TotalSize a = 20 * 2 ^ 30 ->
   p = dirA ∧ dirSize (dl r.2) !! dirA = Some (37 * 2 ^ 30) ∧
   maxSingleDirSize = 18 * 2 ^ 30 ∧ maxSingleDirSize < 37 * 2 ^ 30).
Proof.
  intros Hjob Hp Hfind Hapi Hpre Hsrc Hcreate Hwrite Hread dirA w1 r.
  assert (Hload : heap w !!! job = a) by (apply lookup_total_correct; exact Hjob).
  pose proof (getOutPath_cache_effect env job w) as (G1 & G2 & _).
  rewrite Hload in G1, G2. fold w1 in G1, G2.
  apply same_struct_fields in G2 as (Gs & Ga & _).
  pose proof (getOutPath_loop_effect env 26 (Format (EndTime a)) rune_a EmptyString w)
    as (Gkeep & _).
  fold (getOutPath env (Format (EndTime a)) w) in Gkeep. fold w1 in Gkeep.
  assert (Hr : r.1 = (Some job, None) ∧
               heap r.2 = <[job := set_Path p a]> (heap w) ∧
               files r.2 = <[filepath_Join p (Cid a +:+ ".car") := data reader]>
                             (<[filepath_Join p (Cid a +:+ ".car") := []]> (files w1)) ∧
               dl r.2 = dirSize_add p (TotalSize a) (dl w1) ∧
               trace r.2 =
                 trace w1 ++ [EvSourceLookup (Cid a)] ++
                 requests_of (Cid a) (pre ++ [src]) ++
                 [EvCreate (filepath_Join p (Cid a +:+ ".car"));
                  EvCopy (filepath_Join p (Cid a +:+ ".car"));
                  EvLock Lk; EvDirSizeAdd p (TotalSize a); EvUnlock Lk]).
  { subst r w1. unfold create. cbv [bind load gets]. rewrite Hload.
    destruct (getOutPath env (Format (EndTime a)) w) as [[p' e'] w1].
    simpl in Hp, G1, Gs, Ga |- *. injection Hp as -> ->.
    rewrite Gs, Ga, Hfind. simpl. rewrite G1, Hload.
    rewrite (download_nonempty env s p (Cid a) (TotalSize a) _ _ Hapi)
      by (destruct pre; discriminate).
    rewrite (download_loop_failed env pre (src :: post) p _ _ _ Hpre).
    rewrite (download_loop_answer env src post p _ _ _ reader Hsrc).
    rewrite Hcreate, Hwrite, Hread.
    cbv [store modify ret]. simpl. rewrite G1, Hload. repeat split.
    unfold requests_of. rewrite map_app. trace_eq. }
  destruct Hr as (R1 & R2 & R3 & R4 & R5).
  assert (Hsz : ∀ S, dirSize (dl w) !! p = Some S ->
                     dirSize (dl r.2) !! p = Some (wrap64 (S + TotalSize a))).
  { intros S HS. rewrite R4. unfold dirSize_add. simpl.
    rewrite (Gkeep p S HS). simpl. apply lookup_insert_eq. }
  split; [exact R1|].
  split; [rewrite R2; apply lookup_insert_eq|].
  split; [rewrite R3; apply lookup_insert_eq|].
  split; [exact R5|].
  split; [rewrite R4; unfold dirSize_add; simpl; apply lookup_insert_eq|].
  split; [intros d Hd; rewrite R4; unfold dirSize_add; simpl;
          apply lookup_insert_ne; congruence|].
  split; [exact Hsz|].
  split; [intros Hq S Hin HS;
          apply (getOutPath_admission env _ w p S Hq Hp Hin HS)|].
  split; [intros S Hin HS;
          apply (getOutPath_first_admission env _ w p S Hp Hin HS)|].
  intros Hin HS HT.
  destruct (getOutPath_first_admission env _ w p _ Hp Hin HS) as [Hadm _].
  assert (Hpa : p = dirA) by (apply Hadm; reflexivity).
  split; [exact Hpa|]. split; [|split; reflexivity].
  rewrite <- Hpa in HS |- *. rewrite (Hsz _ HS), HT. reflexivity.
Qed.

Lemma create_overshoot_witness :
  (getOutPath env_node3 "20240101" (world_cached (17 * 2 ^ 30))).1
    = ("/carfile/titan/20240101a", None) ∧
  dirSize (dl (create env_node3 0%nat (world_cached (17 * 2 ^ 30))).2)
    !! "/carfile/titan/20240101a" = Some (37 * 2 ^ 30) ∧
  maxSingleDirSize < 37 * 2 ^ 30 ∧
  (getOutPath env_node3 "20240101" (world_cached (18 * 2 ^ 30))).1
    = ("/carfile/titan/20240101b", None) ∧
  dirSize (dl (create env_node3 0%nat (world_cached (18 * 2 ^ 30))).2)
    !! "/carfile/titan/20240101b" = Some (20 * 2 ^ 30) ∧
  dirSize (dl (create env_node3 0%nat (world_cached (18 * 2 ^ 30))).2)
    !! "/carfile/titan/20240101a" = Some (18 * 2 ^ 30).
Proof.
  assert (Ha : (getOutPath env_node3 (Format (EndTime asset1))
                  (world_cached (17 * 2 ^ 30))).1
               = ("/carfile/titan/20240101a", None)) by (vm_compute; reflexivity).
  assert (Hb : (getOutPath env_node3 (Format (EndTime asset1))
                  (world_cached (18 * 2 ^ 30))).1
               = ("/carfile/titan/20240101b", None)) by (vm_compute; reflexivity).
  assert (Hin : ∀ S, candidate (Format (EndTime asset1)) rune_a
                       ∈ dirs (world_cached S))
    by (intros S; vm_compute; set_solver).
  destruct (create_overshoot env_node3 (world_cached (17 * 2 ^ 30)) 0%nat asset1
              "/carfile/titan/20240101a" (scheduler_of [source "node3"])
              [] (source "node3") []
              {| data := [Byte.x01; Byte.x02; Byte.x03]; read_err := None |}
              ltac:(vm_compute; reflexivity) Ha
              ltac:(vm_compute; reflexivity) ltac:(vm_compute; reflexivity)
              ltac:(vm_compute; reflexivity) ltac:(vm_compute; reflexivity)
              ltac:(vm_compute; reflexivity) ltac:(vm_compute; reflexivity)
              ltac:(vm_compute; reflexivity))
    as (_ & _ & _ & _ & _ & _ & _ & _ & _ & H17).
  destruct (H17 (Hin _) ltac:(vm_compute; reflexivity) eq_refl) as (_ & H37 & _ & Hover).
  destruct (create_overshoot env_node3 (world_cached (18 * 2 ^ 30)) 0%nat asset1
              "/carfile/titan/20240101b" (scheduler_of [source "node3"])
              [] (source "node3") []
              {| data := [Byte.x01; Byte.x02; Byte.x03]; read_err := None |}
              ltac:(vm_compute; reflexivity) Hb
              ltac:(vm_compute; reflexivity) ltac:(vm_compute; reflexivity)
              ltac:(vm_compute; reflexivity) ltac:(vm_compute; reflexivity)
              ltac:(vm_compute; reflexivity) ltac:(vm_compute; reflexivity)
              ltac:(vm_compute; reflexivity))
    as (_ & _ & _ & _ & Hnew & Hother & _).
  split; [exact Ha|]. split; [exact H37|]. split; [exact Hover|].
  split; [exact Hb|]. split.
  - etransitivity; [exact Hnew|]. vm_compute. reflexivity.
  - etransitivity; [apply Hother; discriminate|]. vm_compute. reflexivity.
Defined.

(** ** The life of a job in a worker *)

Lemma count_ev_app f a b : count_ev f (a ++ b) = (count_ev f a + count_ev f b)%nat.
Proof. unfold count_ev. rewrite List.filter_app, length_app. reflexivity. Qed.

Lemma count_ev_life f tr :
  (∀ e, f e = true -> is_life e = true) -> count_ev f tr = count_ev f (life tr).
Proof.
  intros Hf. unfold count_ev, life. induction tr as [|e tr IH]; [reflexivity|].
  simpl. destruct (f e) eqn:He.
  - rewrite (Hf e He). simpl. rewrite He. simpl. f_equal. exact IH.
  - destruct (is_life e); [simpl; rewrite He|]; exact IH.
Qed.

Lemma count_emits f l w w' :
  (∀ e, f e = true -> is_life e = true) -> emits l w w' ->
  count_ev f (trace w') = (count_ev f (trace w) + count_ev f l)%nat.
Proof.
  intros Hf (tr & -> & <-). rewrite count_ev_app. f_equal. apply count_ev_life, Hf.
Qed.

Lemma checked_dup_life e : checked_dup e = true -> is_life e = true.
Proof. destruct e; simpl; intros H; try discriminate H; reflexivity. Qed.

Lemma checked_new_life e : checked_new e = true -> is_life e = true.
Proof. destruct e; simpl; intros H; try discriminate H; reflexivity. Qed.

Lemma is_report_life e : is_report e = true -> is_life e = true.
Proof. destruct e; simpl; intros H; try discriminate H; reflexivity. Qed.

Lemma is_sleep_life e : is_sleep e = true -> is_life e = true.
Proof. destruct e; simpl; intros H; try discriminate H; reflexivity. Qed.

Lemma is_release_life e : is_release e = true -> is_life e = true.
Proof. destruct e; simpl; intros H; try discriminate H; reflexivity. Qed.

Lemma emits_refl w : emits [] w w.
Proof. exists []. split; [symmetry; apply app_nil_r | reflexivity]. Qed.

Lemma emits_trans l1 l2 w1 w2 w3 :
  emits l1 w1 w2 -> emits l2 w2 w3 -> emits (l1 ++ l2) w1 w3.
Proof.
  intros (t1 & H1 & <-) (t2 & H2 & <-). exists (t1 ++ t2). split.
  - rewrite H2, H1. symmetry. apply app_assoc.
  - unfold life. apply List.filter_app.
Qed.

Lemma silent_trans w1 w2 w3 : emits [] w1 w2 -> emits [] w2 w3 -> emits [] w1 w3.
Proof. intros H1 H2. apply (emits_trans [] [] _ _ _ H1 H2). Qed.

(** One step of a proof that a program leaves no event of the life of a
    job. *)
Ltac silent_step :=
  match goal with
  | |- keeps _ (ret _) => apply (keeps_ret _ emits_refl)
  | |- keeps _ (gets _) => apply (keeps_gets _ emits_refl)
  | |- keeps _ (modify _) =>
      apply (keeps_modify (emits [])); intros ?; exists [];
      split; [symmetry; apply app_nil_r | reflexivity]
  | |- keeps _ (emit ?e) =>
      apply (keeps_emit (emits [])); intros ?; exists [e]; split; reflexivity
  | |- keeps _ (bind _ _) =>
      apply (keeps_bind _ silent_trans); [|intros ?]
  | |- keeps _ (match ?x with _ => _ end) => destruct x
  end.

Ltac keeps_silent :=
  cbv [modify_dl Lock Unlock load store yield]; repeat silent_step.

Lemma at_pc_app pc l1 l2 : at_pc pc (l1 ++ l2) = (at_pc pc l1 + at_pc pc l2)%nat.
Proof. unfold at_pc. rewrite filter_app, length_app. reflexivity. Qed.

Lemma at_pc_cons pc g l :
  at_pc pc (g :: l) = ((if decide (g_pc g = pc) then 1 else 0) + at_pc pc l)%nat.
Proof. unfold at_pc. rewrite filter_cons. destruct (decide _); reflexivity. Qed.

Lemma at_pc_middle pc gs i g :
  gs !! i = Some g ->
  at_pc pc gs = (at_pc pc (take i gs) + (if decide (g_pc g = pc) then 1 else 0)
                 + at_pc pc (drop (S i) gs))%nat.
Proof.
  intros Hi. rewrite <- (take_drop_middle gs i g Hi) at 1.
  rewrite at_pc_app, at_pc_cons. lia.
Qed.

Lemma at_pc_insert pc gs i g g' :
  gs !! i = Some g ->
  at_pc pc (<[i := g']> gs) =
    (at_pc pc (take i gs) + (if decide (g_pc g' = pc) then 1 else 0)
     + at_pc pc (drop (S i) gs))%nat.
Proof.
  intros Hi. rewrite insert_take_drop by (eapply lookup_lt_Some; exact Hi).
  rewrite at_pc_app, at_pc_cons. lia.
Qed.

Lemma at_pc_delete pc gs i :
  at_pc pc (delete i gs) = (at_pc pc (take i gs) + at_pc pc (drop (S i) gs))%nat.
Proof. rewrite delete_take_drop. apply at_pc_app. Qed.

Lemma at_pc_total gs :
  length gs = (at_pc GStart gs + at_pc GWorking gs + at_pc GSettled gs
               + at_pc GDone gs)%nat.
Proof.
  induction gs as [|g gs IH]; [reflexivity|].
  rewrite !at_pc_cons. simpl. rewrite IH.
  destruct (g_pc g); repeat (destruct (decide _) as [?|?]; try congruence); lia.
Qed.

Section Life.

Variable env : Env.

Lemma getOutPath_loop_silent fuel : ∀ dir c o,
  keeps (emits []) (getOutPath_loop env fuel dir c o).
Proof.
  induction fuel as [|fuel IH]; intros dir c o; simpl.
  - keeps_silent.
  - destruct (c <? rune_z)%nat; [|keeps_silent].
    apply (keeps_bind _ silent_trans).
    + unfold createOrGetSize, fileutil_Exist, os_Mkdir, getDirSize. keeps_silent.
    + intros [size [e|]]; [keeps_silent|].
      destruct (size <? maxSingleDirSize); [keeps_silent|apply IH].
Qed.

Lemma download_loop_silent sources : ∀ outPath cid size,
  keeps (emits []) (download_loop env sources outPath cid size).
Proof.
  induction sources as [|x sources IH]; intros outPath cid size; simpl.
  - keeps_silent.
  - unfold request, os_Create, io_Copy.
    apply (keeps_bind _ silent_trans); [keeps_silent|].
    intros [reader|e]; [|apply IH]. keeps_silent.
Qed.

(** [create] tests no content id, reports nothing and does not sleep. *)
Lemma create_silent job : keeps (emits []) (create env job).
Proof.
  unfold create.
  apply (keeps_bind _ silent_trans); [keeps_silent|]. intros a.
  apply (keeps_bind _ silent_trans); [apply getOutPath_loop_silent|].
  intros [outPath [e|]]; [keeps_silent|].
  apply (keeps_bind _ silent_trans); [keeps_silent|]. intros d.
  destruct (find _ _) as [s|]; [|keeps_silent].
  apply (keeps_bind _ silent_trans); [keeps_silent|]. intros a'.
  apply (keeps_bind _ silent_trans).
  - unfold download.
    apply (keeps_bind _ silent_trans); [keeps_silent|]. intros _.
    destruct (Api s _) as [infos [e|]]; [keeps_silent|].
    destruct (length (SourceList infos) =? 0)%nat; [keeps_silent|].
    apply download_loop_silent.
  - intros [e|]; keeps_silent.
Qed.

Lemma alloc_silent assets : keeps (emits []) (alloc assets).
Proof.
  induction assets as [|a assets IH]; simpl; [keeps_silent|].
  apply (keeps_bind _ silent_trans); [keeps_silent|]. intros p.
  apply (keeps_bind _ silent_trans); [keeps_silent|]. intros _.
  apply (keeps_bind _ silent_trans); [exact IH|]. intros ps.
  keeps_silent.
Qed.

Lemma async_tick_silent fetched : keeps (emits []) (async_tick fetched).
Proof.
  unfold async_tick.
  apply (keeps_bind _ silent_trans); [keeps_silent|]. intros r.
  destruct r; [keeps_silent|].
  apply (keeps_bind _ silent_trans); [keeps_silent|]. intros _.
  apply (keeps_bind _ silent_trans); [keeps_silent|]. intros _.
  destruct fetched as [assets [e|]]; [keeps_silent|].
  apply (keeps_bind _ silent_trans); [apply alloc_silent|]. intros jobs.
  destruct (length jobs =? 0)%nat; keeps_silent.
Qed.

(** The first critical section leaves the test of the job's content id. *)
Lemma jobProcess_enter_emits asset w :
  emits [EvInFlightTest (Cid (heap w !!! asset)) (negb (jobProcess_enter asset w).1)]
    w (jobProcess_enter asset w).2.
Proof.
  destruct (decide (Cid (heap w !!! asset) ∈ downloading (dl w))) as [Hin|Hnin].
  - rewrite (jobProcess_enter_duplicate asset w Hin). simpl.
    eexists. split; reflexivity.
  - rewrite (jobProcess_enter_fresh asset w Hnin). simpl.
    eexists. split; reflexivity.
Qed.

(** The work leaves the report of the job and the sleep, in this order. *)
Lemma jobProcess_work_emits asset w :
  emits [EvPushResult [heap (jobProcess_work env asset w).2 !!! asset]; EvSleep]
    w (jobProcess_work env asset w).2.
Proof.
  pose proof (jobProcess_work_effect env asset w) as (Hh & _ & _ & _ & Ht).
  simpl in Hh, Ht. rewrite Hh.
  apply (emits_trans [] _ w (create env asset w).2); [apply create_silent|].
  eexists. split; [exact Ht | reflexivity].
Qed.

(** The last critical section leaves the [delete] of the content id. *)
Lemma jobProcess_exit_emits asset w :
  emits [EvInFlightDelete (Cid (heap w !!! asset))] w (jobProcess_exit asset w).2.
Proof.
  rewrite jobProcess_exit_effect. simpl. eexists. split; reflexivity.
Qed.

(** What a step of a goroutine leaves in the trace. *)
Lemma exec_job_emits i g s s' :
  workers s !! i = Some g -> exec_job env i s = Some s' ->
  ∃ existing,
    emits (step_life (g_pc g) (Cid (heap (world s) !!! g_asset g)) existing
             (heap (world s') !!! g_asset g))
      (world s) (world s') ∧
    (g_pc g = GStart ->
     (existing = true <->
      Cid (heap (world s) !!! g_asset g) ∈ downloading (dl (world s))) ∧
     workers s' !! i = Some (set_pc (if existing then GDone else GWorking) g)).
Proof.
  intros Hi. pose proof (lookup_lt_Some _ _ _ Hi) as Hlt.
  unfold exec_job. rewrite Hi. destruct (g_pc g) eqn:Hpc.
  - pose proof (jobProcess_enter_emits (g_asset g) (world s)) as He.
    pose proof (jobProcess_enter_skips (g_asset g) (world s)) as Hskip.
    assert (Hgo : (jobProcess_enter (g_asset g) (world s)).1 = true ->
                  Cid (heap (world s) !!! g_asset g) ∉ downloading (dl (world s))).
    { intros Hgo Hin. rewrite (jobProcess_enter_duplicate _ _ Hin) in Hgo.
      discriminate Hgo. }
    destruct (jobProcess_enter (g_asset g) (world s)) as [go w]. simpl in *.
    intros [= <-]. exists (negb go). simpl. split; [exact He|]. intros _.
    rewrite list_lookup_insert_eq by exact Hlt.
    destruct go; simpl; (split; [split|reflexivity]).
    + discriminate.
    + intros Hin. exfalso. apply Hgo; [reflexivity | exact Hin].
    + intros _. apply Hskip. reflexivity.
    + reflexivity.
  - pose proof (jobProcess_work_emits (g_asset g) (world s)) as He.
    destruct (jobProcess_work env (g_asset g) (world s)) as [u w]. simpl in *.
    intros [= <-]. exists false. simpl. split; [exact He | discriminate].
  - pose proof (jobProcess_exit_emits (g_asset g) (world s)) as He.
    destruct (jobProcess_exit (g_asset g) (world s)) as [u w]. simpl in *.
    intros [= <-]. exists false. simpl. split; [exact He | discriminate].
  - destruct (_ <? _); [|discriminate]. intros [= <-]. exists false. simpl.
    split; [|discriminate].
    exists []. split; [symmetry; apply app_nil_r | reflexivity].
Qed.

Ltac count_life He :=
  rewrite (count_emits checked_dup _ _ _ checked_dup_life He),
          (count_emits checked_new _ _ _ checked_new_life He),
          (count_emits is_report _ _ _ is_report_life He),
          (count_emits is_sleep _ _ _ is_sleep_life He),
          (count_emits is_release _ _ _ is_release_life He).

Ltac decide_pcs :=
  repeat match goal with
         | |- context [decide (?a = ?b)] =>
             destruct (decide (a = b)) as [?|?]; try congruence
         | H : context [decide (?a = ?b)] |- _ =>
             destruct (decide (a = b)) as [?|?]; try congruence
         end.

Lemma lifecycle_inv_job i s s' :
  lifecycle_inv s -> exec_job env i s = Some s' -> lifecycle_inv s'.
Proof.
  unfold lifecycle_inv, accounts. intros (A1 & A2 & A3 & A4) Hex.
  destruct (workers s !! i) as [g|] eqn:Hi;
    [|unfold exec_job in Hex; rewrite Hi in Hex; discriminate].
  destruct (exec_job_emits i g s s' Hi Hex) as (existing & He & Hst).
  destruct (exec_job_queue env i s s' Hex) as (_ & _ & _ & _ & Hd). rewrite Hd.
  count_life He.
  rewrite (at_pc_middle GStart _ _ _ Hi), (at_pc_middle GWorking _ _ _ Hi),
    (at_pc_middle GSettled _ _ _ Hi) in *.
  revert Hex He Hst. unfold exec_job. rewrite Hi. destruct (g_pc g) eqn:Hpc.
  - destruct (jobProcess_enter (g_asset g) (world s)) as [go w].
    intros [= <-] He Hst. destruct (Hst eq_refl) as [_ Hw]. simpl in *.
    rewrite list_lookup_insert_eq in Hw by (eapply lookup_lt_Some; exact Hi).
    injection Hw as Hw.
    rewrite !(at_pc_insert _ _ _ g _ Hi).
    destruct go, existing; simpl in *; try discriminate Hw;
      unfold count_ev in *; simpl; decide_pcs; lia.
  - destruct (jobProcess_work env (g_asset g) (world s)) as [u w].
    intros [= <-] He _. simpl in *. rewrite !(at_pc_insert _ _ _ g _ Hi).
    unfold count_ev in *; simpl; decide_pcs; lia.
  - destruct (jobProcess_exit (g_asset g) (world s)) as [u w].
    intros [= <-] He _. simpl in *. rewrite !(at_pc_insert _ _ _ g _ Hi).
    unfold count_ev in *; simpl; decide_pcs; lia.
  - destruct (_ <? _); [|discriminate]. intros [= <-] He _. simpl in *.
    rewrite !at_pc_delete. unfold count_ev in *; simpl; decide_pcs; lia.
Qed.

Lemma lifecycle_inv_step l s s' :
  lifecycle_inv s -> exec env l s = Some s' -> lifecycle_inv s'.
Proof.
  intros Hinv. destruct l as [fetched| | | |i]; simpl;
    [| | | |apply lifecycle_inv_job; exact Hinv].
  - destruct (poller s); [|discriminate].
    pose proof (async_tick_silent fetched (world s)) as He.
    destruct (async_tick fetched (world s)) as [pc w]. simpl in *.
    intros [= <-]. unfold lifecycle_inv, accounts in *. simpl. count_life He.
    unfold count_ev. simpl. rewrite !Nat.add_0_r. exact Hinv.
  - destruct (poller s) as [|jobs]; [discriminate|].
    destruct jobs as [|j jobs]; simpl.
    + intros [= <-]. exact Hinv.
    + unfold bind, gets. destruct (_ <? _)%nat; [|discriminate].
      simpl. intros [= <-]. exact Hinv.
  - destruct (dispatcher s); [|discriminate].
    destruct (JobQueue (dl (world s))); [discriminate|].
    intros [= <-]. exact Hinv.
  - destruct (dispatcher s) as [|asset]; [discriminate|].
    destruct (downWorkerQueue (dl (world s))) as [|wrk q]; [discriminate|].
    intros [= <-]. unfold lifecycle_inv, accounts in *. simpl.
    rewrite !at_pc_app, length_app. unfold at_pc at 2 4 6 8. simpl.
    destruct Hinv as (A1 & A2 & A3 & A4). repeat split; lia.
Qed.

Lemma lifecycle_inv_execs ls : ∀ s s',
  lifecycle_inv s -> execs env ls s = Some s' -> lifecycle_inv s'.
Proof.
  induction ls as [|l ls IH]; intros s s' Hinv; simpl.
  - intros [= <-]. exact Hinv.
  - destruct (exec env l s) as [s1|] eqn:Hs; [|discriminate].
    apply IH. apply (lifecycle_inv_step l s); assumption.
Qed.

(** The dispatcher takes the head of [JobQueue]; it starts a goroutine for
    the job in its hand, at the beginning of [jobFunc()], with the head of
    the pool. *)
Lemma exec_dispatch s :
  (∀ s', exec env LRecv s = Some s' ->
     ∃ asset q, dispatcher s = DRecv ∧ JobQueue (dl (world s)) = asset :: q ∧
                dispatcher s' = DAcquire asset ∧ JobQueue (dl (world s')) = q ∧
                workers s' = workers s) ∧
  (∀ s', exec env LSpawn s = Some s' ->
     ∃ asset wrk q,
       dispatcher s = DAcquire asset ∧ downWorkerQueue (dl (world s)) = wrk :: q ∧
       dispatcher s' = DRecv ∧ downWorkerQueue (dl (world s')) = q ∧
       workers s' = workers s ++ [{| g_asset := asset; g_wrk := wrk; g_pc := GStart |}] ∧
       dispatched s' = dispatched s ++ [asset] ∧
       trace (world s') = trace (world s)) ∧
  (downWorkerQueue (dl (world s)) = [] -> exec env LSpawn s = None).
Proof.
  split; [|split]; simpl.
  - intros s'. destruct (dispatcher s); [|discriminate].
    destruct (JobQueue (dl (world s))) as [|asset q]; [discriminate|].
    intros [= <-]. exists asset, q. repeat split.
  - intros s'. destruct (dispatcher s) as [|asset]; [discriminate|].
    destruct (downWorkerQueue (dl (world s))) as [|wrk q]; [discriminate|].
    intros [= <-]. exists asset, wrk, q. repeat split.
  - intros ->. destruct (dispatcher s); reflexivity.
Qed.

End Life.

Lemma lifecycle_inv_boot scheds tok area N ds :
  lifecycle_inv (boot scheds tok area N ds).
Proof. repeat split. Qed.

Lemma life_sublist tr : life tr `sublist_of` tr.
Proof.
  unfold life. induction tr as [|e tr IH]; simpl; [constructor|].
  destruct (is_life e); [apply sublist_skip | apply sublist_cons]; exact IH.
Qed.

Lemma emits_sublist l w w' pre :
  emits l w w' -> pre `sublist_of` trace w -> (pre ++ l) `sublist_of` trace w'.
Proof.
  intros (tr & -> & <-) Hpre. apply sublist_app; [exact Hpre | apply life_sublist].
Qed.

Lemma job_life_extends pc cid l w w' :
  emits l w w' -> job_life pc cid (trace w) -> job_life pc cid (trace w').
Proof.
  intros (tr & -> & _). destruct pc; simpl.
  - auto.
  - apply sublist_inserts_r.
  - intros (rep & Hc & H). exists rep. split; [exact Hc|]. apply sublist_inserts_r, H.
  - intros [H|(rep & Hc & H)]; [left | right; exists rep; split; [exact Hc|]];
      apply sublist_inserts_r, H.
Qed.

(** The goroutines keep what they have behind them when the trace grows
    and the content ids of their jobs stay. *)
Lemma lived_world l s w' gs :
  emits l (world s) w' ->
  Forall (fun g => Cid (heap w' !!! g_asset g) = Cid (heap (world s) !!! g_asset g)) gs ->
  Forall (fun g => job_life (g_pc g) (Cid (heap (world s) !!! g_asset g))
                     (trace (world s))) gs ->
  Forall (fun g => job_life (g_pc g) (Cid (heap w' !!! g_asset g)) (trace w')) gs.
Proof.
  intros He Hc Hl. induction gs as [|g gs IH]; [constructor|].
  inversion Hc; subst. inversion Hl; subst. constructor; [|apply IH; assumption].
  rewrite H1. eapply job_life_extends; eassumption.
Qed.

Section Lived.

Variable env : Env.

Lemma lived_job i s s' :
  lived s -> exec_job env i s = Some s' -> lived s'.
Proof.
  unfold lived. intros Hl Hex.
  destruct (workers s !! i) as [g|] eqn:Hi;
    [|unfold exec_job in Hex; rewrite Hi in Hex; discriminate].
  destruct (exec_job_emits env i g s s' Hi Hex) as (existing & He & Hst).
  pose proof (proj1 (Forall_lookup _ _) Hl i g Hi) as Hg. simpl in Hg.
  assert (Hcid : ∀ p, Cid (heap (world s') !!! p) = Cid (heap (world s) !!! p)).
  { revert Hex. unfold exec_job. rewrite Hi. destruct (g_pc g).
    - rewrite (surjective_pairing (jobProcess_enter _ _)).
      destruct (decide (Cid (heap (world s) !!! g_asset g)
                        ∈ downloading (dl (world s)))) as [Hin|Hnin].
      + rewrite (jobProcess_enter_duplicate _ _ Hin). intros [= <-]. reflexivity.
      + rewrite (jobProcess_enter_fresh _ _ Hnin). intros [= <-]. reflexivity.
    - pose proof (jobProcess_work_cids env (g_asset g) (world s)) as (W1 & _).
      destruct (jobProcess_work env (g_asset g) (world s)) as [u w]. simpl in *.
      intros [= <-]. exact W1.
    - rewrite (jobProcess_exit_effect (g_asset g) (world s)).
      intros [= <-]. reflexivity.
    - destruct (_ <? _); [|discriminate]. intros [= <-]. reflexivity. }
  assert (Hall : Forall (fun g => job_life (g_pc g)
                           (Cid (heap (world s') !!! g_asset g)) (trace (world s')))
                   (workers s)).
  { apply (lived_world _ s _ _ He); [|exact Hl].
    apply Forall_forall. intros x _. apply Hcid. }
  revert Hex He Hst. unfold exec_job. rewrite Hi. destruct (g_pc g) eqn:Hpc.
  - destruct (jobProcess_enter (g_asset g) (world s)) as [go w].
    intros [= <-] He Hst. destruct (Hst eq_refl) as [_ Hw]. simpl in *.
    rewrite list_lookup_insert_eq in Hw by (eapply lookup_lt_Some; exact Hi).
    injection Hw as Hw. apply Forall_insert; [exact Hall|]. simpl.
    rewrite Hw, Hcid.
    pose proof (emits_sublist _ _ _ [] He (sublist_nil_l _)) as Hs. simpl in Hs.
    destruct existing; simpl; [left; exact Hs | exact Hs].
  - destruct (jobProcess_work env (g_asset g) (world s)) as [u w].
    intros [= <-] He _. simpl in *. apply Forall_insert; [exact Hall|]. simpl.
    exists (heap w !!! g_asset g). split; [reflexivity|].
    rewrite Hcid. apply (emits_sublist _ _ _ [_] He Hg).
  - destruct (jobProcess_exit (g_asset g) (world s)) as [u w].
    intros [= <-] He _. simpl in *. apply Forall_insert; [exact Hall|]. simpl.
    right. destruct Hg as (rep & Hrep & Hg). rewrite Hcid. exists rep.
    split; [exact Hrep|]. apply (emits_sublist _ _ _ [_; _; _] He Hg).
  - destruct (_ <? _); [|discriminate]. intros [= <-] _ _. simpl in *.
    apply Forall_delete. exact Hall.
Qed.

Lemma lived_step l s s' :
  dedup_inv s -> lived s -> exec env l s = Some s' -> lived s'.
Proof.
  intros [_ _ N3] Hl.
  apply live_ptrs_split in N3 as (_ & _ & _ & P4).
  destruct l as [fetched| | | |i]; simpl;
    [| | | |apply lived_job; exact Hl].
  - destruct (poller s); [|discriminate].
    pose proof (async_tick_silent fetched (world s)) as He.
    pose proof (async_tick_effect fetched (world s)) as (_ & A2 & _).
    destruct (async_tick fetched (world s)) as [pc w]. simpl in *.
    intros [= <-]. unfold lived. simpl.
    apply (lived_world _ s _ _ He); [|exact Hl].
    rewrite Forall_fmap in P4. eapply Forall_impl; [exact P4|].
    intros g Hg. simpl in Hg. rewrite !lookup_total_alt, (A2 _ Hg). reflexivity.
  - destruct (poller s) as [|jobs]; [discriminate|].
    destruct jobs as [|j jobs]; simpl.
    + intros [= <-]. exact Hl.
    + unfold bind, gets. destruct (_ <? _)%nat; [|discriminate].
      simpl. intros [= <-]. exact Hl.
  - destruct (dispatcher s); [|discriminate].
    destruct (JobQueue (dl (world s))); [discriminate|].
    intros [= <-]. exact Hl.
  - destruct (dispatcher s) as [|asset]; [discriminate|].
    destruct (downWorkerQueue (dl (world s))) as [|wrk q]; [discriminate|].
    intros [= <-]. unfold lived. simpl. apply Forall_app. split; [exact Hl|].
    constructor; [exact I | constructor].
Qed.

Lemma lived_execs ls : ∀ s s',
  dedup_inv s -> lived s -> execs env ls s = Some s' -> lived s'.
Proof.
  induction ls as [|l ls IH]; intros s s' Hd Hl; simpl.
  - intros [= <-]. exact Hl.
  - destruct (exec env l s) as [s1|] eqn:Hs; [|discriminate].
    apply IH; [apply (dedup_inv_step env l s) | apply (lived_step l s)]; assumption.
Qed.

End Lived.

(** C9: in every state that the program reaches, the goroutines of jobs,
    and so those that execute a download, are at most [concurrent] (5 in
    [main]); each holds a worker of its own that is not in the pool; the
    jobs sent on [JobQueue] get their worker in the order they were sent;
    a goroutine can always take its next step; and a worker returns to the
    pool only by the last step of its goroutine, after the first critical
    section, the work that ends with the report and the sleep, and the last
    critical section (or at once for a duplicate).  The dispatcher takes
    the head of [JobQueue], and starts a goroutine only with the worker at
    the head of the pool, for the job in its hand and at the beginning of
    [jobFunc()]; with [concurrent] goroutines alive it cannot start one.
    A step of a goroutine leaves in the trace the test of [downloading]
    for the content id of its job, then the report of that job and the
    sleep, then the [delete] of the content id, and nothing of the kind when
    it returns the worker; so every goroutine has behind it, in the trace
    and in this order, the life of its own job up to where it stands, and
    the one about to return its worker has the whole of it: the test that
    found a duplicate, or the test, the report, the sleep and the [delete].
    The books balance: each job that got a worker
    has made its test unless its goroutine has not started; each job that
    passed the test is reported unless its goroutine is at work; the sleeps
    are as many as the reports; each sleep is followed by the [delete]
    unless the goroutine is about to do it; and the workers returned are as
    many as the duplicates found and the content ids deleted, less the
    goroutines about to return theirs. *)
Theorem pool_bound_fifo env scheds tok area N ds ls s :
  execs env ls (boot scheds tok area N ds) = Some s ->
  main_concurrent = 5 ∧
  (length (executing s) <= length (workers s))%nat ∧
  (length (workers s) <= Z.to_nat N)%nat ∧
  (length (downWorkerQueue (dl (world s))) + length (workers s) = Z.to_nat N)%nat ∧
  NoDup (slots s) ∧
  enqueued s = dispatched s ++ held s ++ JobQueue (dl (world s)) ∧
  (∀ l s', exec env l s = Some s' -> (∀ i, l ≠ LJob i) ->
     (length (downWorkerQueue (dl (world s'))) <=
      length (downWorkerQueue (dl (world s))))%nat) ∧
  (∀ i g, workers s !! i = Some g -> is_Some (exec env (LJob i) s)) ∧
  (∀ i g s', workers s !! i = Some g -> exec env (LJob i) s = Some s' ->
     match g_pc g with
     | GStart =>
         downWorkerQueue (dl (world s')) = downWorkerQueue (dl (world s)) ∧
         (workers s' !! i = Some (set_pc GWorking g) ∨
          workers s' !! i = Some (set_pc GDone g) ∧
          Cid (heap (world s) !!! g_asset g) ∈ downloading (dl (world s)))
     | GWorking =>
         downWorkerQueue (dl (world s')) = downWorkerQueue (dl (world s)) ∧
         workers s' !! i = Some (set_pc GSettled g) ∧
         ∃ tr rep, trace (world s') =
                   trace (world s) ++ tr ++ [EvPushResult [rep]; EvSleep]
     | GSettled =>
         downWorkerQueue (dl (world s')) = downWorkerQueue (dl (world s)) ∧
         workers s' !! i = Some (set_pc GDone g)
     | GDone =>
         downWorkerQueue (dl (world s')) =
           downWorkerQueue (dl (world s)) ++ [g_wrk g] ∧
         workers s' = delete i (workers s)
     end) ∧
  (∀ s', exec env LRecv s = Some s' ->
     ∃ asset q, dispatcher s = DRecv ∧ JobQueue (dl (world s)) = asset :: q ∧
                dispatcher s' = DAcquire asset ∧ JobQueue (dl (world s')) = q ∧
                workers s' = workers s) ∧
  (∀ s', exec env LSpawn s = Some s' ->
     ∃ asset wrk q,
       dispatcher s = DAcquire asset ∧ downWorkerQueue (dl (world s)) = wrk :: q ∧
       dispatcher s' = DRecv ∧ downWorkerQueue (dl (world s')) = q ∧
       workers s' = workers s ++ [{| g_asset := asset; g_wrk := wrk; g_pc := GStart |}] ∧
       dispatched s' = dispatched s ++ [asset] ∧
       trace (world s') = trace (world s)) ∧
  (length (workers s) = Z.to_nat N -> exec env LSpawn s = None) ∧
  (∀ i g s', workers s !! i = Some g -> exec env (LJob i) s = Some s' ->
     ∃ existing,
       emits (step_life (g_pc g) (Cid (heap (world s) !!! g_asset g)) existing
                (heap (world s') !!! g_asset g))
         (world s) (world s') ∧
       (g_pc g = GStart ->
        (existing = true <->
         Cid (heap (world s) !!! g_asset g) ∈ downloading (dl (world s))) ∧
        workers s' !! i = Some (set_pc (if existing then GDone else GWorking) g))) ∧
  (∀ i g, workers s !! i = Some g ->
     let cid := Cid (heap (world s) !!! g_asset g) in
     match g_pc g with
     | GStart => True
     | GWorking => [EvInFlightTest cid false] `sublist_of` trace (world s)
     | GSettled =>
         ∃ rep, Cid rep = cid ∧
                [EvInFlightTest cid false; EvPushResult [rep]; EvSleep]
                  `sublist_of` trace (world s)
     | GDone =>
         [EvInFlightTest cid true] `sublist_of` trace (world s) ∨
         ∃ rep, Cid rep = cid ∧
                [EvInFlightTest cid false; EvPushResult [rep]; EvSleep;
                 EvInFlightDelete cid] `sublist_of` trace (world s)
     end) ∧
  (count_ev checked_dup (trace (world s)) + count_ev checked_new (trace (world s))
   + at_pc GStart (workers s) = length (dispatched s))%nat ∧
  (count_ev is_report (trace (world s)) + at_pc GWorking (workers s)
   = count_ev checked_new (trace (world s)))%nat ∧
  count_ev is_sleep (trace (world s)) = count_ev is_report (trace (world s)) ∧
  (count_ev is_release (trace (world s)) + at_pc GSettled (workers s)
   = count_ev is_sleep (trace (world s)))%nat ∧
  (length (dispatched s) + at_pc GDone (workers s)
   = length (workers s) + count_ev checked_dup (trace (world s))
     + count_ev is_release (trace (world s)))%nat.
Proof.
  intros Hex.
  pose proof (pool_inv_execs env N ls _ _ (pool_inv_boot scheds tok area N ds) Hex)
    as [I1 I2 I3].
  pose proof (lifecycle_inv_execs env ls _ _ (lifecycle_inv_boot scheds tok area N ds)
                Hex) as (A1 & A2 & A3 & A4).
  pose proof (exec_dispatch env s) as (D1 & D2 & D3).
  assert (Hlen : (length (downWorkerQueue (dl (world s))) + length (workers s)
                  = Z.to_nat N)%nat).
  { rewrite <- (all_workers_length N), <- (Permutation_length I2).
    unfold slots. rewrite length_app, length_map. reflexivity. }
  split; [reflexivity|].
  split; [unfold executing; apply length_filter|].
  split; [lia|]. split; [exact Hlen|].
  split; [rewrite I2; apply all_workers_NoDup|].
  split; [exact I3|].
  split; [intros l s'; apply exec_other_no_return|].
  split.
  { intros i g Hi. pose proof (lookup_lt_Some _ _ _ Hi) as Hlt.
    simpl. unfold exec_job. rewrite Hi. destruct (g_pc g).
    - destruct (jobProcess_enter _ _); eauto.
    - destruct (jobProcess_work _ _ _); eauto.
    - destruct (jobProcess_exit _ _); eauto.
    - rewrite I1. replace (_ <? N) with true by (symmetry; apply Z.ltb_lt; lia).
      eauto. }
  split; [intros i g s' Hi Hs; apply (exec_job_lifecycle env i g s s' Hi Hs)|].
  split; [exact D1|]. split; [exact D2|].
  split.
  { intros Hfull. apply D3. apply nil_length_inv. lia. }
  split; [intros i g s' Hi Hs; apply (exec_job_emits env i g s s' Hi Hs)|].
  split.
  { pose proof (lived_execs env ls _ _ (dedup_inv_boot scheds tok area N ds)
                  (Forall_nil_2 _) Hex) as Hl.
    intros i g Hi. exact (proj1 (Forall_lookup _ _) Hl i g Hi). }
  pose proof (at_pc_total (workers s)) as Ht.
  split; [exact A1|]. split; [exact A2|]. split; [exact A3|]. split; lia.
Qed.

Lemma pool_bound_fifo_witness :
  execs env_node3 run_burst boot1 = Some state_burst ∧
  length (workers state_burst) = 5%nat ∧
  length (executing state_burst) = 5%nat ∧
  downWorkerQueue (dl (world state_burst)) = [] ∧
  length (held state_burst) = 1%nat ∧
  exec env_node3 LSpawn state_burst = None ∧
  enqueued state_burst =
    dispatched state_burst ++ held state_burst ++ JobQueue (dl (world state_burst)) ∧
  execs env_node3 (run_burst ++ run_next) boot1 = Some state_next ∧
  (length (workers state_next) <= 5)%nat ∧
  length (dispatched state_next) = 6%nat.
Proof.
  assert (H : execs env_node3 run_burst boot1 = Some state_burst)
    by (vm_compute; reflexivity).
  assert (H' : execs env_node3 (run_burst ++ run_next) boot1 = Some state_next)
    by (vm_compute; reflexivity).
  split; [exact H|].
  split; [vm_compute; reflexivity|]. split; [vm_compute; reflexivity|].
  split; [vm_compute; reflexivity|]. split; [vm_compute; reflexivity|].
  destruct (pool_bound_fifo env_node3 [scheduler_of [source "node3"]] "token" "area"
              main_concurrent ∅ run_burst state_burst H)
    as (_ & _ & _ & _ & _ & Hf & _ & _ & _ & _ & _ & Hfull & _).
  split; [apply Hfull; vm_compute; reflexivity|]. split; [exact Hf|].
  split; [exact H'|].
  destruct (pool_bound_fifo env_node3 [scheduler_of [source "node3"]] "token" "area"
              main_concurrent ∅ (run_burst ++ run_next) state_next H')
    as (_ & _ & Hb & _).
  split; [exact Hb | vm_compute; reflexivity].
Defined.

(** ** The way of a batch *)

Section Flow.

Variable env : Env.

(** A step other than a tick moves a job one place further and keeps the
    order: [Push] sends the first job it has left to the end of [JobQueue],
    the dispatcher takes the head of [JobQueue], then gives it a worker. *)
Lemma flow_step l s s' :
  not_tick l -> exec env l s = Some s' -> in_flight_order s' = in_flight_order s.
Proof.
  unfold in_flight_order.
  destruct l as [fetched| | | |i]; simpl; intros Hl; [contradiction| | | |].
  - unfold pending, held. destruct (poller s) as [|jobs]; [discriminate|].
    destruct jobs as [|j jobs]; simpl.
    + intros [= <-]. simpl. reflexivity.
    + unfold bind, gets. destruct (_ <? _)%nat; [|discriminate].
      simpl. intros [= <-]. simpl. rewrite <- !app_assoc. reflexivity.
  - unfold held, pending. destruct (dispatcher s); [|discriminate].
    destruct (JobQueue (dl (world s))); [discriminate|].
    intros [= <-]. reflexivity.
  - unfold held, pending. destruct (dispatcher s); [discriminate|].
    destruct (downWorkerQueue (dl (world s))); [discriminate|].
    intros [= <-]. simpl. rewrite <- app_assoc. reflexivity.
  - intros Hj. destruct (exec_job_queue env i s s' Hj) as (Hq & Hp & _ & Hd & Hdd).
    unfold pending, held. rewrite Hq, Hp, Hd, Hdd. reflexivity.
Qed.

Lemma flow_execs ls : ∀ s s',
  Forall not_tick ls -> execs env ls s = Some s' ->
  in_flight_order s' = in_flight_order s.
Proof.
  induction ls as [|l ls IH]; intros s s' Hall; simpl.
  - intros [= <-]. reflexivity.
  - inversion Hall as [|? ? Hl Hls]; subst.
    destruct (exec env l s) as [s1|] eqn:Hs; [|discriminate]. intros Hrest.
    rewrite (IH s1 s' Hls Hrest). apply (flow_step l s s1 Hl Hs).
Qed.

(** One send of [Push]. *)
Lemma exec_push_send s s' j rest :
  pending s = j :: rest -> exec env LPush s = Some s' ->
  JobQueue (dl (world s)) = [] ∧
  JobQueue (dl (world s')) = [j] ∧
  pending s' = rest ∧ enqueued s' = enqueued s ++ [j].
Proof.
  simpl. unfold pending. destruct (poller s) as [|jobs]; [discriminate|].
  intros ->. simpl. unfold bind, gets.
  destruct (JobQueue (dl (world s))) as [|a q]; [|discriminate].
  simpl. intros [= <-]. simpl. repeat split.
Qed.

(** [Push] can send when, and only when, the buffer of [JobQueue] is
    empty. *)
Lemma exec_push_ready s j rest :
  pending s = j :: rest ->
  (is_Some (exec env LPush s) <-> JobQueue (dl (world s)) = []).
Proof.
  simpl. unfold pending. destruct (poller s) as [|jobs]; [discriminate|].
  intros ->. simpl. unfold bind, gets.
  destruct (JobQueue (dl (world s))) as [|a q]; simpl.
  - split; [reflexivity | eauto].
  - split; [intros [x Hx]; discriminate Hx | discriminate].
Qed.

End Flow.

(** X13: a tick that fetches jobs hands them to [Push] as new assets, in
    the order fetched and as fetched, sends none itself and leaves
    [JobQueue], the dispatcher and the assets already there alone; from then
    on, whatever the dispatcher, the workers and [Push] do, the jobs that got
    a worker, the job in the hand of the dispatcher, the jobs in [JobQueue]
    and the jobs still to send stay, in this order, the same list; a send
    of [Push] puts the first job it has left into the empty buffer of
    [JobQueue], and waits while the buffer is taken; when [Push] has
    returned, every job of the batch is in
    [JobQueue], with the dispatcher or with a worker: the batch goes
    through [JobQueue] in its order, nothing dropped, nothing sent twice. *)
Theorem batch_in_order env s assets s1 :
  poller s = PTicker -> running (dl (world s)) = false ->
  exec env (LTick (assets, None)) s = Some s1 ->
  map (fun p => heap (world s1) !!! p) (pending s1) = assets ∧
  enqueued s1 = enqueued s ∧
  JobQueue (dl (world s1)) = JobQueue (dl (world s)) ∧
  dispatched s1 = dispatched s ∧ held s1 = held s ∧
  (∀ p, p ∈ dom (heap (world s)) -> heap (world s1) !! p = heap (world s) !! p) ∧
  (∀ ls s2, Forall not_tick ls -> execs env ls s1 = Some s2 ->
     enqueued s2 ++ pending s2 = enqueued s ++ pending s1 ∧
     dispatched s2 ++ held s2 ++ JobQueue (dl (world s2)) ++ pending s2 =
       dispatched s ++ held s ++ JobQueue (dl (world s)) ++ pending s1 ∧
     (poller s2 = PTicker ->
        enqueued s2 = enqueued s ++ pending s1 ∧
        dispatched s2 ++ held s2 ++ JobQueue (dl (world s2)) =
          dispatched s ++ held s ++ JobQueue (dl (world s)) ++ pending s1) ∧
     (∀ j rest s3, pending s2 = j :: rest -> exec env LPush s2 = Some s3 ->
        JobQueue (dl (world s2)) = [] ∧ JobQueue (dl (world s3)) = [j] ∧
        pending s3 = rest ∧ enqueued s3 = enqueued s2 ++ [j]) ∧
     (∀ j rest, pending s2 = j :: rest ->
        (is_Some (exec env LPush s2) <-> JobQueue (dl (world s2)) = []))).
Proof.
  intros Hp Hr. simpl. rewrite Hp.
  pose proof (async_tick_keeps (assets, None) (world s)) as (K1 & _).
  revert K1.
  unfold async_tick, bind, gets. rewrite Hr. cbv [modify_dl modify emit ret].
  match goal with
  | |- context [alloc assets ?w] =>
      pose proof (alloc_effect assets w) as (A1 & A2 & A3 & A4 & A5 & A6 & A7 & A8);
      destruct (alloc assets w) as [jobs w'] eqn:Ha
  end.
  simpl in *.
  assert (Hlen : length jobs = length assets) by (rewrite <- A8, length_map; reflexivity).
  assert (Hrest : ∀ t, enqueued t = enqueued s -> pending t = jobs ->
            in_flight_order t = dispatched s ++ held s ++ JobQueue (dl (world s)) ++ jobs ->
            ∀ ls s2, Forall not_tick ls -> execs env ls t = Some s2 ->
            enqueued s2 ++ pending s2 = enqueued s ++ pending t ∧
            dispatched s2 ++ held s2 ++ JobQueue (dl (world s2)) ++ pending s2 =
              dispatched s ++ held s ++ JobQueue (dl (world s)) ++ pending t ∧
            (poller s2 = PTicker ->
               enqueued s2 = enqueued s ++ pending t ∧
               dispatched s2 ++ held s2 ++ JobQueue (dl (world s2)) =
                 dispatched s ++ held s ++ JobQueue (dl (world s)) ++ pending t) ∧
            (∀ j rest s3, pending s2 = j :: rest -> exec env LPush s2 = Some s3 ->
               JobQueue (dl (world s2)) = [] ∧ JobQueue (dl (world s3)) = [j] ∧
               pending s3 = rest ∧ enqueued s3 = enqueued s2 ++ [j]) ∧
            (∀ j rest, pending s2 = j :: rest ->
               (is_Some (exec env LPush s2) <-> JobQueue (dl (world s2)) = []))).
  { intros t He Ht Hf ls s2 Hall Hex.
    pose proof (batch_execs env ls t s2 Hall Hex) as Hb. rewrite He in Hb.
    pose proof (flow_execs env ls t s2 Hall Hex) as Hfl. rewrite Hf in Hfl.
    unfold in_flight_order in Hfl. rewrite Ht in Hb |- *.
    split; [exact Hb|]. split; [exact Hfl|].
    split; [|split; [intros j rest s3; apply exec_push_send
                    |intros j rest; apply exec_push_ready]].
    intros Hp2. unfold pending in Hb, Hfl. rewrite Hp2, !app_nil_r in Hb, Hfl.
    split; assumption. }
  destruct jobs as [|j jobs]; simpl.
  - intros K1 [= <-]. simpl. destruct assets; [|discriminate].
    split; [reflexivity|]. split; [reflexivity|].
    split; [simpl in K1; exact K1|]. split; [reflexivity|]. split; [reflexivity|].
    split; [exact A5|].
    apply Hrest; try reflexivity.
    unfold in_flight_order, held, pending. simpl. simpl in K1. rewrite K1. reflexivity.
  - intros K1 [= <-]. simpl. split; [exact A8|]. split; [reflexivity|].
    split; [simpl in K1; exact K1|]. split; [reflexivity|]. split; [reflexivity|].
    split; [exact A5|]. apply Hrest; try reflexivity.
    unfold in_flight_order, held, pending. simpl. simpl in K1. rewrite K1. reflexivity.
Qed.

Lemma batch_in_order_witness :
  exec env_node3 (LTick ([asset1], None)) boot1 = Some state_tick ∧
  map (fun p => heap (world state_tick) !!! p) (pending state_tick) = [asset1] ∧
  enqueued state_tick = [] ∧
  execs env_node3 [LPush; LPush] state_tick = Some state_sent ∧
  JobQueue (dl (world state_sent)) = pending state_tick ∧
  map (fun p => heap (world state_sent) !!! p) (JobQueue (dl (world state_sent)))
    = [asset1].
Proof.
  assert (Hp : poller boot1 = PTicker) by reflexivity.
  assert (Hr : running (dl (world boot1)) = false) by (vm_compute; reflexivity).
  assert (H1 : exec env_node3 (LTick ([asset1], None)) boot1 = Some state_tick)
    by (vm_compute; reflexivity).
  assert (H2 : execs env_node3 [LPush; LPush] state_tick = Some state_sent)
    by (vm_compute; reflexivity).
  split; [exact H1|].
  destruct (batch_in_order env_node3 boot1 [asset1] state_tick Hp Hr H1)
    as (H3 & H4 & _ & _ & _ & _ & H5).
  split; [exact H3|]. split; [exact H4|]. split; [exact H2|].
  destruct (H5 [LPush; LPush] state_sent) as (_ & _ & H6 & _);
    [repeat constructor | exact H2 |].
  destruct (H6 ltac:(vm_compute; reflexivity)) as [_ H7].
  split; [|vm_compute; reflexivity].
  etransitivity; [|etransitivity; [exact H7|]]; vm_compute; reflexivity.
Defined.
